(** * Energy-based-LLM: the cleaning and one-hot encoding pipeline

    A shallow embedding of [book_cleaner.py] and [onehot.py].

    Tokens are Python [str] values; they are modelled as [string], that is
    as sequences of 8-bit characters, and the string methods used by the
    code ([lower], [isdigit], [strip], [len], [in]) are given their meaning
    on ASCII text.  Characters above 127 are treated as caseless
    non-digit, non-alphanumeric characters. *)

From Stdlib Require Import Ascii Reals Lra.
From stdpp Require Import gmap strings list fin_maps sorting pretty.

(** ** Characters and the [str] methods the code uses *)

Module Str.

Definition code (a : ascii) : N := N_of_ascii a.

Definition is_upper (a : ascii) : bool := (65 <=? code a)%N && (code a <=? 90)%N.
Definition is_lower (a : ascii) : bool := (97 <=? code a)%N && (code a <=? 122)%N.
Definition is_digit (a : ascii) : bool := (48 <=? code a)%N && (code a <=? 57)%N.

(** The character class [[A-Za-z0-9]]. *)
Definition is_alnum (a : ascii) : bool := is_upper a || is_lower a || is_digit a.

Definition lower_char (a : ascii) : ascii :=
  if is_upper a then ascii_of_N (code a + 32) else a.

(** [s.lower()] on ASCII text: the letters [A] to [Z] are changed, the
    other characters are kept. *)
Fixpoint lower (s : string) : string :=
  match s with
  | EmptyString => EmptyString
  | String a s' => String (lower_char a) (lower s')
  end.

Fixpoint forallb (p : ascii -> bool) (s : string) : bool :=
  match s with
  | EmptyString => true
  | String a s' => p a && forallb p s'
  end.

Fixpoint existsb (p : ascii -> bool) (s : string) : bool :=
  match s with
  | EmptyString => false
  | String a s' => p a || existsb p s'
  end.

(** [s.isdigit()] on ASCII text, where the digits are [0] to [9]: false
    on the empty string. *)
Definition isdigit (s : string) : bool :=
  match s with
  | EmptyString => false
  | _ => forallb is_digit s
  end.

(** [s.isascii()]: every character is below 128. *)
Definition isascii (s : string) : bool :=
  forallb (fun a => (code a <? 128)%N) s.

(** [len(s)] *)
Definition len (s : string) : nat := String.length s.

(** [c in chars] for a character and a string of characters. *)
Definition mem (a : ascii) (chars : string) : bool :=
  existsb (fun b => bool_decide (a = b)) chars.

(** [s.lstrip(chars)] *)
Fixpoint lstrip (chars s : string) : string :=
  match s with
  | EmptyString => EmptyString
  | String a s' => if mem a chars then lstrip chars s' else s
  end.

(** [s.rstrip(chars)] *)
Fixpoint rstrip (chars s : string) : string :=
  match s with
  | EmptyString => EmptyString
  | String a s' =>
      match rstrip chars s' with
      | EmptyString => if mem a chars then EmptyString else String a EmptyString
      | r => String a r
      end
  end.

(** [s.strip(chars)] *)
Definition strip (chars s : string) : string := rstrip chars (lstrip chars s).

End Str.

(** ** A backtracking matcher for the fragment of [re] used by [is_roman] *)

Module Re.

Definition LF : ascii := "010"%char.

(** Pattern syntax: the empty pattern, [^], [$], a literal, concatenation, [|], [?] and
    [{0,n}]. *)
Inductive regex : Type :=
  | Eps
  | Bol
  | Eol
  | Chr (c : ascii)
  | Seq (r1 r2 : regex)
  | Alt (r1 r2 : regex)
  | Opt (r : regex)
  | UpTo (n : nat) (r : regex).

(** A literal under [re.IGNORECASE], on ASCII text: the letter in
    either case. *)
Definition chr_eq_ci (a c : ascii) : bool :=
  bool_decide (Str.lower_char a = Str.lower_char c).

(** Without [re.MULTILINE], [$] matches at the end of the string and just
    before a newline that is the last character of the string. *)
Definition at_eol (s : string) : bool :=
  match s with
  | EmptyString => true
  | String a EmptyString => bool_decide (a = LF)
  | _ => false
  end.

(** [run r pos s k]: some way of matching [r] at offset [pos], where [s] is
    the rest of the subject, leaves an offset and a rest that [k] accepts. *)
Fixpoint run (r : regex) (pos : nat) (s : string)
    (k : nat -> string -> bool) : bool :=
  match r with
  | Eps => k pos s
  | Bol => if decide (pos = 0) then k pos s else false
  | Eol => if at_eol s then k pos s else false
  | Chr c =>
      match s with
      | EmptyString => false
      | String a s' => if chr_eq_ci a c then k (S pos) s' else false
      end
  | Seq r1 r2 => run r1 pos s (fun pos' s' => run r2 pos' s' k)
  | Alt r1 r2 => run r1 pos s k || run r2 pos s k
  | Opt r1 => run r1 pos s k || k pos s
  | UpTo n r1 =>
      (fix upto (n : nat) (pos : nat) (s : string) : bool :=
         match n with
         | O => k pos s
         | S n' => run r1 pos s (fun pos' s' => upto n' pos' s') || k pos s
         end) n pos s
  end.

(** [bool(re.match(pattern, s))]: the pattern must match at offset 0; it
    need not consume the whole subject. *)
Definition matches (r : regex) (s : string) : bool :=
  run r 0 s (fun _ _ => true).

(** Concatenation of a list of patterns. *)
Fixpoint cat (rs : list regex) : regex :=
  match rs with
  | [] => Eps
  | [r] => r
  | r :: rs' => Seq r (cat rs')
  end.

(** A literal word. *)
Fixpoint lit (w : string) : regex :=
  match w with
  | EmptyString => Eps
  | String c EmptyString => Chr c
  | String c w' => Seq (Chr c) (lit w')
  end.

End Re.

(** ** Exceptions

    The exceptions the code can raise: a failed [dict] lookup, an
    [ndarray] index outside its axis, [np.zeros] on a negative dimension,
    and the [IndexError] that [partition_by_position] raises itself. *)
Inductive exn : Type :=
  | KeyError (key : string)
  | IndexError (axis index size : nat)
  | ValueError
  | PositionError (position : Z).

Inductive result (A : Type) : Type :=
  | Ok (a : A)
  | Raise (e : exn).
Arguments Ok {A} a.
Arguments Raise {A} e.

(** Sequencing: an exception ends the computation ([x ← m; k]). *)
#[global] Instance result_bind : MBind result := fun A B f m =>
  match m with
  | Ok a => f a
  | Raise e => Raise e
  end.

(** ** [book_cleaner.py] *)

(** [PUNCT = set("`!@#$%^&*()_-+=[]|;:<>,.?/{\}")]: the characters of the
    literal, the backslash included. *)
Definition PUNCT : string := "`!@#$%^&*()_-+=[]|;:<>,.?/{\}".

Import Re.

(** The three optional groups of the pattern of [is_roman]. *)
Definition hundreds : regex :=
  Opt (Alt (lit "CM") (Alt (lit "CD") (Seq (Opt (Chr "D")) (UpTo 3 (Chr "C"))))).
Definition tens : regex :=
  Opt (Alt (lit "XC") (Alt (lit "XL") (Seq (Opt (Chr "L")) (UpTo 3 (Chr "X"))))).
Definition units : regex :=
  Opt (Alt (lit "IX") (Alt (lit "IV") (Seq (Opt (Chr "V")) (UpTo 3 (Chr "I"))))).

(** The grammar between the anchors. *)
Definition roman_body : regex :=
  cat [UpTo 3 (Chr "M"); hundreds; tens; units].

(** The compiled pattern ([re.VERBOSE] drops the white space). *)
Definition roman_pattern : regex := cat [Bol; roman_body; Eol].

(** [bool(re.match(pattern, word))] *)
Definition is_roman (word : string) : bool := matches roman_pattern word.

(** [any(tok == "CHAPTER" for tok in sent)] *)
Definition has_CHAPTER (sent : list string) : bool :=
  existsb (fun tok => bool_decide (tok = "CHAPTER")) sent.

(** The second test of the loop body: [lowered.index("chapter")] is the
    first position of ["chapter"] in [lowered] (when there is one), and
    [nxt] is the raw token after it (when there is one). *)
Definition chapter_number (sent : list string) : bool :=
  let lowered := map Str.lower sent in
  match list_find (fun tok => tok = "chapter") lowered with
  | Some (i, _) =>
      match sent !! (i + 1) with
      | Some nxt => Str.isdigit nxt || is_roman nxt
      | None => false
      end
  | None => false
  end.

(** [word in PUNCT], for the set [PUNCT] of one-character strings. *)
Definition in_PUNCT (word : string) : bool :=
  match word with
  | String a EmptyString => Str.mem a PUNCT
  | _ => false
  end.

(** The body of the loop over the tagged tokens: [None] when the token is
    skipped, [Some w] when [w] is appended to [clean]. *)
Definition clean_word (word PoS : string) : option string :=
  if negb (Str.existsb Str.is_alnum word) then None
  else if Str.isdigit word then None
  else if bool_decide (1 < Str.len word) && is_roman word then None
  else if in_PUNCT word then None
  else if bool_decide (PoS = "NNP") then Some word
  else
    let w := Str.lower (Str.strip ("_" +:+ PUNCT) word) in
    if bool_decide (w = "") then None
    else if bool_decide (Str.len w = 1) && negb (bool_decide (w ∈ ["a"; "i"]))
    then None
    else Some w.

(** The external part-of-speech tagger [nltk.pos_tag]. *)
Definition tagger : Type := list string -> list (string * string).

(** The loop over one tagged sentence. *)
Definition clean_tagged (tagged : list (string * string)) : list string :=
  foldl (fun clean '(word, PoS) =>
           match clean_word word PoS with
           | Some w => clean ++ [w]
           | None => clean
           end) [] tagged.

Definition len_between (lo hi : Z) {A} (l : list A) : bool :=
  bool_decide (lo ≤ Z.of_nat (length l) ≤ hi)%Z.

(** The sentence is skipped by one of the two [continue] statements that
    come before the tagging. *)
Definition chapter_heading (sent : list string) : bool :=
  has_CHAPTER sent || chapter_number sent.

(** One iteration of the loop over [filtered]. *)
Definition clean_step (pos_tag : tagger) (min_sent_len max_sent_len : Z)
    (cleaned : list (list string)) (sent : list string) : list (list string) :=
  if has_CHAPTER sent then cleaned
  else if chapter_number sent then cleaned
  else
    let clean := clean_tagged (pos_tag sent) in
    if len_between min_sent_len max_sent_len clean then cleaned ++ [clean]
    else cleaned.

Definition clean_sents (pos_tag : tagger) (sentences : list (list string))
    (min_sent_len max_sent_len : Z) : list (list string) :=
  let filtered :=
    filter (fun s => len_between min_sent_len (max_sent_len + 1) s) sentences in
  foldl (clean_step pos_tag min_sent_len max_sent_len) [] filtered.

(** A call of [clean_sents]: the body holds no [raise] and no operation
    it applies to a list of [str] tokens can fail, so the call returns. *)
Definition call_clean_sents (pos_tag : tagger) (sentences : list (list string))
    (min_sent_len max_sent_len : Z) : result (list (list string)) :=
  Ok (clean_sents pos_tag sentences min_sent_len max_sent_len).

(** [get_vocabulary]: a [set] filled token by token, then ['GAP'], then
    [sorted], which orders [str] values by their characters' codes. *)
Definition get_vocabulary (cleaned_book : list (list string)) : list string :=
  let vocab : gset string :=
    foldl (fun vocab sent => foldl (fun vocab w => {[w]} ∪ vocab) vocab sent)
      ∅ cleaned_book in
  let vocab := {["GAP"]} ∪ vocab in
  merge_sort String.le (elements vocab).

(** ** [onehot.py] *)

(** A [for] loop whose body can raise: the state is threaded through the
    iterations and the first exception ends the loop. *)
Fixpoint for_each {A S} (body : S -> A -> result S) (s : S) (l : list A)
    : result S :=
  match l with
  | [] => Ok s
  | a :: l' => s' ← body s a; for_each body s' l'
  end.

(** [enumerate(l)] *)
Definition enumerate {A} (l : list A) : list (nat * A) := imap pair l.

Module OneHot.

(** A 3-axis [ndarray] of integers, outermost axis first. *)
Abbreviation tensor := (list (list (list Z))).

(** [np.zeros((n, l, v), dtype=int)].  Memory is not modelled: the
    allocation of an array of these dimensions is taken to succeed. *)
Definition zeros (n l v : nat) : tensor :=
  replicate n (replicate l (replicate v 0%Z)).

(** [t[i,j,k] = x]: an index outside its axis raises, nothing wraps (the
    indices written by the constructor are never negative). *)
Definition set3 (n l v : nat) (t : tensor) (i j k : nat) (x : Z)
    : result tensor :=
  if decide (n ≤ i) then Raise (IndexError 0 i n)
  else if decide (l ≤ j) then Raise (IndexError 1 j l)
  else if decide (v ≤ k) then Raise (IndexError 2 k v)
  else Ok (alter (alter (<[k := x]>) j) i t).

(** [{w: i for i, w in enumerate(vocabulary)}]: a later occurrence of a
    word overwrites an earlier one. *)
Definition make_word2idx (vocabulary : list string) : gmap string nat :=
  foldl (fun m '(i, w) => <[w := i]> m) ∅ (enumerate vocabulary).

(** [word2idx[w]] *)
Definition getitem (word2idx : gmap string nat) (w : string) : result nat :=
  match word2idx !! w with
  | Some k => Ok k
  | None => Raise (KeyError w)
  end.

(** [one_hot.reshape(N, L*V)]: the last two axes collapse, row-major. *)
Definition reshape (t : tensor) : list (list Z) :=
  map (fun row : list (list Z) => List.concat row) t.

Record t : Type := {
  sentences : list (list string);
  vocabulary : list string;
  L : nat;
  word2idx : gmap string nat;
  N : nat;
  V : nat;
  one_hot : tensor;
  onehot_flat : list (list Z)
}.

(** The body of the loop over [enumerate(sentences)]. *)
Definition encode_sentence (n l v : nat) (w2i : gmap string nat)
    (t : tensor) (isent : nat * list string) : result tensor :=
  let '(i, sent) := isent in
  t ← for_each (fun t '(j, word) =>
                  k ← getitem w2i word;
                  set3 n l v t i j k 1)
        t (enumerate sent);
  gap_idx ← getitem w2i "GAP";
  for_each (fun t j => set3 n l v t i j gap_idx 1)
    t (seq (length sent) (l - length sent)).

(** [OneHot.__init__] (the title and the minimum length are only stored). *)
Definition init (sentences : list (list string)) (vocabulary : list string)
    (max_sentence_length : Z) : result t :=
  let w2i := make_word2idx vocabulary in
  let n := length sentences in
  let v := length vocabulary in
  if decide (max_sentence_length < 0)%Z then Raise ValueError
  else
    let l := Z.to_nat max_sentence_length in
    one_hot ← for_each (encode_sentence n l v w2i) (zeros n l v)
                (enumerate sentences);
    Ok {| sentences := sentences; vocabulary := vocabulary; L := l;
          word2idx := w2i; N := n; V := v; one_hot := one_hot;
          onehot_flat := reshape one_hot |}.

(** [one_hot[i,j,k]] for indices inside the axes. *)
Definition get3 (t : tensor) (i j k : nat) : option Z :=
  row ← t !! i; cell ← row !! j; cell !! k.

End OneHot.

(** ** The chapter-heading rule and the stable sentences *)

Module Cleaning.

(** The rule as the specification words it: some token is [CHAPTER], or
    some token equal to [chapter] up to case is followed by a token that
    is all digits or a Roman numeral of more than one character. *)
Definition heading_as_specified (sent : list string) : Prop :=
  "CHAPTER" ∈ sent \/
  exists i tok nxt,
    sent !! i = Some tok /\ Str.lower tok = "chapter" /\
    sent !! (i + 1) = Some nxt /\
    (Str.isdigit nxt = true \/ (is_roman nxt = true /\ 1 < Str.len nxt)).

(** The rule as the code applies it: the first such token counts, and
    the classifier is applied to the next token whatever its length. *)
Definition heading_as_coded (sent : list string) : Prop :=
  "CHAPTER" ∈ sent \/
  exists i tok nxt,
    sent !! i = Some tok /\ Str.lower tok = "chapter" /\
    (forall j tok', j < i -> sent !! j = Some tok' ->
                    Str.lower tok' <> "chapter") /\
    sent !! (i + 1) = Some nxt /\
    (Str.isdigit nxt = true \/ is_roman nxt = true).

(** What one sentence that reached the loop contributes to [cleaned]. *)
Definition contribution (pos_tag : tagger) (min_sent_len max_sent_len : Z) (sent : list string)
    : list (list string) :=
  if chapter_heading sent then []
  else
    let clean := clean_tagged (pos_tag sent) in
    if len_between min_sent_len max_sent_len clean then [clean] else [].

(** The strip set of [clean_word]. *)
Definition strip_chars : string := "_" +:+ PUNCT.


(** A token that stripping and lower-casing leave alone and that is not a
    lone character other than [a] and [i]. *)
Definition normal (w : string) : bool :=
  bool_decide (Str.strip strip_chars w = w) &&
  bool_decide (Str.lower w = w) &&
  (negb (bool_decide (Str.len w = 1)) || bool_decide (w ∈ ["a"; "i"])).


(** A tagger that never answers [NNP]. *)
Definition tag_NN : tagger := map (fun w => (w, "NN")).

End Cleaning.

(** ** The positional analyzer

    [np.float64] values are modelled by real numbers: the arithmetic is
    exact, rounding is left out. *)

Module Analyzer.
Import OneHot.

(** [row[a:b]] for [0 <= a <= b] *)
Definition slice {A} (a b : nat) (row : list A) : list A :=
  take (b - a) (drop a row).

(** [partition_by_position] *)
Definition partition_by_position (o : OneHot.t) (position : Z)
    : result (list (list Z)) :=
  if decide (0 ≤ position < Z.of_nat (L o))%Z then
    let i := Z.to_nat position in
    Ok (map (slice (i * V o) ((i + 1) * V o)) (onehot_flat o))
  else Raise (PositionError position).

(** Column [k] of a 2-axis array whose rows have more than [k] entries. *)
Definition column (k : nat) (rows : list (list Z)) : list Z :=
  map (fun row => default 0%Z (row !! k)) rows.

Definition Zsum (l : list Z) : Z := foldr Z.add 0%Z l.

Definition Rsum (l : list R) : R := foldr Rplus 0%R l.

(** [a.mean(axis=0)] for an array of [n] rows and [v] columns, over the
    exact real numbers: the rounding of [float64] is not modelled, nor
    the [nan] that NumPy answers when there is no row ([n = 0]). *)
Definition mean_axis0 (n v : nat) (rows : list (list Z)) : list R :=
  map (fun k => (IZR (Zsum (column k rows)) / INR n)%R) (seq 0 v).

(** [position_marginals] *)
Definition position_marginals (o : OneHot.t) (position : Z)
    : result (list R) :=
  partition ← partition_by_position o position;
  Ok (mean_axis0 (N o) (V o) partition).

(** [np.log2] *)
Definition log2 (x : R) : R := (ln x / ln 2)%R.

(** The smoothing constant [1e-5]. *)
Definition eps : R := (1 / 100000)%R.

(** [-np.sum(p * np.log2(p + 1e-5))] *)
Definition entropy_of (p : list R) : R :=
  (- Rsum (map (fun pk => pk * log2 (pk + eps)) p))%R.

(** [position_dimensionality] *)
Definition position_dimensionality (o : OneHot.t) (position : Z)
    : result (R * R) :=
  p ← position_marginals o position;
  let entropy := entropy_of p in
  let dimensionality := Rpower 2 entropy in
  Ok (entropy, dimensionality).

End Analyzer.

(** ** The tensor the encoder builds, written out *)

Module Encoding.

(** The vector of length [v] with a one at [k] and zeros elsewhere. *)
Definition hot (v k : nat) : list Z := <[k := 1%Z]> (replicate v 0%Z).

(** The index of a word, [0] standing in for a word without one. *)
Definition index_of (w2i : gmap string nat) (w : string) : nat :=
  default 0 (w2i !! w).

(** The [l] vectors of one sentence: one per token, then the padding. *)
Definition encoded_row (w2i : gmap string nat) (l v : nat)
    (sent : list string) : list (list Z) :=
  map (fun w => hot v (index_of w2i w)) sent
  ++ replicate (l - length sent) (hot v (index_of w2i "GAP")).

(** A sentence the constructor can encode: it fits in [l] positions and
    its tokens and [GAP] have an index. *)
Definition encodable (w2i : gmap string nat) (l : nat) (sent : list string)
    : Prop :=
  Forall (fun w => is_Some (w2i !! w)) sent /\
  length sent ≤ l /\ is_Some (w2i !! "GAP").

(** The same, on the vocabulary: the tokens of the sentence and [GAP]
    are in the vocabulary and the sentence has at most [l] tokens. *)
Definition fits (vocabulary : list string) (l : nat) (sent : list string)
    : Prop :=
  Forall (fun w => w ∈ vocabulary) sent /\ length sent ≤ l /\
  "GAP" ∈ vocabulary.

#[global] Instance fits_dec (vocabulary : list string) (l : nat)
    (sent : list string) : Decision (fits vocabulary l sent) :=
  and_dec _ (and_dec _ _).

(** The exception that the encoding of a sentence stops on.  The tokens
    are taken in order, each looked up and then written: the lookup of
    the first token that is not in the vocabulary raises, if this token
    stands at a position up to [l]; the write at position [l] raises, if
    the tokens up to this position are in the vocabulary; the lookup of
    [GAP] for the padding raises after the tokens, if they all passed. *)
Definition stops (vocabulary : list string) (l : nat) (sent : list string)
    (e : exn) : Prop :=
  (exists p q tok,
     sent = p ++ tok :: q /\ Forall (fun w => w ∈ vocabulary) p /\
     (tok ∉ vocabulary) /\ length p ≤ l /\ e = KeyError tok) \/
  (l < length sent /\ Forall (fun w => w ∈ vocabulary) (take (S l) sent) /\
   e = IndexError 1 l l) \/
  (Forall (fun w => w ∈ vocabulary) sent /\ length sent ≤ l /\
   ("GAP" ∉ vocabulary) /\ e = KeyError "GAP").

(** The indicator of [k = k'], as the tensor stores it. *)
Definition indicator (k k' : nat) : Z := if decide (k = k') then 1%Z else 0%Z.

(** The index written at position [j] of a sentence. *)
Definition index_at (w2i : gmap string nat) (j : nat) (sent : list string)
    : nat :=
  index_of w2i (default "GAP" (sent !! j)).

End Encoding.

(** ** Counting the tokens of a corpus *)

(** The number of distinct tokens that occur in the corpus. *)
Definition distinct_tokens (corpus : list (list string)) : nat :=
  length (remove_dups (concat corpus)).

(** ** The Roman-numeral grammar of the specification *)

Module Grammar.

(** The set of strings a pattern without anchors denotes: the usual
    meaning of concatenation, alternation, [?] and [{0,n}], a letter
    standing for both of its cases. *)
Fixpoint lang (r : regex) (w : string) : Prop :=
  match r with
  | Eps | Bol | Eol => w = ""
  | Chr c => exists a, w = String a "" /\ Str.lower_char a = Str.lower_char c
  | Seq r1 r2 => exists w1 w2, w = w1 +:+ w2 /\ lang r1 w1 /\ lang r2 w2
  | Alt r1 r2 => lang r1 w \/ lang r2 w
  | Opt r1 => w = "" \/ lang r1 w
  | UpTo n r1 =>
      (fix upto (n : nat) (w : string) : Prop :=
         match n with
         | O => w = ""
         | S n' =>
             w = "" \/ exists w1 w2, w = w1 +:+ w2 /\ lang r1 w1 /\ upto n' w2
         end) n w
  end.

(** The whole token is a word of
    [M{0,3}(CM|CD|D?C{0,3})?(XC|XL|L?X{0,3})?(IX|IV|V?I{0,3})?]. *)
Definition roman_grammar (w : string) : Prop := lang roman_body w.

(** The letters of the grammar, in either case. *)
Definition roman_letter (a : ascii) : bool :=
  Str.mem (Str.lower_char a) "mdclxvi".

End Grammar.

(** ** The meaning of patterns, for the proofs about the matcher *)

Module ReSem.

(** [den r pos w rest]: the pattern [r] can consume [w] at offset [pos]
    when [rest] follows; the anchors look at [pos] and [rest]. *)
Fixpoint den (r : regex) (pos : nat) (w rest : string) : Prop :=
  match r with
  | Eps => w = ""
  | Bol => w = "" /\ pos = 0
  | Eol => w = "" /\ at_eol rest = true
  | Chr c => exists a, w = String a "" /\ chr_eq_ci a c = true
  | Seq r1 r2 =>
      exists w1 w2, w = w1 +:+ w2 /\ den r1 pos w1 (w2 +:+ rest) /\
                    den r2 (pos + String.length w1) w2 rest
  | Alt r1 r2 => den r1 pos w rest \/ den r2 pos w rest
  | Opt r1 => w = "" \/ den r1 pos w rest
  | UpTo n r1 =>
      (fix upto (n : nat) (pos : nat) (w : string) : Prop :=
         match n with
         | O => w = ""
         | S n' =>
             w = "" \/
             exists w1 w2, w = w1 +:+ w2 /\ den r1 pos w1 (w2 +:+ rest) /\
                           upto n' (pos + String.length w1) w2
         end) n pos w
  end.

(** What a continuation sees after [w] has been consumed. *)
Definition accepts (k : nat -> string -> bool) (pos : nat) (w rest : string) :=
  k (pos + String.length w) rest = true.

(** Patterns without anchors. *)
Fixpoint anchor_free (r : regex) : bool :=
  match r with
  | Eps | Chr _ => true
  | Bol | Eol => false
  | Seq r1 r2 | Alt r1 r2 => anchor_free r1 && anchor_free r2
  | Opt r1 | UpTo _ r1 => anchor_free r1
  end.

(** The literals of a pattern. *)
Fixpoint literals (r : regex) : list ascii :=
  match r with
  | Eps | Bol | Eol => []
  | Chr c => [c]
  | Seq r1 r2 | Alt r1 r2 => literals r1 ++ literals r2
  | Opt r1 | UpTo _ r1 => literals r1
  end.

End ReSem.

(** ** The remaining functions: bounds, summary, frequent words, books *)

Module ReBound.
Import Re.

(** The length of the longest word a pattern can consume. *)
Fixpoint max_len (r : regex) : nat :=
  match r with
  | Eps | Bol | Eol => 0
  | Chr _ => 1
  | Seq r1 r2 => max_len r1 + max_len r2
  | Alt r1 r2 => max_len r1 `max` max_len r2
  | Opt r1 => max_len r1
  | UpTo n r1 => n * max_len r1
  end.

End ReBound.

(** A string that does not start with a character of [chars]. *)
Definition starts_clean (chars s : string) : Prop :=
  match s with
  | EmptyString => True
  | String a _ => Str.mem a chars = false
  end.

(** ** [OneHot.summarize] *)

Module Summary.

(** [int(s)] for a string of decimal digits, which the keys of
    [sent_lens_freq] are. *)
Definition digit_value (c : ascii) : nat := N.to_nat (Str.code c) - 48.

Fixpoint int_from (acc : nat) (s : string) : nat :=
  match s with
  | EmptyString => acc
  | String c s' => int_from (10 * acc + digit_value c) s'
  end.

Definition int (s : string) : nat := int_from 0 s.

(** The loop that counts the sentences of each length, under the key
    [str(length)]. *)
Definition count_lengths (sentences : list (list string)) : gmap string nat :=
  foldl (fun sent_lens_freq sent =>
           let len_str : string := pretty (length sent) in
           match sent_lens_freq !! len_str with
           | Some c => <[len_str := c + 1]> sent_lens_freq
           | None => <[len_str := 1]> sent_lens_freq
           end) ∅ sentences.

(** The order of [sorted(..., key=lambda item: int(item[0]))]. *)
Definition by_int_key (a b : string * nat) : Prop := int a.1 ≤ int b.1.

#[global] Instance by_int_key_dec : RelDecision by_int_key :=
  fun a b => decide (int a.1 ≤ int b.1).

(** [sorted_dict]: the items of the dictionary, by increasing length.
    (The keys are distinct, so the order [sorted] starts from does not
    show in the result.) *)
Definition sorted_dict (sentences : list (list string)) : list (string * nat) :=
  merge_sort by_int_key (map_to_list (count_lengths sentences)).

(** What [summarize] prints: [N], [V] and [sorted_dict]. *)
Definition summarize (o : OneHot.t) : nat * nat * list (string * nat) :=
  (OneHot.N o, OneHot.V o, sorted_dict (OneHot.sentences o)).

End Summary.


(** ** [position_frequent_words] *)

Module Frequent.
Import OneHot Analyzer.

(** A [DataFrame] of the columns [Word] and [Probability]: its rows, in
    the order of its index. *)
Abbreviation frame := (list (string * R)).

(** [df['Probability'] >= threshold] *)
Definition at_least (threshold : R) (row : string * R) : Prop :=
  (threshold <= row.2)%R.

#[global] Instance at_least_dec (threshold : R) (row : string * R) :
  Decision (at_least threshold row) := Rle_dec threshold row.2.

(** The order that [sort_values('Probability', ascending=False)] puts
    two consecutive rows in. *)
Definition descending (a b : string * R) : Prop := (b.2 <= a.2)%R.

#[global] Instance descending_dec : RelDecision descending :=
  fun a b => Rle_dec b.2 a.2.

(** [sort_values] is pandas' own; its default algorithm (quicksort) does
    not fix the order of rows of equal probability, so the sort is an
    argument of the model. *)
Definition sorter : Type := frame -> frame.

(** A sort by decreasing probability. *)
Definition sort_descending : sorter := merge_sort descending.

(** [position_frequent_words]; [reset_index(drop=True)] renumbers the
    rows and leaves their order. *)
Definition position_frequent_words (sort_values : sorter) (o : OneHot.t)
    (position : Z) (threshold : R) : result frame :=
  p ← position_marginals o position;
  let df := zip (vocabulary o) p in
  let df_hi := sort_values (filter (at_least threshold) df) in
  Ok df_hi.

End Frequent.

(** ** [get_sents] and [merged_books_sents] *)

Module Books.

(** [\w] on ASCII text: a letter, a digit or the underscore. *)
Definition is_word_char (a : ascii) : bool :=
  Str.is_alnum a || (Str.code a =? 95)%N.

(** The match that ends where the text stops being a word: [cur] is the
    run of word characters read so far. *)
Definition flush (cur : string) : list string :=
  match cur with
  | EmptyString => []
  | _ => [cur]
  end.

(** [RegexpTokenizer(r'\w+').tokenize(text)], that is
    [re.findall(r'\w+', text)]: the successive matches of [\w+], each
    as long as it can be, from left to right. *)
Fixpoint tokenize_from (cur text : string) : list string :=
  match text with
  | EmptyString => flush cur
  | String a text' =>
      if is_word_char a
      then tokenize_from (cur +:+ String a EmptyString) text'
      else flush cur ++ tokenize_from EmptyString text'
  end.

Definition tokenize (text : string) : list string :=
  tokenize_from EmptyString text.

(** What [get_sents] calls: the sentences of a text of the NLTK
    Gutenberg corpus, the content of a file, and NLTK's [sent_tokenize];
    [None] where the call raises. *)
Record sources : Type := {
  gutenberg_sents : string -> option (list (list string));
  read : string -> option string;
  sent_tokenize : string -> option (list string)
}.

(** [get_sents] *)
Definition get_sents (io : sources) (filename : string) (is_gutenberg : bool)
    : option (list (list string)) :=
  if is_gutenberg then gutenberg_sents io filename
  else
    text ← read io filename;
    sentences ← sent_tokenize io text;
    Some (map tokenize sentences).

(** The loop of [merged_books_sents]: [all.extend(get_sents(b[0], b[1]))]
    for each [b]. *)
Fixpoint extend_all (io : sources) (all : list (list string))
    (filenames : list (string * bool)) : option (list (list string)) :=
  match filenames with
  | [] => Some all
  | b :: filenames =>
      sents ← get_sents io b.1 b.2;
      extend_all io (all ++ sents) filenames
  end.

(** [merged_books_sents] *)
Definition merged_books_sents (io : sources)
    (filenames : list (string * bool)) : option (list (list string)) :=
  extend_all io [] filenames.

(** The text between and around the tokens: [weave [g0; g1; ...; gn]
    [t1; ...; tn]] is [g0 t1 g1 ... tn gn]. *)
Fixpoint weave (gaps tokens : list string) : string :=
  match gaps, tokens with
  | g :: gaps, t :: tokens => g +:+ t +:+ weave gaps tokens
  | g :: _, [] => g
  | [], _ => EmptyString
  end.

(** A token: one word character or more, and nothing else. *)
Definition is_token (t : string) : Prop :=
  t <> EmptyString /\ Str.forallb is_word_char t = true.

(** A gap: no word character. *)
Definition is_gap (g : string) : Prop :=
  Str.forallb (fun a => negb (is_word_char a)) g = true.

(** A text that does not start inside a word. *)
Definition starts_gap (text : string) : Prop :=
  match text with
  | EmptyString => True
  | String a _ => is_word_char a = false
  end.

End Books.

(** ** [list_available_books] *)

(** The exceptions of the [list] operations: the [IndexError] of an
    index outside the list and the [ValueError] of [index] on a value
    that the list does not hold. *)
Inductive list_error : Type :=
  | OutOfRange
  | NotInList.

Inductive outcome (A : Type) : Type :=
  | Returns (a : A)
  | Raises (e : list_error).
Arguments Returns {A} a.
Arguments Raises {A} e.

#[global] Instance outcome_bind : MBind outcome := fun A B f m =>
  match m with
  | Returns a => f a
  | Raises e => Raises e
  end.

(** A [for] loop whose body can raise. *)
Fixpoint for_all {A S} (body : S -> A -> outcome S) (s : S) (l : list A)
    : outcome S :=
  match l with
  | [] => Returns s
  | a :: l' => s' ← body s a; for_all body s' l'
  end.

Module PyList.
Section ops.
Context {A : Type}.

(** The place that index [i] names in a list of [n] items: a negative
    index counts from the end. *)
Definition place (n : nat) (i : Z) : outcome nat :=
  if decide (0 ≤ i < Z.of_nat n)%Z then Returns (Z.to_nat i)
  else if decide (- Z.of_nat n ≤ i < 0)%Z
       then Returns (Z.to_nat (Z.of_nat n + i))
       else Raises OutOfRange.

(** [l[i]] *)
Definition getitem (l : list A) (i : Z) : outcome A :=
  k ← place (length l) i;
  match l !! k with
  | Some x => Returns x
  | None => Raises OutOfRange
  end.

(** [del l[i]] *)
Definition delitem (l : list A) (i : Z) : outcome (list A) :=
  k ← place (length l) i;
  Returns (delete k l).

(** [l.pop(i)]: the item and the list without it. *)
Definition pop (l : list A) (i : Z) : outcome (A * list A) :=
  x ← getitem l i;
  l' ← delitem l i;
  Returns (x, l').

(** [l.insert(i, x)]: an index beyond an end of the list is moved to
    that end. *)
Definition insert (l : list A) (i : Z) (x : A) : list A :=
  let n := Z.of_nat (length l) in
  let k := Z.to_nat (if decide (i < 0)%Z then Z.max 0 (n + i) else Z.min n i) in
  take k l ++ x :: drop k l.

(** [l.index(x)]: the first place of [x]. *)
Definition index `{EqDecision A} (l : list A) (x : A) : outcome nat :=
  match list_find (fun y => y = x) l with
  | Some (i, _) => Returns i
  | None => Raises NotInList
  end.

End ops.

(** [sep.join(l)] *)
Fixpoint join (sep : string) (l : list string) : string :=
  match l with
  | [] => EmptyString
  | x :: l' =>
      match l' with
      | [] => x
      | _ :: _ => x +:+ sep +:+ join sep l'
      end
  end.

End PyList.

Module Available.

(** The NLTK corpus: [gutenberg.fileids()] and [gutenberg.sents]. *)
Record corpus : Type := {
  fileids : list string;
  sents : string -> list (list string)
}.

(** The branch of [if "'" in title_s]: the token before the first
    apostrophe, the apostrophe and the token after it are joined, the
    joined token is inserted and three items are popped. *)
Definition merge_possessive (title_s : list string) : outcome (list string) :=
  i ← PyList.index title_s "'";
  let i := Z.of_nat i in
  first ← PyList.getitem title_s (i - 1);
  apost ← PyList.getitem title_s i;
  last ← PyList.getitem title_s (i + 1);
  let posses := [first; apost; last] in
  let single := PyList.join "" posses in
  let title_s := PyList.insert title_s (i - 1) single in
  '(_, title_s) ← PyList.pop title_s i;
  '(_, title_s) ← PyList.pop title_s i;
  '(_, title_s) ← PyList.pop title_s i;
  Returns title_s.

(** The title tokens of a first sentence: [del title_s[0]],
    [del title_s[-1]] and the apostrophe branch. *)
Definition title_words (title_s : list string) : outcome (list string) :=
  title_s ← PyList.delitem title_s 0;
  title_s ← PyList.delitem title_s (-1);
  if bool_decide ("'" ∈ title_s) then merge_possessive title_s
  else Returns title_s.

(** [if title not in title_file: title_file[title] = b], on a [dict]
    kept as its items in the order of insertion. *)
Definition store (title_file : list (string * string)) (title b : string)
    : list (string * string) :=
  if bool_decide (title ∈ title_file.*1) then title_file
  else title_file ++ [(title, b)].

(** The body of the loop over the books. *)
Definition book (c : corpus) (title_file : list (string * string))
    (b : string) : outcome (list (string * string)) :=
  title_s ← PyList.getitem (sents c b) 0;
  title_s ← title_words title_s;
  if bool_decide ("by" ∈ title_s) then
    s ← PyList.index title_s "by";
    let title := PyList.join " " (take s title_s) in
    Returns (store title_file title b)
  else
    let title := PyList.join " " title_s in
    Returns (store title_file title b).

(** [list_available_books]: the dictionary it returns (the frame it
    displays has the same items in the same order). *)
Definition list_available_books (c : corpus)
    : outcome (list (string * string)) :=
  for_all (book c) [] (fileids c).

(** The title that the loop computes for a book. *)
Definition title_of (c : corpus) (b : string) : outcome string :=
  title_s ← PyList.getitem (sents c b) 0;
  title_s ← title_words title_s;
  if bool_decide ("by" ∈ title_s) then
    s ← PyList.index title_s "by";
    Returns (PyList.join " " (take s title_s))
  else Returns (PyList.join " " title_s).

(** A first sentence without title tokens: it has fewer than two
    tokens, or the first apostrophe of its title is the last token of
    the title. *)
Definition malformed (title_s : list string) : Prop :=
  length title_s < 2 \/
  exists opener pre closer,
    title_s = opener :: pre ++ ["'"; closer] /\ "'" ∉ pre.

(** A book without a title: it has no sentence, or a first sentence
    without title tokens. *)
Definition untitled (c : corpus) (b : string) : Prop :=
  match sents c b with
  | [] => True
  | title_s :: _ => malformed title_s
  end.

(** [b] is the first of the files whose title is [title]. *)
Definition first_titled (titles fileids : list string) (title b : string)
    : Prop :=
  exists i,
    titles !! i = Some title /\ fileids !! i = Some b /\
    forall j, j < i -> titles !! j <> Some title.

End Available.
(** * Properties *)

Example is_roman_XIV : is_roman "XIV" = true.
Proof. reflexivity. Qed.
Example is_roman_mix : is_roman "mix" = true.
Proof. reflexivity. Qed.
Example is_roman_empty : is_roman "" = true.
Proof. reflexivity. Qed.
Example is_roman_IIII : is_roman "IIII" = false.
Proof. reflexivity. Qed.
Example is_roman_chapter : is_roman "chapter" = false.
Proof. reflexivity. Qed.

(** ** Strings *)

Lemma str_app_cons (a : ascii) (s t : string) :
  String a s +:+ t = String a (s +:+ t).
Proof. reflexivity. Qed.

Lemma str_app_nil_l (s : string) : "" +:+ s = s.
Proof. reflexivity. Qed.

Lemma str_app_nil_r (s : string) : s +:+ "" = s.
Proof. induction s as [|a s IH]; [done|]. by rewrite str_app_cons, IH. Qed.

Lemma str_app_assoc (s1 s2 s3 : string) : (s1 +:+ s2) +:+ s3 = s1 +:+ (s2 +:+ s3).
Proof. induction s1 as [|a s1 IH]; [done|]. by rewrite !str_app_cons, IH. Qed.

Lemma str_length_app (s1 s2 : string) :
  String.length (s1 +:+ s2) = String.length s1 + String.length s2.
Proof.
  induction s1 as [|a s1 IH]; [done|]. rewrite str_app_cons. simpl. by rewrite IH.
Qed.

Lemma str_app_eq_nil (s1 s2 : string) : s1 +:+ s2 = "" -> s1 = "" /\ s2 = "".
Proof. destruct s1; [done | rewrite str_app_cons; discriminate]. Qed.

(** ** The matcher against the meaning of patterns *)

Module ReFacts.
Import ReSem.

Lemma run_den (r : regex) : forall pos s k,
  run r pos s k = true <->
  exists w rest, s = w +:+ rest /\ den r pos w rest /\ accepts k pos w rest.
Proof.
  unfold accepts.
  induction r as [| | |c|r1 IH1 r2 IH2|r1 IH1 r2 IH2|r1 IH1|n r1 IH1];
    intros pos s k; simpl.
  - split.
    + intros H. exists "", s. by rewrite Nat.add_0_r.
    + intros (w & rest & -> & -> & H). by rewrite Nat.add_0_r in H.
  - destruct (decide (pos = 0)) as [->|Hne]; split.
    + intros H. by exists "", s.
    + by intros (w & rest & -> & [-> _] & H).
    + done.
    + by intros (w & rest & _ & [_ ?] & _).
  - destruct (at_eol s) eqn:He; split.
    + intros H. exists "", s. by rewrite Nat.add_0_r.
    + intros (w & rest & -> & [-> _] & H). by rewrite Nat.add_0_r in H.
    + done.
    + intros (w & rest & -> & [-> Hr] & _). rewrite str_app_nil_l in He. congruence.
  - destruct s as [|a s'].
    + split; [done|]. by intros (w & rest & Hs & (b & -> & _) & _).
    + destruct (chr_eq_ci a c) eqn:Ha; split.
      * intros H. exists (String a ""), s'.
        split_and!; [done | by exists a | by rewrite Nat.add_1_r].
      * intros (w & rest & Hs & (b & -> & _) & H). rewrite str_app_cons, str_app_nil_l in Hs.
        injection Hs as -> ->. by rewrite Nat.add_1_r in H.
      * done.
      * intros (w & rest & Hs & (b & -> & Hb) & _). rewrite str_app_cons, str_app_nil_l in Hs.
        injection Hs as -> ->. congruence.
  - rewrite IH1. split.
    + intros (w1 & rest1 & -> & H1 & H2). apply IH2 in H2.
      destruct H2 as (w2 & rest & -> & H2 & Hk).
      exists (w1 +:+ w2), rest. rewrite str_app_assoc, str_length_app, Nat.add_assoc.
      split_and!; [done | by exists w1, w2 | done].
    + intros (w & rest & -> & (w1 & w2 & -> & H1 & H2) & Hk).
      exists w1, (w2 +:+ rest). rewrite str_app_assoc. split_and!; [done..|].
      apply IH2. exists w2, rest.
      by rewrite str_length_app, Nat.add_assoc in Hk.
  - rewrite orb_true_iff, IH1, IH2. split.
    + intros [(w & rest & ? & ? & ?)|(w & rest & ? & ? & ?)];
        exists w, rest; tauto.
    + intros (w & rest & ? & [?|?] & ?); [left|right]; by exists w, rest.
  - rewrite orb_true_iff, IH1. split.
    + intros [(w & rest & ? & ? & ?)|H].
      * exists w, rest. tauto.
      * exists "", s. rewrite Nat.add_0_r. split_and!; [done | by left | done].
    + intros (w & rest & -> & [->|?] & Hk).
      * right. by rewrite Nat.add_0_r in Hk.
      * left. by exists w, rest.
  - revert pos s. induction n as [|n IHn]; intros pos s.
    + split.
      * intros H. exists "", s. by rewrite Nat.add_0_r.
      * intros (w & rest & -> & -> & H). by rewrite Nat.add_0_r in H.
    + rewrite orb_true_iff, IH1. split.
      * intros [(w1 & rest1 & -> & H1 & H2)|H].
        -- apply IHn in H2. destruct H2 as (w2 & rest & -> & H2 & Hk).
           exists (w1 +:+ w2), rest.
           rewrite str_app_assoc, str_length_app, Nat.add_assoc.
           split_and!; [done | right; by exists w1, w2 | done].
        -- exists "", s. rewrite Nat.add_0_r. split_and!; [done | by left | done].
      * intros (w & rest & -> & [->|(w1 & w2 & -> & H1 & H2)] & Hk).
        -- right. by rewrite Nat.add_0_r in Hk.
        -- left. exists w1, (w2 +:+ rest). rewrite str_app_assoc.
           split_and!; [done..|]. apply IHn. exists w2, rest.
           by rewrite str_length_app, Nat.add_assoc in Hk.
Qed.

Lemma den_lang (r : regex) : anchor_free r = true ->
  forall pos w rest, den r pos w rest <-> Grammar.lang r w.
Proof.
  induction r as [| | |c|r1 IH1 r2 IH2|r1 IH1 r2 IH2|r1 IH1|n r1 IH1];
    simpl; intros Hf pos w rest; try done.
  - unfold chr_eq_ci. by setoid_rewrite bool_decide_eq_true.
  - apply andb_true_iff in Hf as [Hf1 Hf2].
    split; intros (w1 & w2 & -> & H1 & H2); exists w1, w2.
    + by rewrite <- (IH1 Hf1 pos w1 (w2 +:+ rest)),
        <- (IH2 Hf2 (pos + String.length w1) w2 rest).
    + by rewrite (IH1 Hf1), (IH2 Hf2).
  - apply andb_true_iff in Hf as [Hf1 Hf2].
    by rewrite (IH1 Hf1), (IH2 Hf2).
  - by rewrite (IH1 Hf).
  - revert pos w. induction n as [|n IHn]; intros pos w; [done|].
    split; (intros [->|(w1 & w2 & -> & H1 & H2)]; [by left|right]);
      exists w1, w2.
    + by rewrite <- (IH1 Hf pos w1 (w2 +:+ rest)), <- IHn.
    + by rewrite (IH1 Hf), IHn.
Qed.

(** Every character of a word of [lang r] is, up to case, a literal of
    [r]. *)
Lemma lang_literals (r : regex) : forall w,
  Grammar.lang r w ->
  Str.forallb (fun a => bool_decide
    (Exists (fun c => Str.lower_char a = Str.lower_char c) (literals r))) w
  = true.
Proof.
  assert (Happ : forall p w1 w2, Str.forallb p w1 = true ->
            Str.forallb p w2 = true -> Str.forallb p (w1 +:+ w2) = true).
  { intros p w1 w2 H1 H2. induction w1 as [|a w1 IH]; [done|].
    rewrite str_app_cons. simpl in *. apply andb_true_iff in H1 as [-> H1].
    by apply IH. }
  assert (Hmono : forall (P Q : ascii -> Prop) `{!forall a, Decision (P a)}
            `{!forall a, Decision (Q a)} w, (forall a, P a -> Q a) ->
            Str.forallb (fun a => bool_decide (P a)) w = true ->
            Str.forallb (fun a => bool_decide (Q a)) w = true).
  { intros P Q ? ? w HPQ. induction w as [|a w IH]; [done|]. simpl.
    rewrite !andb_true_iff, !bool_decide_eq_true. intros [Ha Hw].
    split; [by apply HPQ | by apply IH]. }
  induction r as [| | |c|r1 IH1 r2 IH2|r1 IH1 r2 IH2|r1 IH1|n r1 IH1];
    simpl; intros w Hw; try (by subst w).
  - destruct Hw as (a & -> & Ha). simpl. rewrite andb_true_r.
    apply bool_decide_eq_true. by apply Exists_cons_hd.
  - destruct Hw as (w1 & w2 & -> & H1 & H2). apply Happ.
    + eapply Hmono; [|by apply IH1]. intros a. rewrite !Exists_exists.
      intros (c & Hc & Hac). exists c. rewrite elem_of_app. tauto.
    + eapply Hmono; [|by apply IH2]. intros a. rewrite !Exists_exists.
      intros (c & Hc & Hac). exists c. rewrite elem_of_app. tauto.
  - destruct Hw as [H|H].
    + eapply Hmono; [|by apply IH1]. intros a. rewrite !Exists_exists.
      intros (c & Hc & Hac). exists c. rewrite elem_of_app. tauto.
    + eapply Hmono; [|by apply IH2]. intros a. rewrite !Exists_exists.
      intros (c & Hc & Hac). exists c. rewrite elem_of_app. tauto.
  - destruct Hw as [->|H]; [done | by apply IH1].
  - revert w Hw. induction n as [|n IHn]; intros w Hw; [by subst w|].
    destruct Hw as [->|(w1 & w2 & -> & H1 & H2)]; [done|].
    apply Happ; [by apply IH1 | by apply IHn].
Qed.

End ReFacts.

(** ** The Roman-numeral classifier *)

Section roman.
Import ReSem ReFacts Grammar.

(** A pattern between [^] and [$] accepts the words of its language and
    those words followed by one newline, and nothing else. *)
Lemma anchored_iff (body : regex) (word : string) :
  anchor_free body = true ->
  matches (Seq Bol (Seq body Eol)) word = true <->
  lang body word \/ exists g, lang body g /\ word = g +:+ String LF "".
Proof.
  intros Hf. unfold matches. rewrite run_den. unfold accepts. simpl den.
  assert (Hb : forall pos w rest, den body pos w rest <-> lang body w)
    by (by apply den_lang).
  split.
  - intros (w & rest & -> & (w1 & w2 & -> & [-> _] &
                             (w3 & w4 & -> & H3 & [-> He])) & _).
    apply (proj1 (Hb _ _ _)) in H3. rewrite str_app_nil_l, str_app_nil_r.
    destruct rest as [|a [|b rest]]; simpl in He; try done.
    + left. by rewrite str_app_nil_r.
    + right. apply bool_decide_eq_true in He as ->. by exists w3.
  - intros [H|(g & H & ->)].
    + exists word, "". rewrite str_app_nil_r. split_and!; [done| |done].
      exists "", word. split_and!; [done..|].
      exists word, "". rewrite str_app_nil_r. split_and!; [done| by apply Hb|done..].
    + exists g, (String LF ""). split_and!; [done| |done].
      exists "", g. split_and!; [done..|].
      exists g, "". rewrite str_app_nil_r. split_and!; [done| by apply Hb|done..].
Qed.

Lemma is_roman_iff (word : string) :
  is_roman word = true <->
  roman_grammar word \/
  exists g, roman_grammar g /\ word = g +:+ String LF "".
Proof. by apply anchored_iff. Qed.

(** A word of the grammar holds Roman letters only, in either case. *)
Lemma roman_grammar_letters (w : string) :
  roman_grammar w -> Str.forallb roman_letter w = true.
Proof.
  intros H. apply lang_literals in H.
  induction w as [|a w IH]; [done|]. simpl in *.
  apply andb_true_iff in H as [Ha H]. rewrite (IH H), andb_true_r.
  apply bool_decide_eq_true, Exists_exists in Ha as (c & Hc & Hac).
  unfold roman_letter. rewrite Hac. clear -Hc.
  repeat (apply elem_of_cons in Hc as [->|Hc]; [done|]).
  by apply elem_of_nil in Hc.
Qed.

Lemma is_roman_true_empty : is_roman "" = true.
Proof. reflexivity. Qed.

(** C8.  The classifier is meant to accept exactly the words of the
    grammar; it also accepts such a word followed by a newline, here [IV]
    and a newline, a token that holds a character that is no Roman
    letter and that is no word of the grammar. *)
Theorem is_roman_trailing_newline :
  is_roman (String "I" (String "V" (String LF ""))) = true /\
  Str.forallb roman_letter (String "I" (String "V" (String LF ""))) = false /\
  ~ roman_grammar (String "I" (String "V" (String LF ""))).
Proof.
  split_and!; [done..|]. intros H. by apply roman_grammar_letters in H.
Qed.

End roman.

(** ** The sentence filter and cleaner *)

Section cleaner.
Import Cleaning.
Variable pos_tag : tagger.

(** The loop over the tagged tokens keeps, in order, the tokens that
    [clean_word] does not skip. *)
Lemma clean_tagged_omap (tagged : list (string * string)) :
  clean_tagged tagged = omap (fun '(word, PoS) => clean_word word PoS) tagged.
Proof.
  unfold clean_tagged.
  enough (H : forall acc, foldl (fun clean '(word, PoS) =>
              match clean_word word PoS with
              | Some w => clean ++ [w]
              | None => clean
              end) acc tagged
            = acc ++ omap (fun '(word, PoS) => clean_word word PoS) tagged)
    by apply (H []).
  induction tagged as [|[word PoS] tagged IH]; intros acc; simpl.
  - by rewrite app_nil_r.
  - rewrite IH. destruct (clean_word word PoS); [|done].
    by rewrite <- app_assoc.
Qed.

Lemma clean_step_contribution M L cleaned sent :
  clean_step pos_tag M L cleaned sent = cleaned ++ contribution pos_tag M L sent.
Proof.
  unfold clean_step, contribution, chapter_heading.
  destruct (has_CHAPTER sent), (chapter_number sent); simpl;
    rewrite ?app_nil_r; try done.
  destruct (len_between M L _); by rewrite ?app_nil_r.
Qed.

Lemma clean_loop M L (filtered : list (list string)) : forall cleaned,
  foldl (clean_step pos_tag M L) cleaned filtered
  = cleaned ++ filtered ≫= contribution pos_tag M L.
Proof.
  induction filtered as [|sent filtered IH]; intros cleaned; simpl.
  - by rewrite app_nil_r.
  - by rewrite IH, clean_step_contribution, <- app_assoc.
Qed.

Lemma len_between_spec (lo hi : Z) {A} (l : list A) :
  len_between lo hi l = true <-> (lo ≤ Z.of_nat (length l) ≤ hi)%Z.
Proof. apply bool_decide_eq_true. Qed.

(** [clean_sents] as a pipeline: the length pre-filter, the chapter
    rule, the cleaning of the tagged tokens, the length post-filter. *)
Lemma clean_sents_pipeline (sentences : list (list string)) (M L : Z) :
  clean_sents pos_tag sentences M L
  = filter (fun c => (M ≤ Z.of_nat (length c) ≤ L)%Z)
      (map (fun s => clean_tagged (pos_tag s))
         (filter (fun s => chapter_heading s = false)
            (filter (fun s => (M ≤ Z.of_nat (length s) ≤ L + 1)%Z)
               sentences))).
Proof.
  unfold clean_sents. rewrite clean_loop, app_nil_l.
  rewrite (list_filter_iff _ (fun s => (M ≤ Z.of_nat (length s) ≤ L + 1)%Z)).
  2: { intros s. unfold len_between. by rewrite bool_decide_spec. }
  induction (filter _ sentences) as [|sent l IH]; [done|].
  rewrite bind_cons, IH, filter_cons. unfold contribution at 1.
  destruct (chapter_heading sent) eqn:Hh.
  - by rewrite decide_False.
  - rewrite decide_True by done. rewrite fmap_cons, filter_cons.
    destruct (len_between M L _) eqn:Hl.
    + apply len_between_spec in Hl. by rewrite decide_True.
    + rewrite decide_False; [done|]. intros H.
      apply len_between_spec in H. congruence.
Qed.

Lemma clean_sents_bounded (sentences : list (list string)) (M L : Z) :
  Forall (fun c => (M ≤ Z.of_nat (length c) ≤ L)%Z)
    (clean_sents pos_tag sentences M L).
Proof.
  rewrite clean_sents_pipeline. apply Forall_forall. intros c Hc.
  by apply list_elem_of_filter in Hc as [Hc _].
Qed.

(** C2. Every sentence of the output has between [M] and [L] tokens.  The
    output is made of whole cleaned sentences: those raw sentences with
    between [M] and [L + 1] tokens that the chapter rule lets through,
    cleaned, and kept only when the cleaned length is between [M] and
    [L]; no sentence is cut to fit. *)
Theorem clean_sents_length_bounds (sentences : list (list string)) (M L : Z) :
  Forall (fun c => (M ≤ Z.of_nat (length c) ≤ L)%Z)
    (clean_sents pos_tag sentences M L) /\
  clean_sents pos_tag sentences M L
  = filter (fun c => (M ≤ Z.of_nat (length c) ≤ L)%Z)
      (map (fun s => clean_tagged (pos_tag s))
         (filter (fun s => chapter_heading s = false)
            (filter (fun s => (M ≤ Z.of_nat (length s) ≤ L + 1)%Z)
               sentences))).
Proof. split; [apply clean_sents_bounded | apply clean_sents_pipeline]. Qed.

Lemma clean_sents_empty_range (sentences : list (list string)) (M L : Z) :
  (L < M)%Z -> clean_sents pos_tag sentences M L = [].
Proof.
  intros HLM. pose proof (clean_sents_bounded sentences M L) as H.
  destruct (clean_sents pos_tag sentences M L) as [|c l]; [done|].
  apply Forall_cons in H as [H _]. lia.
Qed.

(** C6, as the code has it.  Bounds with [L < M] are not checked: the
    call returns, and what it returns is the empty corpus. *)
Theorem clean_sents_inverted_bounds (sentences : list (list string)) (M L : Z) :
  (L < M)%Z -> call_clean_sents pos_tag sentences M L = Ok [].
Proof.
  intros HLM. unfold call_clean_sents. by rewrite clean_sents_empty_range.
Qed.

(** *** The chapter rule *)

Lemma map_fmap {A B} (f : A -> B) (l : list A) : map f l = f <$> l.
Proof. induction l as [|a l IH]; simpl; by f_equal. Qed.

Lemma has_CHAPTER_iff (sent : list string) :
  has_CHAPTER sent = true <-> "CHAPTER" ∈ sent.
Proof.
  unfold has_CHAPTER. rewrite existsb_exists. split.
  - intros (tok & Hin & Heq). apply bool_decide_eq_true in Heq as ->.
    by apply list_elem_of_In.
  - intros Hin. exists "CHAPTER". split; [by apply list_elem_of_In|].
    by apply bool_decide_eq_true.
Qed.

Lemma chapter_number_iff (sent : list string) :
  chapter_number sent = true <->
  exists i tok nxt,
    sent !! i = Some tok /\ Str.lower tok = "chapter" /\
    (forall j tok', j < i -> sent !! j = Some tok' ->
                    Str.lower tok' <> "chapter") /\
    sent !! (i + 1) = Some nxt /\
    (Str.isdigit nxt = true \/ is_roman nxt = true).
Proof.
  unfold chapter_number. rewrite map_fmap.
  destruct (list_find _ _) as [[i x]|] eqn:Hfind.
  - apply list_find_Some in Hfind as (Hi & -> & Hfirst).
    rewrite list_lookup_fmap in Hi.
    destruct (sent !! i) as [tok|] eqn:Htok; [|done].
    injection Hi as Hlow.
    assert (Hbefore : forall j tok', j < i -> sent !! j = Some tok' ->
                       Str.lower tok' <> "chapter").
    { intros j tok' Hj Hj'. apply (Hfirst j); [|done].
      by rewrite list_lookup_fmap, Hj'. }
    split.
    + destruct (sent !! (i + 1)) as [nxt|] eqn:Hnxt; [|done].
      intros H. apply orb_true_iff in H. by exists i, tok, nxt.
    + intros (i' & tok' & nxt & Hi' & Hlow' & Hfirst' & Hnxt & H).
      assert (i' = i) as ->.
      { destruct (Nat.lt_total i' i) as [Hlt|[Heq|Hgt]]; [|done|].
        - by destruct (Hbefore i' tok' Hlt Hi').
        - by destruct (Hfirst' i tok Hgt Htok). }
      rewrite Hnxt. by apply orb_true_iff.
  - split; [done|].
    intros (i & tok & nxt & Hi & Hlow & _).
    apply list_find_None in Hfind. rewrite Forall_forall in Hfind.
    destruct (Hfind (Str.lower tok)); [|done].
    apply list_elem_of_fmap. exists tok. split; [done|].
    by apply list_elem_of_lookup_2 in Hi.
Qed.

Lemma chapter_heading_iff (sent : list string) :
  chapter_heading sent = true <-> heading_as_coded sent.
Proof.
  unfold chapter_heading, heading_as_coded.
  by rewrite orb_true_iff, has_CHAPTER_iff, chapter_number_iff.
Qed.

(** C3, as the code has it.  A sentence is dropped by the chapter rule
    exactly when some token is [CHAPTER], or the first token equal to
    [chapter] up to case is followed by a token that is all digits or that
    the Roman-numeral classifier accepts, whatever its length; such a
    sentence adds nothing to the output. *)
Theorem chapter_rule (sent : list string) :
  (chapter_heading sent = true <-> heading_as_coded sent) /\
  (chapter_heading sent = true ->
   forall M L cleaned, clean_step pos_tag M L cleaned sent = cleaned).
Proof.
  split; [apply chapter_heading_iff|].
  intros H M L cleaned. rewrite clean_step_contribution.
  unfold contribution. by rewrite H, app_nil_r.
Qed.

(** *** Cleaning a cleaned corpus again *)



Hypothesis pos_tag_tokens : forall sent, (pos_tag sent).*1 = sent.



End cleaner.

(** *** Instances with the tagger that never answers [NNP] *)

Section cleaner_examples.
Import Cleaning.

Lemma tag_NN_tokens (sent : list string) : (tag_NN sent).*1 = sent.
Proof.
  unfold tag_NN. induction sent as [|w sent IH]; [done|].
  rewrite map_cons, fmap_cons. simpl. by rewrite IH.
Qed.

(** A sentence with [chapter I] in it is dropped although [I] is a single
    character; cleaned, it would have had four tokens. *)
Lemma chapter_rule_single_letter :
  chapter_heading ["this"; "chapter"; "I"; "wrote"] = true /\
  ~ heading_as_specified ["this"; "chapter"; "I"; "wrote"] /\
  clean_sents tag_NN [["this"; "chapter"; "I"; "wrote"]] 1 10 = [] /\
  clean_tagged (tag_NN ["this"; "chapter"; "I"; "wrote"])
  = ["this"; "chapter"; "i"; "wrote"].
Proof.
  split_and!; [done| |done..].
  intros [H|(i & tok & nxt & Hi & Hlow & Hnxt & H)].
  - repeat (apply elem_of_cons in H as [H|H]; [done|]).
    by apply elem_of_nil in H.
  - destruct i as [|[|[|[|i]]]]; simplify_eq/=.
    destruct H as [H|[_ H]]; [done|]. unfold Str.len in H. simpl in H. lia.
Qed.

(** With [M = 3] and [L = 1] the call returns the empty corpus. *)
Lemma clean_sents_accepts_inverted_bounds :
  (1 < 3)%Z /\
  call_clean_sents tag_NN [["the"; "cat"]] 3 1 = Ok [] /\
  forall e, call_clean_sents tag_NN [["the"; "cat"]] 3 1 <> Raise e.
Proof. split_and!; [lia | done | done]. Qed.

Lemma clean_sents_inverted_bounds_witness :
  call_clean_sents tag_NN [["the"; "cat"]] 3 1 = Ok [].
Proof. apply (clean_sents_inverted_bounds tag_NN). lia. Defined.


End cleaner_examples.

(** ** The vocabulary builder *)

Section vocabulary.

Lemma add_words (sent : list string) : forall (vocab : gset string) w,
  w ∈ foldl (fun vocab w => {[w]} ∪ vocab) vocab sent <->
  w ∈ sent \/ w ∈ vocab.
Proof.
  induction sent as [|x sent IH]; intros vocab w; simpl.
  - rewrite elem_of_nil. tauto.
  - rewrite IH, elem_of_cons, elem_of_union, elem_of_singleton. tauto.
Qed.

Lemma add_sentences (corpus : list (list string)) :
  forall (vocab : gset string) w,
  w ∈ foldl (fun vocab sent => foldl (fun vocab w => {[w]} ∪ vocab) vocab sent)
        vocab corpus <->
  w ∈ concat corpus \/ w ∈ vocab.
Proof.
  induction corpus as [|sent corpus IH]; intros vocab w; simpl.
  - rewrite elem_of_nil. tauto.
  - rewrite IH, add_words, elem_of_app. tauto.
Qed.

Lemma elem_of_concat {A} (ls : list (list A)) (x : A) :
  x ∈ concat ls <-> exists l, l ∈ ls /\ x ∈ l.
Proof.
  induction ls as [|l ls IH]; simpl.
  - split; [by intros ?%elem_of_nil|]. by intros (l & ?%elem_of_nil & _).
  - rewrite elem_of_app, IH. split.
    + intros [H|(l' & Hl' & H)].
      * exists l. split; [by left | done].
      * exists l'. split; [by right | done].
    + intros (l' & Hl' & H). apply elem_of_cons in Hl' as [->|Hl'].
      * by left.
      * right. by exists l'.
Qed.

(** The set that [get_vocabulary] sorts. *)
Lemma vocabulary_set (corpus : list (list string)) :
  foldl (fun vocab sent => foldl (fun vocab w => {[w]} ∪ vocab) vocab sent)
    (∅ : gset string) corpus
  = list_to_set (concat corpus).
Proof.
  apply set_eq. intros w.
  rewrite add_sentences, elem_of_list_to_set, elem_of_empty. tauto.
Qed.

Lemma get_vocabulary_eq (corpus : list (list string)) :
  get_vocabulary corpus
  = merge_sort String.le
      (elements ({["GAP"]} ∪ list_to_set (concat corpus) : gset string)).
Proof. unfold get_vocabulary. by rewrite vocabulary_set. Qed.

Lemma elem_of_get_vocabulary (corpus : list (list string)) (w : string) :
  w ∈ get_vocabulary corpus <->
  w = "GAP" \/ exists sent, sent ∈ corpus /\ w ∈ sent.
Proof.
  rewrite get_vocabulary_eq, merge_sort_Permutation, elem_of_elements.
  rewrite elem_of_union, elem_of_singleton, elem_of_list_to_set.
  by rewrite elem_of_concat.
Qed.

Lemma length_elements (X : gset string) : length (elements X) = size X.
Proof. reflexivity. Qed.

Lemma length_get_vocabulary (corpus : list (list string)) :
  length (get_vocabulary corpus)
  = distinct_tokens corpus
    + (if decide ("GAP" ∈ concat corpus) then 0 else 1).
Proof.
  rewrite get_vocabulary_eq, (Permutation_length (merge_sort_Permutation _ _)).
  rewrite length_elements.
  assert (Hsize : size (list_to_set (concat corpus) : gset string)
                  = distinct_tokens corpus).
  { unfold distinct_tokens.
    rewrite <- (size_list_to_set (C := gset string))
      by apply NoDup_remove_dups.
    f_equal. apply set_eq. intros w.
    by rewrite !elem_of_list_to_set, elem_of_remove_dups. }
  destruct (decide ("GAP" ∈ concat corpus)) as [Hin|Hnin].
  - rewrite (subseteq_union_1_L (C := gset string)), Hsize; [lia|].
    apply singleton_subseteq_l. by apply elem_of_list_to_set.
  - rewrite size_union, size_singleton, Hsize; [lia|].
    apply disjoint_singleton_l. by rewrite elem_of_list_to_set.
Qed.

(** C4, as the code has it.  The vocabulary holds [GAP] and the tokens of
    the corpus and nothing else, in the order of [str], each once; it has
    one entry more than the corpus has distinct tokens, unless [GAP] is
    itself a token of the corpus, in which case it has as many. *)
Theorem get_vocabulary_spec (corpus : list (list string)) :
  (forall w, w ∈ get_vocabulary corpus <->
             w = "GAP" \/ exists sent, sent ∈ corpus /\ w ∈ sent) /\
  Sorted String.le (get_vocabulary corpus) /\
  NoDup (get_vocabulary corpus) /\
  "GAP" ∈ get_vocabulary corpus /\
  length (get_vocabulary corpus)
  = distinct_tokens corpus
    + (if decide ("GAP" ∈ concat corpus) then 0 else 1).
Proof.
  split_and!.
  - apply elem_of_get_vocabulary.
  - apply (Sorted_merge_sort String.le).
  - rewrite get_vocabulary_eq, merge_sort_Permutation. apply NoDup_elements.
  - apply elem_of_get_vocabulary. by left.
  - apply length_get_vocabulary.
Qed.

(** A corpus whose only token is [GAP]: one distinct token, and a
    vocabulary of one entry. *)
Lemma get_vocabulary_GAP_token :
  get_vocabulary [["GAP"]] = ["GAP"] /\
  distinct_tokens [["GAP"]] = 1 /\
  length (get_vocabulary [["GAP"]]) <> distinct_tokens [["GAP"]] + 1.
Proof. by vm_compute. Qed.

Example get_vocabulary_scenario :
  get_vocabulary [["the"; "cat"; "sat"]; ["dog"]]
  = ["GAP"; "cat"; "dog"; "sat"; "the"].
Proof. by vm_compute. Qed.

End vocabulary.

(** ** Loops that can raise *)

Lemma bind_Ok {A B} (a : A) (f : A -> result B) : Ok a ≫= f = f a.
Proof. reflexivity. Qed.

Lemma bind_Raise {A B} (e : exn) (f : A -> result B) : Raise e ≫= f = Raise e.
Proof. reflexivity. Qed.

Section for_each.
Context {A S : Type} (body : S -> A -> result S).

Lemma for_each_cons (s : S) (a : A) (l : list A) :
  for_each body s (a :: l) = s' ← body s a; for_each body s' l.
Proof. reflexivity. Qed.

Lemma for_each_app (s : S) (l1 l2 : list A) :
  for_each body s (l1 ++ l2)
  = s' ← for_each body s l1; for_each body s' l2.
Proof.
  revert s. induction l1 as [|a l1 IH]; intros s; [done|].
  simpl. destruct (body s a) as [s'|e]; simpl; [apply IH | done].
Qed.

(** A loop that ends normally ran its body normally on every element. *)
Lemma for_each_Ok_inv (s s' : S) (l : list A) :
  for_each body s l = Ok s' ->
  forall a, a ∈ l -> exists s1 s2, body s1 a = Ok s2.
Proof.
  revert s. induction l as [|x l IH]; intros s H a Ha.
  - by apply elem_of_nil in Ha.
  - simpl in H. destruct (body s x) as [s1|e] eqn:Hx; [|done]. simpl in H.
    apply elem_of_cons in Ha as [->|Ha]; [by exists s, s1 | by eapply IH].
Qed.

End for_each.

(** ** The word index *)

Section word2idx.
Import OneHot.

Lemma word2idx_from (vocabulary : list string) :
  forall (off : nat) (m : gmap string nat) w k,
  foldl (fun m '(i, w) => <[w := i]> m) m
    (imap (fun i w => (off + i, w)) vocabulary) !! w = Some k ->
  (off ≤ k /\ vocabulary !! (k - off) = Some w) \/ m !! w = Some k.
Proof.
  induction vocabulary as [|x vocabulary IH]; intros off m w k; simpl.
  - by right.
  - rewrite (imap_ext _ (fun i w => (S off + i, w)))
      by (intros; simpl; f_equal; lia).
    intros [[Hk Hw]|Hm]%IH.
    + left. split; [lia|]. by replace (k - off) with (S (k - S off)) by lia.
    + rewrite Nat.add_0_r in Hm. destruct (decide (x = w)) as [->|Hne].
      * rewrite lookup_insert_eq in Hm. injection Hm as <-. left.
        by rewrite Nat.sub_diag.
      * rewrite lookup_insert_ne in Hm by done. by right.
Qed.

Lemma word2idx_is_Some_from (vocabulary : list string) :
  forall (off : nat) (m : gmap string nat) w,
  w ∈ vocabulary \/ is_Some (m !! w) ->
  is_Some (foldl (fun m '(i, w) => <[w := i]> m) m
             (imap (fun i w => (off + i, w)) vocabulary) !! w).
Proof.
  induction vocabulary as [|x vocabulary IH]; intros off m w; simpl.
  - intros [H|H]; [by apply elem_of_nil in H | done].
  - rewrite (imap_ext _ (fun i w => (S off + i, w)))
      by (intros; simpl; f_equal; lia).
    intros H. apply IH. destruct (decide (x = w)) as [->|Hne].
    + right. rewrite lookup_insert_eq. by eexists.
    + rewrite lookup_insert_ne by done.
      destruct H as [H|H]; [|by right].
      apply elem_of_cons in H as [->|H]; [done | by left].
Qed.

(** The index of a word is a position of that word in the vocabulary. *)
Lemma word2idx_lookup (vocabulary : list string) (w : string) (k : nat) :
  make_word2idx vocabulary !! w = Some k -> vocabulary !! k = Some w.
Proof.
  unfold make_word2idx, enumerate. intros H.
  apply (word2idx_from vocabulary 0) in H as [[_ H]|H].
  - by rewrite Nat.sub_0_r in H.
  - by rewrite lookup_empty in H.
Qed.

Lemma word2idx_is_Some (vocabulary : list string) (w : string) :
  is_Some (make_word2idx vocabulary !! w) <-> w ∈ vocabulary.
Proof.
  split.
  - intros [k Hk]. apply word2idx_lookup in Hk.
    by apply list_elem_of_lookup_2 in Hk.
  - intros H. apply (word2idx_is_Some_from vocabulary 0). by left.
Qed.

Lemma word2idx_lt (vocabulary : list string) (w : string) (k : nat) :
  make_word2idx vocabulary !! w = Some k -> k < length vocabulary.
Proof. intros H. apply word2idx_lookup in H. by apply lookup_lt_Some in H. Qed.

Lemma getitem_Some (w2i : gmap string nat) (w : string) (k : nat) :
  w2i !! w = Some k -> getitem w2i w = Ok k.
Proof. unfold getitem. by intros ->. Qed.

Lemma getitem_None (w2i : gmap string nat) (w : string) :
  w2i !! w = None -> getitem w2i w = Raise (KeyError w).
Proof. unfold getitem. by intros ->. Qed.

End word2idx.

(** ** The one-hot encoder *)

Section encoder.
Import OneHot Encoding.

Variables (n l v : nat) (w2i : gmap string nat).
Hypothesis w2i_lt : forall w k, w2i !! w = Some k -> k < v.

Local Abbreviation zero_cell := (replicate v 0%Z).
Local Abbreviation zero_row := (replicate l (replicate v 0%Z)).

(** A write in row [length above], cell [length filled]. *)
Lemma set3_cell (above below : list (list (list Z))) (filled todo : list (list Z))
    (cell : list Z) (k : nat) :
  length above < n -> length filled < l -> k < v ->
  set3 n l v (above ++ (filled ++ cell :: todo) :: below)
    (length above) (length filled) k 1
  = Ok (above ++ (filled ++ <[k := 1%Z]> cell :: todo) :: below).
Proof.
  intros Hi Hj Hk. unfold set3.
  rewrite !decide_False by lia. f_equal.
  rewrite <- (Nat.add_0_r (length above)), alter_app_r. simpl. f_equal.
  f_equal. by rewrite <- (Nat.add_0_r (length filled)), alter_app_r.
Qed.

(** The loop over the tokens of sentence [length above]. *)
Lemma encode_words (above below : list (list (list Z))) (ws : list string) :
  length above < n -> Forall (fun w => is_Some (w2i !! w)) ws ->
  forall filled r, length filled + length ws + r = l ->
  for_each (fun t '(j, word) =>
              k ← getitem w2i word; set3 n l v t (length above) j k 1)
    (above ++ (filled ++ replicate (length ws + r) zero_cell) :: below)
    (imap (fun j w => (length filled + j, w)) ws)
  = Ok (above ++ (filled ++ map (fun w => hot v (index_of w2i w)) ws
                  ++ replicate r zero_cell) :: below).
Proof.
  intros Hi. induction ws as [|w ws IH]; intros Hws filled r Hlen; [done|].
  apply Forall_cons in Hws as [[k Hk] Hws]. simpl in Hlen.
  rewrite imap_cons. simpl imap. simpl for_each.
  rewrite (getitem_Some _ _ _ Hk). simpl.
  rewrite Nat.add_0_r, set3_cell by (eauto with lia). simpl.
  rewrite (imap_ext _ (fun j w => (length (filled ++ [hot v k]) + j, w))).
  2: { intros j x _. simpl. rewrite length_app. simpl. f_equal. lia. }
  change (<[k:=1%Z]> zero_cell) with (hot v k).
  rewrite (cons_middle (hot v k)), app_assoc.
  rewrite (IH Hws (filled ++ [hot v k]) r).
  2: { rewrite length_app. simpl. lia. }
  unfold index_of at 2. rewrite Hk. simpl.
  by rewrite <- app_assoc.
Qed.

(** The loop that pads sentence [length above]. *)
Lemma encode_padding (above below : list (list (list Z))) (g : nat) :
  length above < n -> g < v ->
  forall r filled, length filled + r = l ->
  for_each (fun t j => set3 n l v t (length above) j g 1)
    (above ++ (filled ++ replicate r zero_cell) :: below)
    (seq (length filled) r)
  = Ok (above ++ (filled ++ replicate r (hot v g)) :: below).
Proof.
  intros Hi Hg. induction r as [|r IH]; intros filled Hlen; [done|].
  simpl. rewrite set3_cell by (eauto with lia). simpl.
  change (<[g:=1%Z]> zero_cell) with (hot v g).
  rewrite (cons_middle (hot v g)), app_assoc.
  replace (S (length filled)) with (length (filled ++ [hot v g]))
    by (rewrite length_app; simpl; lia).
  rewrite IH by (rewrite length_app; simpl; lia).
  by rewrite <- app_assoc.
Qed.

(** One iteration of the loop over the sentences. *)
Lemma encode_sentence_Ok (above below : list (list (list Z)))
    (sent : list string) :
  length above < n -> encodable w2i l sent ->
  encode_sentence n l v w2i (above ++ zero_row :: below) (length above, sent)
  = Ok (above ++ encoded_row w2i l v sent :: below).
Proof.
  intros Hi (Hws & Hlen & [g Hg]). unfold encode_sentence, enumerate.
  pose proof (encode_words above below sent Hi Hws [] (l - length sent))
    as Hwords.
  cbn [length app Nat.add] in Hwords.
  replace (length sent + (l - length sent)) with l in Hwords by lia.
  change (imap pair sent) with (imap (fun (j : nat) (w : string) => (j, w)) sent).
  rewrite Hwords by done. simpl.
  rewrite (getitem_Some _ _ _ Hg). simpl.
  pose proof (encode_padding above below g Hi (w2i_lt _ _ Hg)
                (l - length sent)
                (map (fun w => hot v (index_of w2i w)) sent)) as Hpad.
  rewrite length_map in Hpad. rewrite Hpad by lia.
  unfold encoded_row, index_of. by rewrite Hg.
Qed.

(** The loop over the sentences, from sentence [length above] on. *)
Lemma encode_sentences (ss : list (list string)) :
  Forall (encodable w2i l) ss ->
  forall above r, length above + length ss + r = n ->
  for_each (encode_sentence n l v w2i)
    (above ++ replicate (length ss + r) zero_row)
    (imap (fun i s => (length above + i, s)) ss)
  = Ok (above ++ map (encoded_row w2i l v) ss ++ replicate r zero_row).
Proof.
  induction ss as [|s ss IH]; intros Hss above r Hlen; [done|].
  apply Forall_cons in Hss as [Hs Hss]. simpl in Hlen.
  rewrite imap_cons, for_each_cons. cbn [length Nat.add].
  rewrite replicate_S, Nat.add_0_r, encode_sentence_Ok by (done || lia).
  rewrite bind_Ok.
  rewrite (imap_ext _ (fun i s' =>
             (length (above ++ [encoded_row w2i l v s]) + i, s'))).
  2: { intros i x _. simpl. rewrite length_app. simpl. f_equal. lia. }
  rewrite (cons_middle (encoded_row w2i l v s)), app_assoc.
  rewrite (IH Hss _ r) by (rewrite length_app; simpl; lia).
  by rewrite <- app_assoc.
Qed.

(** The first token without an index stops the loop over the tokens. *)
Lemma encode_words_KeyError (above below : list (list (list Z)))
    (p q : list string) (tok : string) :
  length above < n -> Forall (fun w => is_Some (w2i !! w)) p ->
  w2i !! tok = None -> length p ≤ l ->
  for_each (fun t '(j, word) =>
              k ← getitem w2i word; set3 n l v t (length above) j k 1)
    (above ++ zero_row :: below) (enumerate (p ++ tok :: q))
  = Raise (KeyError tok).
Proof.
  intros Hi Hp Htok Hlen. unfold enumerate.
  rewrite imap_app, for_each_app.
  pose proof (encode_words above below p Hi Hp [] (l - length p)) as Hwords.
  cbn [length app Nat.add] in Hwords.
  replace (length p + (l - length p)) with l in Hwords by lia.
  change (imap pair p) with (imap (fun (j : nat) (w : string) => (j, w)) p).
  rewrite Hwords by lia. rewrite bind_Ok, imap_cons, for_each_cons.
  by rewrite (getitem_None _ _ Htok).
Qed.

(** The token at position [l] of a sentence stops the loop over the
    tokens. *)
Lemma encode_words_IndexError (above below : list (list (list Z)))
    (sent : list string) :
  length above < n ->
  Forall (fun w => is_Some (w2i !! w)) (take (S l) sent) ->
  l < length sent ->
  for_each (fun t '(j, word) =>
              k ← getitem w2i word; set3 n l v t (length above) j k 1)
    (above ++ zero_row :: below) (enumerate sent)
  = Raise (IndexError 1 l l).
Proof.
  intros Hi Hsent Hlen.
  destruct (lookup_lt_is_Some_2 sent l Hlen) as [w Hw].
  rewrite (take_S_r _ _ _ Hw) in Hsent.
  apply Forall_app in Hsent as [Hp Hq].
  apply Forall_cons in Hq as [[k Hk] _].
  rewrite <- (take_drop_middle sent l w Hw).
  assert (Hp_len : length (take l sent) = l) by (rewrite length_take; lia).
  unfold enumerate. rewrite imap_app, for_each_app.
  pose proof (encode_words above below (take l sent) Hi Hp [] 0) as Hwords.
  cbn [length app Nat.add] in Hwords.
  rewrite Hp_len, Nat.add_0_r in Hwords.
  change (imap pair (take l sent))
    with (imap (fun (j : nat) (w : string) => (j, w)) (take l sent)).
  rewrite Hwords by done. rewrite bind_Ok, imap_cons, for_each_cons.
  rewrite (getitem_Some _ _ _ Hk), bind_Ok, Hp_len, Nat.add_0_r.
  unfold set3. rewrite decide_False by lia. by rewrite decide_True.
Qed.

(** A sentence that stops the loop over the sentences. *)
Lemma encode_sentences_Raise (before after : list (list string))
    (bad : list string) (e : exn) :
  length before + S (length after) = n ->
  Forall (encodable w2i l) before ->
  (forall above below, length above = length before ->
     encode_sentence n l v w2i (above ++ zero_row :: below) (length above, bad)
     = Raise e) ->
  for_each (encode_sentence n l v w2i) (zeros n l v)
    (enumerate (before ++ bad :: after))
  = Raise e.
Proof.
  intros Hn Hbefore Hbad. unfold enumerate, zeros.
  rewrite imap_app, for_each_app.
  pose proof (encode_sentences before Hbefore [] (S (length after))) as H.
  cbn [length app Nat.add] in H. rewrite Hn in H.
  change (imap pair before)
    with (imap (fun (i : nat) (s : list string) => (i, s)) before).
  rewrite H by done. rewrite bind_Ok, imap_cons, for_each_cons, replicate_S.
  rewrite Nat.add_0_r, <- (length_map (encoded_row w2i l v) before).
  rewrite Hbad by apply length_map. done.
Qed.

End encoder.

Section init.
Import OneHot Encoding.

Lemma hot_lookup (v kstar k : nat) :
  kstar < v -> k < v ->
  hot v kstar !! k = Some (if decide (k = kstar) then 1%Z else 0%Z).
Proof.
  intros Hkstar Hk. unfold hot. destruct (decide (k = kstar)) as [->|Hne].
  - apply list_lookup_insert_eq. by rewrite length_replicate.
  - rewrite list_lookup_insert_ne by done. by apply lookup_replicate_2.
Qed.

Lemma encoded_row_lookup (w2i : gmap string nat) (l v j : nat)
    (sent : list string) :
  length sent ≤ l -> j < l ->
  encoded_row w2i l v sent !! j
  = Some (hot v (index_of w2i (default "GAP" (sent !! j)))).
Proof.
  intros Hlen Hj. unfold encoded_row.
  destruct (sent !! j) as [w|] eqn:Hw; simpl.
  - rewrite lookup_app_l by (rewrite length_map; by eapply lookup_lt_Some).
    by rewrite map_fmap, list_lookup_fmap, Hw.
  - apply lookup_ge_None in Hw.
    rewrite lookup_app_r by (by rewrite length_map).
    apply lookup_replicate_2. rewrite length_map. lia.
Qed.

(** The constructor on a corpus it can encode. *)
Lemma init_Ok (sentences : list (list string)) (vocabulary : list string)
    (max_sentence_length : Z) :
  (0 ≤ max_sentence_length)%Z ->
  Forall (encodable (make_word2idx vocabulary) (Z.to_nat max_sentence_length))
    sentences ->
  init sentences vocabulary max_sentence_length
  = Ok {| OneHot.sentences := sentences; OneHot.vocabulary := vocabulary;
          L := Z.to_nat max_sentence_length;
          word2idx := make_word2idx vocabulary;
          N := length sentences; V := length vocabulary;
          one_hot := map (encoded_row (make_word2idx vocabulary)
                            (Z.to_nat max_sentence_length) (length vocabulary))
                       sentences;
          onehot_flat :=
            reshape (map (encoded_row (make_word2idx vocabulary)
                            (Z.to_nat max_sentence_length) (length vocabulary))
                       sentences) |}.
Proof.
  intros HL Hss. unfold init. rewrite decide_False by lia.
  pose proof (encode_sentences (length sentences)
                (Z.to_nat max_sentence_length) (length vocabulary)
                (make_word2idx vocabulary) (word2idx_lt vocabulary)
                sentences Hss [] 0) as H.
  cbn [length app Nat.add] in H. rewrite Nat.add_0_r in H.
  unfold zeros, enumerate.
  change (imap pair sentences)
    with (imap (fun (i : nat) (s : list string) => (i, s)) sentences).
  rewrite H by done. rewrite bind_Ok. simpl replicate. by rewrite app_nil_r.
Qed.

Lemma elem_of_enumerate {A} (l : list A) (i : nat) (a : A) :
  (i, a) ∈ enumerate l <-> l !! i = Some a.
Proof.
  unfold enumerate. rewrite elem_of_lookup_imap. split.
  - by intros (i' & a' & [= -> ->] & H).
  - intros H. by exists i, a.
Qed.

(** An iteration that ends normally was given an encodable sentence. *)
Lemma encode_sentence_Ok_inv (n l v : nat) (w2i : gmap string nat)
    (t t' : tensor) (i : nat) (sent : list string) :
  encode_sentence n l v w2i t (i, sent) = Ok t' -> encodable w2i l sent.
Proof.
  unfold encode_sentence. intros H.
  destruct (for_each _ t (enumerate sent)) as [t1|e] eqn:Hwords; [|done].
  rewrite bind_Ok in H.
  assert (Hbody : forall j w, sent !! j = Some w ->
            is_Some (w2i !! w) /\ j < l).
  { intros j w Hjw. apply elem_of_enumerate in Hjw.
    destruct (for_each_Ok_inv _ _ _ _ Hwords _ Hjw) as (s1 & s2 & Hb).
    simpl in Hb. unfold getitem in Hb.
    destruct (w2i !! w) as [k|]; [|done]. split; [by eexists|].
    rewrite bind_Ok in Hb. unfold set3 in Hb.
    destruct (decide (n ≤ i)); [done|]. by destruct (decide (l ≤ j)); [|lia]. }
  split_and!.
  - apply Forall_lookup. intros j w Hjw. by apply (Hbody j w).
  - destruct (decide (length sent ≤ l)) as [|Hgt]; [done|].
    destruct (lookup_lt_is_Some_2 sent l) as [w Hw]; [lia|].
    destruct (Hbody l w Hw). lia.
  - unfold getitem in H. by destruct (w2i !! "GAP"); [eexists|].
Qed.

(** A construction that ends normally was given a length that is not
    negative and a corpus it can encode. *)
Lemma init_Ok_inv (sentences : list (list string)) (vocabulary : list string)
    (max_sentence_length : Z) (o : OneHot.t) :
  init sentences vocabulary max_sentence_length = Ok o ->
  (0 ≤ max_sentence_length)%Z /\
  Forall (encodable (make_word2idx vocabulary) (Z.to_nat max_sentence_length))
    sentences.
Proof.
  unfold init. destruct (decide (max_sentence_length < 0)%Z); [done|].
  destruct (for_each _ _ _) as [t|e] eqn:Hloop; [|done]. intros _.
  split; [lia|]. apply Forall_lookup. intros i sent Hi.
  apply elem_of_enumerate in Hi.
  destruct (for_each_Ok_inv _ _ _ _ Hloop _ Hi) as (t1 & t2 & Hb).
  by eapply encode_sentence_Ok_inv.
Qed.

Lemma encodable_iff (vocabulary : list string) (l : nat) (sent : list string) :
  encodable (make_word2idx vocabulary) l sent <->
  Forall (fun w => w ∈ vocabulary) sent /\ length sent ≤ l /\
  "GAP" ∈ vocabulary.
Proof.
  unfold encodable. rewrite word2idx_is_Some.
  by setoid_rewrite word2idx_is_Some.
Qed.

End init.

Section encoder_properties.
Import OneHot Encoding.


(** *** The exception that stops a construction *)

Lemma fits_encodable (vocabulary : list string) (l : nat) (sent : list string) :
  fits vocabulary l sent <-> encodable (make_word2idx vocabulary) l sent.
Proof. symmetry. apply encodable_iff. Qed.

(** A list with an item that fails a test has a first such item. *)
Lemma first_failing {A} (P : A -> Prop) `{!forall a, Decision (P a)}
    (l : list A) :
  ~ Forall P l ->
  exists p x q, l = p ++ x :: q /\ Forall P p /\ ~ P x.
Proof.
  induction l as [|a l IH]; intros Hl; [by destruct Hl|].
  destruct (decide (P a)) as [Ha|Ha].
  - destruct IH as (p & x & q & -> & Hp & Hx).
    { intros Hall. apply Hl. by constructor. }
    exists (a :: p), x, q. split_and!; [done | by constructor | done].
  - by exists [], a, l.
Qed.

(** A sentence that the constructor cannot encode stops it. *)
Lemma stops_total (vocabulary : list string) (l : nat) (sent : list string) :
  ~ fits vocabulary l sent -> exists e, stops vocabulary l sent e.
Proof.
  intros Hfits. unfold stops.
  destruct (decide (Forall (fun w => w ∈ vocabulary) (take (S l) sent)))
    as [Hall|Hsome].
  - destruct (decide (l < length sent)) as [Hlong|Hshort].
    + eexists. right. left. by split_and!.
    + rewrite take_ge in Hall by lia.
      exists (KeyError "GAP"). right. right. split_and!; [done | lia | | done].
      intros Hgap. apply Hfits. split_and!; [done | lia | done].
  - apply first_failing in Hsome as (p & tok & q & Heq & Hp & Htok);
      [|apply _].
    exists (KeyError tok). left. exists p, (q ++ drop (S l) sent), tok.
    split_and!; [|done..| |done].
    + rewrite <- (take_drop (S l) sent) at 1. rewrite Heq.
      by rewrite <- app_assoc.
    + assert (Hlen : length (take (S l) sent) ≤ S l)
        by (rewrite length_take; lia).
      rewrite Heq, length_app in Hlen. simpl in Hlen. lia.
Qed.

(** The exception it stops on is raised by the iteration. *)
Lemma encode_sentence_stops (n l : nat) (vocabulary : list string)
    (sent : list string) (e : exn) (above below : tensor) :
  stops vocabulary l sent e -> length above < n ->
  encode_sentence n l (length vocabulary) (make_word2idx vocabulary)
    (above ++ replicate l (replicate (length vocabulary) 0%Z) :: below)
    (length above, sent)
  = Raise e.
Proof.
  intros [(p & q & tok & -> & Hp & Htok & Hlen & ->)
         |[(Hlong & Hall & ->)|(Hall & Hlen & Hgap & ->)]] Hi;
    unfold encode_sentence.
  - rewrite (encode_words_KeyError _ _ _ _ (word2idx_lt vocabulary));
      [done | done | | | done].
    + eapply Forall_impl; [exact Hp|]. intros w Hw. by apply word2idx_is_Some.
    + apply eq_None_not_Some. by rewrite word2idx_is_Some.
  - rewrite (encode_words_IndexError _ _ _ _ (word2idx_lt vocabulary));
      [done | done | | done].
    eapply Forall_impl; [exact Hall|]. intros w Hw. by apply word2idx_is_Some.
  - pose proof (encode_words n l (length vocabulary)
                  (make_word2idx vocabulary) (word2idx_lt vocabulary)
                  above below sent Hi) as Hwords.
    specialize (Hwords ltac:(eapply Forall_impl; [exact Hall|];
                               intros w Hw; by apply word2idx_is_Some)
                       [] (l - length sent)).
    cbn [length app Nat.add] in Hwords.
    replace (length sent + (l - length sent)) with l in Hwords by lia.
    unfold enumerate.
    change (imap pair sent)
      with (imap (fun (j : nat) (w : string) => (j, w)) sent).
    rewrite Hwords by done. rewrite bind_Ok.
    rewrite getitem_None; [done|].
    apply eq_None_not_Some. by rewrite word2idx_is_Some.
Qed.

(** What a construction raises: the error of a negative length, or the
    exception that the first sentence it cannot encode stops it on. *)
Lemma init_Raise (sentences : list (list string)) (vocabulary : list string)
    (L : Z) (e : exn) :
  init sentences vocabulary L = Raise e <->
  ((L < 0)%Z /\ e = ValueError) \/
  ((0 ≤ L)%Z /\
   exists before sent after,
     sentences = before ++ sent :: after /\
     Forall (fits vocabulary (Z.to_nat L)) before /\
     stops vocabulary (Z.to_nat L) sent e).
Proof.
  assert (Hstop : forall before sent after e',
            (0 ≤ L)%Z -> Forall (fits vocabulary (Z.to_nat L)) before ->
            stops vocabulary (Z.to_nat L) sent e' ->
            init (before ++ sent :: after) vocabulary L = Raise e').
  { intros before sent after e' HL Hbefore Hsent. unfold init.
    rewrite decide_False by lia.
    rewrite (encode_sentences_Raise _ _ _ _ (word2idx_lt vocabulary)
               before after sent e'); [done| | |].
    - rewrite length_app. simpl. lia.
    - eapply Forall_impl; [exact Hbefore|]. intros s. apply fits_encodable.
    - intros above below Habove. apply encode_sentence_stops; [done|].
      rewrite Habove, length_app. simpl. lia. }
  split.
  - intros Hinit. destruct (decide (L < 0)%Z) as [HL|HL].
    + left. split; [done|]. unfold init in Hinit.
      rewrite decide_True in Hinit by done. by injection Hinit.
    + right. split; [lia|].
      destruct (decide (Forall (fits vocabulary (Z.to_nat L)) sentences))
        as [Hall|Hsome].
      { rewrite init_Ok in Hinit; [done | lia |].
        eapply Forall_impl; [exact Hall|]. intros s. apply fits_encodable. }
      apply first_failing in Hsome as (before & sent & after & -> & Hb & Hs);
        [|apply _].
      destruct (stops_total _ _ _ Hs) as [e' He'].
      rewrite (Hstop before sent after e') in Hinit by (done || lia).
      injection Hinit as <-. by exists before, sent, after.
  - intros [[HL ->]|(HL & before & sent & after & -> & Hb & Hs)].
    + unfold init. by rewrite decide_True.
    + by apply Hstop.
Qed.

(** C5, as the code has it.  A corpus with a token that is not in the
    vocabulary is not encoded: the construction raises.  What it raises
    is the [KeyError] of a token [tok] exactly when [L] is not negative
    and the first sentence that cannot be encoded (a token of it or
    [GAP] is not in the vocabulary, or it has more than [L] tokens)
    either has [tok] as its first token outside the vocabulary, at a
    position up to [L], or has its tokens in the vocabulary and at most
    [L] of them while [tok] is [GAP] and is not in the vocabulary. *)
Theorem missing_token_fails (sentences : list (list string))
    (vocabulary : list string) (L : Z) :
  ((exists s w, s ∈ sentences /\ w ∈ s /\ w ∉ vocabulary) ->
   exists e, init sentences vocabulary L = Raise e) /\
  forall tok,
    init sentences vocabulary L = Raise (KeyError tok) <->
    (0 ≤ L)%Z /\
    exists before sent after,
      sentences = before ++ sent :: after /\
      Forall (fun s => Forall (fun w => w ∈ vocabulary) s /\
                       (Z.of_nat (length s) ≤ L)%Z /\
                       "GAP" ∈ vocabulary) before /\
      ((exists p q,
          sent = p ++ tok :: q /\ Forall (fun w => w ∈ vocabulary) p /\
          (tok ∉ vocabulary) /\ (Z.of_nat (length p) ≤ L)%Z) \/
       (tok = "GAP" /\ ("GAP" ∉ vocabulary) /\
        Forall (fun w => w ∈ vocabulary) sent /\
        (Z.of_nat (length sent) ≤ L)%Z)).
Proof.
  split.
  - intros (s & w & Hs & Hw & Hnin).
    destruct (init sentences vocabulary L) as [o|e] eqn:Hinit; [|by exists e].
    apply init_Ok_inv in Hinit as [_ Henc].
    rewrite Forall_forall in Henc. specialize (Henc s Hs).
    apply encodable_iff in Henc as [Henc _].
    rewrite Forall_forall in Henc. by destruct Hnin; apply Henc.
  - intros tok. rewrite init_Raise. split.
    + intros [[_ [=]]|(HL & before & sent & after & -> & Hb & Hs)].
      split; [done|]. exists before, sent, after. split_and!; [done | |].
      * eapply Forall_impl; [exact Hb|]. intros s (? & ? & ?).
        split_and!; [done | lia | done].
      * destruct Hs as [(p & q & tok' & -> & Hp & Htok & Hlen & [= ->])
                       |[(_ & _ & [=])|(Hall & Hlen & Hgap & [= ->])]].
        -- left. exists p, q. split_and!; [done..|lia].
        -- right. split_and!; [done..|lia].
    + intros (HL & before & sent & after & -> & Hb & Hs). right.
      split; [done|]. exists before, sent, after. split_and!; [done | |].
      * eapply Forall_impl; [exact Hb|]. intros s (? & ? & ?).
        split_and!; [done | lia | done].
      * destruct Hs as [(p & q & -> & Hp & Htok & Hlen)
                       |(-> & Hgap & Hall & Hlen)].
        -- left. exists p, q, tok. split_and!; [done..|lia|done].
        -- right. right. split_and!; [done | lia | done | done].
Qed.

(** C10, as the code has it.  A corpus with a sentence of more than [L]
    tokens is not encoded: the construction raises.  What it raises is
    an [IndexError] exactly when [L] is not negative and the first
    sentence that cannot be encoded has more than [L] tokens, the first
    [L + 1] of them in the vocabulary; it is then the error of the write
    at position [L] of this sentence, along the axis of the positions. *)
Theorem long_sentence_fails (sentences : list (list string))
    (vocabulary : list string) (L : Z) :
  ((exists s, s ∈ sentences /\ (L < Z.of_nat (length s))%Z) ->
   exists e, init sentences vocabulary L = Raise e) /\
  forall axis index size,
    init sentences vocabulary L = Raise (IndexError axis index size) <->
    (0 ≤ L)%Z /\ axis = 1 /\ index = Z.to_nat L /\ size = Z.to_nat L /\
    exists before sent after,
      sentences = before ++ sent :: after /\
      Forall (fun s => Forall (fun w => w ∈ vocabulary) s /\
                       (Z.of_nat (length s) ≤ L)%Z /\
                       "GAP" ∈ vocabulary) before /\
      (L < Z.of_nat (length sent))%Z /\
      Forall (fun w => w ∈ vocabulary) (take (S (Z.to_nat L)) sent).
Proof.
  split.
  - intros (s & Hs & Hlong).
    destruct (init sentences vocabulary L) as [o|e] eqn:Hinit; [|by exists e].
    apply init_Ok_inv in Hinit as [HL Henc].
    rewrite Forall_forall in Henc. specialize (Henc s Hs).
    apply encodable_iff in Henc as (_ & Hlen & _). lia.
  - intros axis index size. rewrite init_Raise. split.
    + intros [[_ [=]]|(HL & before & sent & after & -> & Hb & Hs)].
      destruct Hs as [(p & q & tok' & _ & _ & _ & _ & [=])
                     |[(Hlong & Hall & [= -> -> ->])|(_ & _ & _ & [=])]].
      split_and!; [done..|]. exists before, sent, after.
      split_and!; [done | | lia | done].
      eapply Forall_impl; [exact Hb|]. intros s (? & ? & ?).
      split_and!; [done | lia | done].
    + intros (HL & -> & -> & -> & before & sent & after & -> & Hb & Hlong
              & Hall).
      right. split; [done|]. exists before, sent, after.
      split_and!; [done | |].
      * eapply Forall_impl; [exact Hb|]. intros s (? & ? & ?).
        split_and!; [done | lia | done].
      * right. left. split_and!; [lia | done | done].
Qed.

(** Every corpus with a token outside the vocabulary has a first one. *)
Lemma first_missing_token (sentences : list (list string))
    (vocabulary : list string) :
  (exists s w, s ∈ sentences /\ w ∈ s /\ w ∉ vocabulary) ->
  exists before after p q tok,
    sentences = before ++ (p ++ tok :: q) :: after /\
    Forall (Forall (fun w => w ∈ vocabulary)) before /\
    Forall (fun w => w ∈ vocabulary) p /\ tok ∉ vocabulary.
Proof.
  intros (s & w & Hs & Hw & Hnin).
  assert (Hex : Exists (Exists (fun w => w ∉ vocabulary)) sentences).
  { apply Exists_exists. exists s. split; [done|].
    apply Exists_exists. by exists w. }
  clear s w Hs Hw Hnin.
  induction sentences as [|s sentences IH]; [by apply Exists_nil in Hex|].
  destruct (decide (Forall (fun w => w ∈ vocabulary) s)) as [Hall|Hsome].
  - apply Exists_cons in Hex as [Hex|Hex].
    { apply Exists_not_Forall in Hex. by destruct Hex. }
    destruct (IH Hex) as (before & after & p & q & tok & -> & ? & ? & ?).
    exists (s :: before), after, p, q, tok. split_and!; try done.
    by apply Forall_cons.
  - apply not_Forall_Exists in Hsome; [|apply _]. clear IH Hex.
    exists [], sentences. simpl.
    induction s as [|w s IH]; [by apply Exists_nil in Hsome|].
    destruct (decide (w ∈ vocabulary)) as [Hw|Hw].
    + apply Exists_cons in Hsome as [Hsome|Hsome]; [done|].
      destruct (IH Hsome) as (p & q & tok & [= ->] & _ & Hp & Htok).
      exists (w :: p), q, tok. split_and!; try done. by apply Forall_cons.
    + exists [], s, w. by split_and!.
Qed.

End encoder_properties.

(** *** Instances *)

Section encoder_examples.
Import OneHot Encoding.

Example init_scenario :
  one_hot <$> (match init [["the"; "cat"; "sat"]; ["dog"]]
                       ["GAP"; "cat"; "dog"; "sat"; "the"] 3 with
               | Ok o => Some o
               | Raise _ => None
               end)
  = Some [[[0; 0; 0; 0; 1]; [0; 1; 0; 0; 0]; [0; 0; 0; 1; 0]];
          [[0; 0; 1; 0; 0]; [1; 0; 0; 0; 0]; [1; 0; 0; 0; 0]]]%Z.
Proof. by vm_compute. Qed.



(** The sentence before the one with the unknown token is too long: the
    construction stops there, on an [IndexError]. *)
Lemma missing_token_after_long_sentence :
  ("zzz" ∉ ["GAP"; "a"; "b"]) /\
  init [["a"; "b"]; ["zzz"]] ["GAP"; "a"; "b"] 1 = Raise (IndexError 1 1 1) /\
  forall w, init [["a"; "b"]; ["zzz"]] ["GAP"; "a"; "b"] 1
            <> Raise (KeyError w).
Proof. split_and!; [compute_done | by vm_compute | by vm_compute]. Qed.

Lemma missing_token_fails_witness :
  (exists e, init [["a"]; ["b"; "zzz"; "a"]] ["GAP"; "a"; "b"] 2 = Raise e) /\
  init [["a"]; ["b"; "zzz"; "a"]] ["GAP"; "a"; "b"] 2 = Raise (KeyError "zzz").
Proof.
  destruct (missing_token_fails [["a"]; ["b"; "zzz"; "a"]]
              ["GAP"; "a"; "b"] 2) as [Hfails Hkey].
  split.
  - apply Hfails. exists ["b"; "zzz"; "a"], "zzz".
    split_and!; compute_done.
  - apply Hkey. split; [lia|]. exists [["a"]], ["b"; "zzz"; "a"], [].
    split_and!; [reflexivity | compute_done |].
    left. exists ["b"], ["a"].
    split_and!; [reflexivity | compute_done | compute_done | simpl; lia].
Defined.

(** The over-long sentence starts with an unknown token: the construction
    stops there, on a [KeyError]. *)
Lemma long_sentence_after_missing_token :
  (1 < Z.of_nat (length ["zzz"; "a"]))%Z /\
  init [["zzz"; "a"]] ["GAP"; "a"] 1 = Raise (KeyError "zzz") /\
  forall axis index size,
    init [["zzz"; "a"]] ["GAP"; "a"] 1 <> Raise (IndexError axis index size).
Proof. split_and!; [simpl; lia | by vm_compute | by vm_compute]. Qed.

Lemma long_sentence_fails_witness :
  (exists e, init [["a"]; ["b"; "a"; "b"]] ["GAP"; "a"; "b"] 2 = Raise e) /\
  init [["a"]; ["b"; "a"; "b"]] ["GAP"; "a"; "b"] 2
  = Raise (IndexError 1 2 2).
Proof.
  destruct (long_sentence_fails [["a"]; ["b"; "a"; "b"]]
              ["GAP"; "a"; "b"] 2) as [Hfails Hindex].
  split.
  - apply Hfails. exists ["b"; "a"; "b"]. split; [compute_done | simpl; lia].
  - apply Hindex. split_and!; [lia | reflexivity..|].
    exists [["a"]], ["b"; "a"; "b"], [].
    split_and!; [reflexivity | compute_done | simpl; lia | compute_done].
Defined.

End encoder_examples.

(** ** The entropy of a probability vector *)

Section entropy.
Import Analyzer.
Local Open Scope R_scope.

Lemma ln_2_pos : 0 < ln 2.
Proof. pose proof ln_lt_2. lra. Qed.

Lemma eps_pos : 0 < eps.
Proof. unfold eps. lra. Qed.

Lemma ln_le_sub_1 (y : R) : 0 < y -> ln y <= y - 1.
Proof.
  intros Hy. pose proof (exp_ineq1_le (ln y)) as H.
  rewrite exp_ln in H by done. lra.
Qed.

Lemma ln_monotone (x y : R) : 0 < x -> x <= y -> ln x <= ln y.
Proof.
  intros Hx [Hlt| ->]; [|lra]. left. by apply ln_increasing.
Qed.

Lemma Rsum_app (l1 l2 : list R) : Rsum (l1 ++ l2) = Rsum l1 + Rsum l2.
Proof. induction l1 as [|x l1 IH]; simpl; [lra | rewrite IH; lra]. Qed.

Lemma Rsum_le (f g : R -> R) (l : list R) :
  Forall (fun x => f x <= g x) l -> Rsum (map f l) <= Rsum (map g l).
Proof.
  induction 1 as [|x l Hx _ IH]; simpl; [lra | lra].
Qed.

Lemma Rsum_affine (a b : R) (l : list R) :
  Rsum (map (fun x => x * a + b - x) l)
  = a * Rsum l + b * INR (length l) - Rsum l.
Proof.
  induction l as [|x l IH]; [simpl; lra|].
  rewrite map_cons. cbn [Rsum foldr length]. fold (Rsum (map (fun x => x * a + b - x) l)).
  fold (Rsum l). rewrite IH, S_INR. lra.
Qed.

Lemma Rsum_scale (a : R) (l : list R) :
  Rsum (map (fun x => x * a) l) = a * Rsum l.
Proof.
  induction l as [|x l IH]; [simpl; lra|].
  rewrite map_cons. cbn [Rsum foldr]. fold (Rsum (map (fun x => x * a) l)).
  fold (Rsum l). rewrite IH. lra.
Qed.

Lemma Rsum_nonneg (l : list R) : Forall (fun x => 0 <= x) l -> 0 <= Rsum l.
Proof. induction 1 as [|x l Hx _ IH]; simpl; lra. Qed.

Lemma Rsum_bounds_terms (l : list R) :
  Forall (fun x => 0 <= x) l -> Forall (fun x => x <= Rsum l) l.
Proof.
  induction 1 as [|x l Hx Hl IH]; [done|].
  pose proof (Rsum_nonneg l Hl). simpl. apply Forall_cons. split; [lra|].
  eapply Forall_impl; [exact IH|]. simpl. intros y Hy. lra.
Qed.

(** One term of the entropy, from below. *)
Lemma term_lower (x : R) :
  0 <= x <= 1 -> x * log2 (x + eps) <= x * log2 (1 + eps).
Proof.
  intros [Hx0 Hx1]. pose proof eps_pos. pose proof ln_2_pos.
  apply Rmult_le_compat_l; [done|]. unfold log2.
  apply Rmult_le_compat_r; [left; by apply Rinv_0_lt_compat|].
  apply ln_monotone; lra.
Qed.

(** One term of the entropy, from above ([v] is the size of the
    vocabulary). *)
Lemma term_upper (v x : R) :
  0 < v -> 0 <= x -> - (x * ln (x + eps)) <= x * ln v + / v - x.
Proof.
  intros Hv [Hx|<-]; pose proof eps_pos as Heps.
  - assert (Hvx : 0 < / (v * x))
      by (apply Rinv_0_lt_compat; by apply Rmult_lt_0_compat).
    pose proof (ln_le_sub_1 _ Hvx) as H.
    rewrite ln_Rinv, ln_mult in H by (done || by apply Rmult_lt_0_compat).
    assert (Hmono : ln x <= ln (x + eps)) by (apply ln_monotone; lra).
    assert (Hprod : x * (- (ln v + ln x)) <= x * (/ (v * x) - 1))
      by (apply Rmult_le_compat_l; lra).
    replace (x * (/ (v * x) - 1)) with (/ v - x) in Hprod
      by (field; lra).
    assert (x * ln x <= x * ln (x + eps))
      by (apply Rmult_le_compat_l; lra).
    lra.
  - assert (0 < / v) by (by apply Rinv_0_lt_compat). lra.
Qed.

(** The entropy of a probability vector of length [v]. *)
Lemma entropy_of_bounds (p : list R) :
  Forall (fun x => 0 <= x) p -> Rsum p = 1 -> (0 < length p)%nat ->
  - log2 (1 + eps) <= entropy_of p <= log2 (INR (length p)).
Proof.
  intros Hp Hsum Hlen. pose proof ln_2_pos as Hln2. unfold entropy_of.
  assert (Hv : 0 < INR (length p)) by (by apply lt_0_INR).
  split.
  - apply Ropp_le_contravar.
    pose proof (Rsum_le (fun x => x * log2 (x + eps))
                  (fun x => x * log2 (1 + eps)) p) as H.
    rewrite Rsum_scale, Hsum, Rmult_1_r in H. apply H.
    pose proof (Rsum_bounds_terms p Hp) as Hle. rewrite Hsum in Hle.
    apply Forall_forall. intros x Hx. apply term_lower.
    rewrite Forall_forall in Hp, Hle. split; [by apply Hp | by apply Hle].
  - pose proof (Rsum_le (fun x => - (x * ln (x + eps)))
                  (fun x => x * ln (INR (length p)) + / INR (length p) - x)
                  p) as H.
    rewrite Rsum_affine, Hsum in H.
    replace (ln (INR (length p)) * 1 + / INR (length p) * INR (length p) - 1)
      with (ln (INR (length p))) in H by (field; lra).
    assert (Hneg : Rsum (map (fun x => - (x * ln (x + eps))) p)
                   = - (ln 2 * Rsum (map (fun x => x * log2 (x + eps)) p))).
    { clear. induction p as [|x p IH]; [simpl; lra|].
      rewrite !map_cons. cbn [Rsum foldr].
      fold (Rsum (map (fun x => - (x * ln (x + eps))) p)).
      fold (Rsum (map (fun x => x * log2 (x + eps)) p)).
      rewrite IH. unfold log2. pose proof ln_2_pos. field. lra. }
    rewrite Hneg in H. unfold log2 at 2.
    apply (Rmult_le_reg_l (ln 2)); [done|].
    replace (ln 2 * (ln (INR (length p)) / ln 2))
      with (ln (INR (length p))) by (field; lra).
    rewrite <- Ropp_mult_distr_r. apply H.
    eapply Forall_impl; [exact Hp|]. intros x Hx. simpl.
    by apply term_upper.
Qed.

(** At a position where every sentence has the same token the entropy
    is negative. *)
Lemma entropy_of_deterministic : entropy_of [0; 1] < 0.
Proof.
  unfold entropy_of, log2. simpl. pose proof ln_2_pos as Hln2.
  assert (0 < ln (1 + eps)).
  { rewrite <- ln_1. apply ln_increasing; pose proof eps_pos; lra. }
  assert (0 < ln (1 + eps) / ln 2) by (by apply Rdiv_lt_0_compat).
  lra.
Qed.

End entropy.

(** ** The marginal distribution at a position *)

Section marginals.
Import OneHot Encoding Analyzer.

Lemma slice_concat {A} (v : nat) (cells : list (list A)) :
  Forall (fun cell => length cell = v) cells ->
  forall j cell, cells !! j = Some cell ->
  slice (j * v) ((j + 1) * v) (concat cells) = cell.
Proof.
  intros Hcells j. unfold slice.
  replace ((j + 1) * v - j * v) with v by lia.
  revert j. induction Hcells as [|c cells Hc _ IH]; intros j cell Hj; [done|].
  destruct j as [|j]; simpl in Hj |- *.
  - injection Hj as <-. rewrite drop_0. by rewrite take_app_length'.
  - rewrite drop_app_add' by done. by apply IH.
Qed.

Lemma length_hot (v k : nat) : length (hot v k) = v.
Proof. unfold hot. by rewrite length_insert, length_replicate. Qed.

Lemma encoded_row_cells (w2i : gmap string nat) (l v : nat)
    (sent : list string) :
  Forall (fun cell => length cell = v) (encoded_row w2i l v sent).
Proof.
  unfold encoded_row. apply Forall_app. split.
  - apply Forall_forall. intros cell Hcell. rewrite map_fmap in Hcell.
    apply list_elem_of_fmap in Hcell as (w & -> & _). apply length_hot.
  - apply Forall_replicate. apply length_hot.
Qed.

(** The block of a flattened row at position [j] is the vector written
    there. *)
Lemma slice_encoded_row (w2i : gmap string nat) (l v j : nat)
    (sent : list string) :
  length sent ≤ l -> j < l ->
  slice (j * v) ((j + 1) * v) (concat (encoded_row w2i l v sent))
  = hot v (index_at w2i j sent).
Proof.
  intros Hlen Hj. apply slice_concat; [apply encoded_row_cells|].
  by apply encoded_row_lookup.
Qed.

Lemma hot_lookup_default (v kstar k : nat) :
  kstar < v -> k < v -> default 0%Z (hot v kstar !! k) = indicator k kstar.
Proof. intros Hkstar Hk. by rewrite hot_lookup. Qed.

(** The indicators of one index sum to one over the vocabulary. *)
Lemma Zsum_indicator (kstar : nat) : forall start len,
  Zsum (map (fun k => indicator k kstar) (seq start len))
  = if decide (start ≤ kstar < start + len) then 1%Z else 0%Z.
Proof.
  intros start len. revert start.
  induction len as [|len IH]; intros start; simpl.
  - by rewrite decide_False by lia.
  - rewrite IH. unfold indicator.
    repeat case_decide; lia.
Qed.

Lemma Zsum_add {A} (f g : A -> Z) (l : list A) :
  Zsum (map (fun a => (f a + g a)%Z) l) = (Zsum (map f l) + Zsum (map g l))%Z.
Proof. induction l as [|a l IH]; simpl; [done | rewrite IH; lia]. Qed.

Lemma Zsum_zero {A} (l : list A) : Zsum (map (fun _ => 0%Z) l) = 0%Z.
Proof. induction l as [|a l IH]; simpl; [done | by rewrite IH]. Qed.

(** Counting, for each index, the sentences that carry it counts every
    sentence once. *)
Lemma Zsum_counts (v : nat) (ks : list nat) :
  Forall (fun k => k < v) ks ->
  Zsum (map (fun k => Zsum (map (indicator k) ks)) (seq 0 v))
  = Z.of_nat (length ks).
Proof.
  induction 1 as [|kstar ks Hk _ IH].
  - simpl. apply Zsum_zero.
  - cbn [map Zsum foldr length]. fold (Zsum (map (indicator kstar) ks)).
    rewrite (Zsum_add (fun k => indicator k kstar)
               (fun k => Zsum (map (indicator k) ks))).
    rewrite IH, Zsum_indicator, decide_True by lia. lia.
Qed.

Lemma Zsum_indicator_nonneg (k : nat) (ks : list nat) :
  (0 ≤ Zsum (map (indicator k) ks))%Z.
Proof.
  induction ks as [|k' ks IH]; simpl; [done|].
  unfold indicator at 1. case_decide; lia.
Qed.

Lemma Rsum_counts (n : R) (c : nat -> Z) (l : list nat) :
  Rsum (map (fun k => (IZR (c k) / n)%R) l) = (IZR (Zsum (map c l)) / n)%R.
Proof.
  induction l as [|k l IH]; simpl.
  - unfold Rdiv. by rewrite Rmult_0_l.
  - fold (Rsum (map (fun k => (IZR (c k) / n)%R) l)). fold (Zsum (map c l)).
    rewrite IH, plus_IZR. unfold Rdiv. by rewrite Rmult_plus_distr_r.
Qed.

(** What a construction that ended normally has stored. *)
Lemma init_fields (sentences : list (list string)) (vocabulary : list string)
    (max_sentence_length : Z) (o : OneHot.t) :
  init sentences vocabulary max_sentence_length = Ok o ->
  (0 ≤ max_sentence_length)%Z /\
  Forall (encodable (make_word2idx vocabulary) (Z.to_nat max_sentence_length))
    sentences /\
  N o = length sentences /\ L o = Z.to_nat max_sentence_length /\
  V o = length vocabulary /\
  onehot_flat o
  = reshape (map (encoded_row (make_word2idx vocabulary)
                    (Z.to_nat max_sentence_length) (length vocabulary))
               sentences).
Proof.
  intros Hinit. destruct (init_Ok_inv _ _ _ _ Hinit) as [HL Henc].
  rewrite (init_Ok _ _ _ HL Henc) in Hinit. injection Hinit as <-.
  by split_and!.
Qed.

Lemma index_at_lt (vocabulary : list string) (l j : nat) (sent : list string) :
  encodable (make_word2idx vocabulary) l sent ->
  index_at (make_word2idx vocabulary) j sent < length vocabulary.
Proof.
  intros (Hws & _ & [g Hg]). unfold index_at, index_of.
  destruct (sent !! j) as [w|] eqn:Hw; simpl.
  - rewrite Forall_lookup in Hws. destruct (Hws j w Hw) as [k Hk].
    rewrite Hk. simpl. by eapply word2idx_lt.
  - rewrite Hg. simpl. by eapply word2idx_lt.
Qed.

(** The marginal at index [k] is the share of the sentences that carry
    index [k] at the position. *)
Lemma position_marginals_init (sentences : list (list string))
    (vocabulary : list string) (max_sentence_length : Z) (o : OneHot.t)
    (position : Z) :
  init sentences vocabulary max_sentence_length = Ok o ->
  (0 ≤ position < max_sentence_length)%Z ->
  position_marginals o position
  = Ok (map (fun k =>
               (IZR (Zsum (map (indicator k)
                             (map (index_at (make_word2idx vocabulary)
                                     (Z.to_nat position)) sentences)))
                / INR (length sentences))%R)
          (seq 0 (length vocabulary))).
Proof.
  intros Hinit Hpos.
  destruct (init_fields _ _ _ _ Hinit) as (HL & Henc & HN & HLo & HV & Hflat).
  unfold position_marginals, partition_by_position.
  rewrite decide_True by lia. rewrite bind_Ok, HN, HV, Hflat. f_equal.
  unfold mean_axis0. apply map_ext_in. intros k Hk%in_seq.
  do 3 f_equal. unfold column, reshape. rewrite !map_map.
  apply map_ext_in. intros sent Hsent%list_elem_of_In.
  rewrite Forall_forall in Henc. specialize (Henc sent Hsent).
  pose proof Henc as (_ & Hlen & _).
  rewrite slice_encoded_row by lia.
  apply hot_lookup_default; [by eapply index_at_lt | lia].
Qed.

(** C9, in exact arithmetic.  After a construction that ended normally on
    a corpus with at least one sentence, at a position [0 <= j < L], the
    analyzer returns an entropy and two to the power of that entropy; the
    entropy is at most [log2 V], and at least [- log2 (1 + 1e-5)], a bound
    that is below zero. *)
Theorem entropy_bounds (sentences : list (list string))
    (vocabulary : list string) (max_sentence_length : Z) (o : OneHot.t)
    (position : Z) :
  init sentences vocabulary max_sentence_length = Ok o ->
  0 < N o ->
  (0 ≤ position < max_sentence_length)%Z ->
  exists entropy,
    position_dimensionality o position = Ok (entropy, Rpower 2 entropy) /\
    (- log2 (1 + eps) <= entropy <= log2 (INR (V o)))%R.
Proof.
  intros Hinit HN Hpos. unfold position_dimensionality.
  rewrite (position_marginals_init _ _ _ _ _ Hinit Hpos), bind_Ok.
  destruct (init_fields _ _ _ _ Hinit) as (HL & Henc & HNo & HLo & HV & _).
  eexists. split; [done|]. rewrite HNo in HN.
  assert (Hn : (0 < INR (length sentences))%R) by (by apply lt_0_INR).
  set (ks := map (index_at (make_word2idx vocabulary) (Z.to_nat position))
               sentences).
  set (p := map _ (seq 0 (length vocabulary))).
  assert (Hlen : length p = length vocabulary)
    by (unfold p; by rewrite length_map, length_seq).
  rewrite HV, <- Hlen. apply entropy_of_bounds.
  - unfold p. apply Forall_forall. intros x Hx. rewrite map_fmap in Hx.
    apply list_elem_of_fmap in Hx as (k & -> & _).
    apply Rmult_le_pos; [|left; by apply Rinv_0_lt_compat].
    apply IZR_le, Zsum_indicator_nonneg.
  - unfold p. rewrite Rsum_counts, Zsum_counts.
    + unfold ks. rewrite length_map, <- INR_IZR_INZ. field. lra.
    + unfold ks. apply Forall_forall. intros k Hk. rewrite map_fmap in Hk.
      apply list_elem_of_fmap in Hk as (sent & -> & Hsent).
      rewrite Forall_forall in Henc. by eapply index_at_lt, Henc.
  - rewrite Hlen. destruct sentences as [|sent ss]; [simpl in HN; lia|].
    apply Forall_cons in Henc as [(_ & _ & [g Hg]) _].
    apply word2idx_lt in Hg. lia.
Qed.

End marginals.

Section analyzer_examples.
Import OneHot Encoding Analyzer.

(** One sentence [a], position [0]: the marginals are [[0; 1]] and the
    entropy is [- log2 (1 + 1e-5)], below zero. *)
Lemma entropy_negative :
  exists o entropy,
    init [["a"]] ["GAP"; "a"] 1 = Ok o /\ 0 < N o /\
    position_dimensionality o 0 = Ok (entropy, Rpower 2 entropy) /\
    (entropy < 0)%R.
Proof.
  destruct (init [["a"]] ["GAP"; "a"] 1) as [o|e] eqn:Hinit;
    [|by vm_compute in Hinit].
  exists o, (entropy_of [0%R; 1%R]).
  destruct (init_fields _ _ _ _ Hinit) as (_ & _ & HN & _).
  split_and!; [done | rewrite HN; simpl; lia | | apply entropy_of_deterministic].
  unfold position_dimensionality.
  rewrite (position_marginals_init _ _ _ _ _ Hinit) by lia.
  rewrite bind_Ok. cbn [length seq map].
  repeat match goal with
         | |- context [IZR (Zsum ?l)] =>
             let z := eval vm_compute in (Zsum l) in change (Zsum l) with z
         end.
  cbn [INR]. by replace (0 / 1)%R with 0%R by lra; replace (1 / 1)%R with 1%R by lra.
Qed.

Lemma entropy_bounds_witness :
  exists o entropy,
    init [["the"; "cat"; "sat"]; ["dog"]]
      ["GAP"; "cat"; "dog"; "sat"; "the"] 3 = Ok o /\
    position_dimensionality o 1 = Ok (entropy, Rpower 2 entropy) /\
    (- log2 (1 + eps) <= entropy <= log2 (INR (V o)))%R.
Proof.
  destruct (init [["the"; "cat"; "sat"]; ["dog"]]
              ["GAP"; "cat"; "dog"; "sat"; "the"] 3) as [o|e] eqn:Hinit;
    [|by vm_compute in Hinit].
  destruct (init_fields _ _ _ _ Hinit) as (_ & _ & HN & _).
  destruct (entropy_bounds _ _ _ o 1 Hinit) as (entropy & Hdim & Hbounds);
    [rewrite HN; simpl; lia | lia |].
  by exists o, entropy.
Defined.

End analyzer_examples.

(** * Further properties *)

(** ** Characters *)

Section characters.

Ltac by_cases a := destruct a as [[] [] [] [] [] [] [] []]; vm_compute; reflexivity.

Lemma lower_char_idem (a : ascii) :
  Str.lower_char (Str.lower_char a) = Str.lower_char a.
Proof. by_cases a. Qed.

Lemma is_alnum_lower_char (a : ascii) :
  Str.is_alnum (Str.lower_char a) = Str.is_alnum a.
Proof. by_cases a. Qed.

Lemma mem_strip_chars_lower_char (a : ascii) :
  Str.mem (Str.lower_char a) Cleaning.strip_chars
  = Str.mem a Cleaning.strip_chars.
Proof. by_cases a. Qed.

Lemma strip_chars_not_alnum (a : ascii) :
  Str.mem a Cleaning.strip_chars && Str.is_alnum a = false.
Proof. by_cases a. Qed.

Lemma lower_char_LF (a : ascii) :
  bool_decide (Str.lower_char a = Re.LF) = bool_decide (a = Re.LF).
Proof. by_cases a. Qed.

End characters.

(** ** More on the Roman-numeral classifier *)

Section roman_more.
Import Re ReSem ReFacts Grammar ReBound.

Lemma lower_cons (a : ascii) (s : string) :
  Str.lower (String a s) = String (Str.lower_char a) (Str.lower s).
Proof. reflexivity. Qed.

Lemma lower_idem (s : string) : Str.lower (Str.lower s) = Str.lower s.
Proof.
  induction s as [|a s IH]; [done|].
  by rewrite !lower_cons, lower_char_idem, IH.
Qed.

Lemma at_eol_lower (s : string) : at_eol (Str.lower s) = at_eol s.
Proof.
  destruct s as [|a [|b s]]; [done| |done].
  rewrite lower_cons. apply lower_char_LF.
Qed.

Lemma chr_eq_ci_lower (a c : ascii) :
  chr_eq_ci (Str.lower_char a) c = chr_eq_ci a c.
Proof. unfold chr_eq_ci. by rewrite lower_char_idem. Qed.

(** The matcher only looks at its continuation through its results. *)
Lemma run_ext (r : regex) : forall pos s k1 k2,
  (forall pos' s', k1 pos' s' = k2 pos' s') ->
  run r pos s k1 = run r pos s k2.
Proof.
  induction r as [| | |c|r1 IH1 r2 IH2|r1 IH1 r2 IH2|r1 IH1|n r1 IH1];
    intros pos s k1 k2 Hk; simpl.
  - apply Hk.
  - by rewrite Hk.
  - by rewrite Hk.
  - destruct s as [|a s]; [done|]. by rewrite Hk.
  - apply IH1. intros pos' s'. by apply IH2.
  - by rewrite (IH1 _ _ k1 k2), (IH2 _ _ k1 k2).
  - by rewrite (IH1 _ _ k1 k2), Hk.
  - revert pos s. induction n as [|n IHn]; intros pos s; [apply Hk|].
    rewrite Hk. f_equal. apply IH1. intros pos' s'. apply IHn.
Qed.

(** Matching the lower-cased subject is matching the subject. *)
Lemma run_lower (r : regex) : forall pos s k,
  run r pos (Str.lower s) k
  = run r pos s (fun pos' s' => k pos' (Str.lower s')).
Proof.
  induction r as [| | |c|r1 IH1 r2 IH2|r1 IH1 r2 IH2|r1 IH1|n r1 IH1];
    intros pos s k; simpl; try done.
  - by rewrite at_eol_lower.
  - destruct s as [|a s]; [done|]. by rewrite lower_cons, chr_eq_ci_lower.
  - rewrite IH1. apply run_ext. intros pos' s'. apply IH2.
  - by rewrite IH1, IH2.
  - by rewrite IH1.
  - revert pos s. induction n as [|n IHn]; intros pos s; [done|].
    rewrite IH1. f_equal. apply run_ext. intros pos' s'. apply IHn.
Qed.

Lemma lang_max_len (r : regex) : forall w,
  lang r w -> String.length w ≤ max_len r.
Proof.
  induction r as [| | |c|r1 IH1 r2 IH2|r1 IH1 r2 IH2|r1 IH1|n r1 IH1];
    simpl; intros w Hw; try (subst w; simpl; lia).
  - destruct Hw as (a & -> & _). simpl. lia.
  - destruct Hw as (w1 & w2 & -> & H1 & H2). rewrite str_length_app.
    specialize (IH1 _ H1). specialize (IH2 _ H2). lia.
  - destruct Hw as [H|H]; [specialize (IH1 _ H) | specialize (IH2 _ H)]; lia.
  - destruct Hw as [->|H]; [simpl; lia | by apply IH1].
  - revert w Hw. induction n as [|n IHn]; intros w Hw; [subst w; simpl; lia|].
    destruct Hw as [->|(w1 & w2 & -> & H1 & H2)]; [simpl; lia|].
    rewrite str_length_app. specialize (IH1 _ H1). specialize (IHn _ H2).
    lia.
Qed.

(** X1.  On a word of ASCII characters, [is_roman] returns true exactly
    on the words of the grammar
    [M{0,3}(CM|CD|D?C{0,3})?(XC|XL|L?X{0,3})?(IX|IV|V?I{0,3})?], letters in
    either case, and on such a word followed by one newline.  (Outside
    ASCII, [re.IGNORECASE] has further letters that match [I]; they are
    not in the model.) *)
Theorem is_roman_language (word : string) :
  Str.isascii word = true ->
  is_roman word = true <->
  roman_grammar word \/
  exists g, roman_grammar g /\ word = g +:+ String LF "".
Proof. intros _. apply is_roman_iff. Qed.

Lemma is_roman_language_witness :
  is_roman "xiv" = true <->
  roman_grammar "xiv" \/
  exists g, roman_grammar g /\ "xiv" = g +:+ String LF "".
Proof. apply (is_roman_language "xiv"). reflexivity. Defined.

(** X2.  On a word of ASCII characters, [is_roman] does not depend on
    the case of the letters: the word and the word in lower case get the
    same answer. *)
Theorem is_roman_ignores_case (word : string) :
  Str.isascii word = true ->
  is_roman (Str.lower word) = is_roman word.
Proof. intros _. unfold is_roman, matches. by rewrite run_lower. Qed.

Lemma is_roman_ignores_case_witness :
  is_roman (Str.lower "McMxC") = is_roman "McMxC".
Proof. apply (is_roman_ignores_case "McMxC"). reflexivity. Defined.

(** X3.  [is_roman] accepts no token of more than sixteen characters:
    fifteen letters, the length of [MMMDCCCLXXXVIII], and a newline. *)
Theorem is_roman_length (word : string) :
  is_roman word = true -> Str.len word ≤ 16.
Proof.
  intros [H|(g & H & ->)]%is_roman_iff; apply lang_max_len in H;
    unfold Str.len; [|rewrite str_length_app]; simpl in *; lia.
Qed.

Lemma is_roman_length_witness :
  Str.len "MMMDCCCLXXXVIII" ≤ 16.
Proof. apply is_roman_length. reflexivity. Defined.

Example is_roman_longest : is_roman "MMMDCCCLXXXVIII" = true.
Proof. reflexivity. Qed.

Example is_roman_uppercase_lowercase :
  is_roman "mCmXcIv" = true /\ is_roman "MCMXCIV" = true.
Proof. by split. Qed.

End roman_more.

(** ** More on the token cleaner *)

Section strip.
Variable chars : string.

Lemma lstrip_cons (a : ascii) (s : string) :
  Str.lstrip chars (String a s)
  = if Str.mem a chars then Str.lstrip chars s else String a s.
Proof. reflexivity. Qed.

Lemma rstrip_cons (a : ascii) (s : string) :
  Str.rstrip chars (String a s)
  = match Str.rstrip chars s with
    | EmptyString =>
        if Str.mem a chars then EmptyString else String a EmptyString
    | r => String a r
    end.
Proof. reflexivity. Qed.

Lemma lstrip_starts_clean (s : string) : starts_clean chars (Str.lstrip chars s).
Proof.
  induction s as [|a s IH]; [done|]. rewrite lstrip_cons.
  by destruct (Str.mem a chars) eqn:Ha.
Qed.

Lemma lstrip_fixed (s : string) :
  starts_clean chars s -> Str.lstrip chars s = s.
Proof. destruct s as [|a s]; [done|]. simpl. by intros ->. Qed.

Lemma rstrip_starts_clean (s : string) :
  starts_clean chars s -> starts_clean chars (Str.rstrip chars s).
Proof.
  destruct s as [|a s]; [done|]. simpl. intros Ha.
  destruct (Str.rstrip chars s); [by rewrite Ha | done].
Qed.

Lemma rstrip_idem (s : string) :
  Str.rstrip chars (Str.rstrip chars s) = Str.rstrip chars s.
Proof.
  induction s as [|a s IH]; [done|]. rewrite rstrip_cons.
  destruct (Str.rstrip chars s) as [|b r] eqn:Hr.
  - destruct (Str.mem a chars) eqn:Ha; [done|]. simpl. by rewrite Ha.
  - rewrite rstrip_cons, IH. done.
Qed.

Lemma strip_idem (s : string) :
  Str.strip chars (Str.strip chars s) = Str.strip chars s.
Proof.
  unfold Str.strip.
  rewrite (lstrip_fixed (Str.rstrip _ _))
    by apply rstrip_starts_clean, lstrip_starts_clean.
  apply rstrip_idem.
Qed.

Section with_predicate.
Variable p : ascii -> bool.
Hypothesis chars_not_p : forall a, Str.mem a chars && p a = false.

Lemma existsb_lstrip (s : string) :
  Str.existsb p (Str.lstrip chars s) = Str.existsb p s.
Proof.
  induction s as [|a s IH]; [done|]. rewrite lstrip_cons.
  destruct (Str.mem a chars) eqn:Ha; [|done]. simpl. rewrite IH.
  pose proof (chars_not_p a) as H. rewrite Ha in H. simpl in H.
  by rewrite H.
Qed.

Lemma existsb_rstrip (s : string) :
  Str.existsb p (Str.rstrip chars s) = Str.existsb p s.
Proof.
  induction s as [|a s IH]; [done|]. rewrite rstrip_cons. simpl.
  rewrite <- IH. destruct (Str.rstrip chars s) as [|b r]; [|done].
  destruct (Str.mem a chars) eqn:Ha; simpl; [|by rewrite orb_false_r].
  pose proof (chars_not_p a) as H. rewrite Ha in H. simpl in H.
  by rewrite H.
Qed.

Lemma existsb_strip (s : string) :
  Str.existsb p (Str.strip chars s) = Str.existsb p s.
Proof. unfold Str.strip. by rewrite existsb_rstrip, existsb_lstrip. Qed.

End with_predicate.

Hypothesis chars_lower : forall a,
  Str.mem (Str.lower_char a) chars = Str.mem a chars.

Lemma lstrip_lower (s : string) :
  Str.lstrip chars (Str.lower s) = Str.lower (Str.lstrip chars s).
Proof.
  induction s as [|a s IH]; [done|].
  rewrite lower_cons, !lstrip_cons, chars_lower, IH.
  by destruct (Str.mem a chars).
Qed.

Lemma rstrip_lower (s : string) :
  Str.rstrip chars (Str.lower s) = Str.lower (Str.rstrip chars s).
Proof.
  induction s as [|a s IH]; [done|].
  rewrite lower_cons, !rstrip_cons, chars_lower, IH.
  destruct (Str.rstrip chars s) as [|b r]; [|done].
  by destruct (Str.mem a chars).
Qed.

Lemma strip_lower (s : string) :
  Str.strip chars (Str.lower s) = Str.lower (Str.strip chars s).
Proof. unfold Str.strip. by rewrite lstrip_lower, rstrip_lower. Qed.

End strip.

Lemma existsb_is_alnum_lower (s : string) :
  Str.existsb Str.is_alnum (Str.lower s) = Str.existsb Str.is_alnum s.
Proof.
  induction s as [|a s IH]; [done|].
  rewrite lower_cons. simpl. by rewrite is_alnum_lower_char, IH.
Qed.

Section clean_word_more.
Import Cleaning.

(** What [clean_word] returns for a token that it keeps. *)
Lemma clean_word_kept (word PoS w : string) :
  clean_word word PoS = Some w ->
  Str.existsb Str.is_alnum w = true /\
  ((PoS = "NNP" /\ w = word) \/
   (PoS <> "NNP" /\ w = Str.lower (Str.strip strip_chars word) /\
    normal w = true)).
Proof.
  unfold clean_word. fold strip_chars.
  destruct (Str.existsb Str.is_alnum word) eqn:Hal; [|done]. simpl.
  destruct (Str.isdigit word); [done|].
  destruct (_ && is_roman word); [done|].
  destruct (in_PUNCT word); [done|].
  case_bool_decide as Htag.
  { intros [= <-]. split; [done | by left]. }
  case_bool_decide as Hempty; [done|].
  destruct (_ && negb _) eqn:Hone; [done|]. intros [= <-].
  split.
  - by rewrite existsb_is_alnum_lower,
      (existsb_strip _ _ strip_chars_not_alnum).
  - right. split_and!; [done..|]. unfold normal.
    set (w := Str.lower (Str.strip strip_chars word)) in *.
    assert (Hstrip : Str.strip strip_chars w = w).
    { unfold w.
      by rewrite <- (strip_lower _ mem_strip_chars_lower_char), strip_idem. }
    assert (Hlower : Str.lower w = w) by apply lower_idem.
    rewrite !bool_decide_eq_true_2 by done. simpl.
    apply andb_false_iff in Hone as [Hone|Hone].
    + by rewrite Hone.
    + apply negb_false_iff in Hone. rewrite Hone. apply orb_true_r.
Qed.

(** X4.  A token that [clean_word] keeps holds a letter or a digit.  It is
    the raw token itself when the tag is [NNP]; otherwise it is the raw
    token stripped of leading and trailing punctuation and underscores
    and lower-cased, and it is normal: stripping and lower-casing leave
    it as it is, and it is no lone character other than [a] and [i]. *)
Theorem clean_word_normal_form (word PoS w : string) :
  clean_word word PoS = Some w ->
  Str.existsb Str.is_alnum w = true /\
  ((PoS = "NNP" /\ w = word) \/
   (PoS <> "NNP" /\ w = Str.lower (Str.strip strip_chars word) /\
    normal w = true)).
Proof. apply clean_word_kept. Qed.

Lemma clean_word_normal_form_witness :
  Str.existsb Str.is_alnum "hello" = true /\
  (("NN" = "NNP" /\ "hello" = "_Hello!") \/
   ("NN" <> "NNP" /\ "hello" = Str.lower (Str.strip strip_chars "_Hello!") /\
    normal "hello" = true)).
Proof. apply (clean_word_normal_form "_Hello!" "NN" "hello"). reflexivity. Defined.

End clean_word_more.

(** ** More on the sentence filter and cleaner *)

Section cleaner_more.
Import Cleaning.
Variable pos_tag : tagger.

(** Where a sentence of the output comes from. *)
Lemma elem_of_clean_sents (sentences : list (list string)) (M L : Z)
    (c : list string) :
  c ∈ clean_sents pos_tag sentences M L <->
  exists s, s ∈ sentences /\ (M ≤ Z.of_nat (length s) ≤ L + 1)%Z /\
            chapter_heading s = false /\ c = clean_tagged (pos_tag s) /\
            (M ≤ Z.of_nat (length c) ≤ L)%Z.
Proof.
  rewrite clean_sents_pipeline, list_elem_of_filter, map_fmap,
    list_elem_of_fmap.
  setoid_rewrite list_elem_of_filter. setoid_rewrite list_elem_of_filter.
  split.
  - intros (Hc & s & -> & Hh & Hs & Hin). by exists s.
  - intros (s & Hin & Hs & Hh & -> & Hc). split; [done|]. by exists s.
Qed.

Lemma elem_of_clean_tagged (tagged : list (string * string)) (w : string) :
  w ∈ clean_tagged tagged <->
  exists word PoS, (word, PoS) ∈ tagged /\ clean_word word PoS = Some w.
Proof.
  rewrite clean_tagged_omap, list_elem_of_omap. split.
  - intros ([word PoS] & Hin & Hw). by exists word, PoS.
  - intros (word & PoS & Hin & Hw). by exists (word, PoS).
Qed.

(** X5.  Every token of every sentence of the output holds a letter or a
    digit; in particular none is empty or made of punctuation only. *)
Theorem clean_sents_tokens_alnum (sentences : list (list string)) (M L : Z) :
  Forall (Forall (fun w => Str.existsb Str.is_alnum w = true /\ w <> ""))
    (clean_sents pos_tag sentences M L).
Proof.
  apply Forall_forall. intros c (s & _ & _ & _ & -> & _)%elem_of_clean_sents.
  apply Forall_forall.
  intros w (word & PoS & _ & Hw)%elem_of_clean_tagged.
  apply clean_word_kept in Hw as [Hw _]. split; [done|].
  by intros ->.
Qed.

(** X6.  Cleaning a concatenation of corpora is concatenating the cleaned
    corpora: a sentence is kept or dropped on its own, whatever its
    neighbours. *)
Theorem clean_sents_app (corpus1 corpus2 : list (list string)) (M L : Z) :
  clean_sents pos_tag (corpus1 ++ corpus2) M L
  = clean_sents pos_tag corpus1 M L ++ clean_sents pos_tag corpus2 M L.
Proof.
  rewrite !clean_sents_pipeline.
  by rewrite !filter_app, map_app, filter_app.
Qed.

Hypothesis pos_tag_tokens : forall sent, (pos_tag sent).*1 = sent.

Lemma length_clean_tagged (sent : list string) :
  length (clean_tagged (pos_tag sent)) ≤ length sent.
Proof.
  rewrite clean_tagged_omap. rewrite <- (pos_tag_tokens sent) at 2.
  rewrite length_fmap. induction (pos_tag sent) as [|[w PoS] l IH]; [done|].
  cbn [omap list_omap]. destruct (clean_word w PoS); simpl; lia.
Qed.

(** X7.  With a tagger that returns the tokens it was given, no token of
    the output is [CHAPTER]. *)
Theorem clean_sents_no_CHAPTER (sentences : list (list string)) (M L : Z) :
  Forall (fun c => "CHAPTER" ∉ c) (clean_sents pos_tag sentences M L).
Proof.
  apply Forall_forall.
  intros c (s & _ & _ & Hh & -> & _)%elem_of_clean_sents
    (word & PoS & Hin & Hw)%elem_of_clean_tagged.
  apply clean_word_kept in Hw as [_ [[_ <-]|(_ & Heq & Hn)]].
  - apply orb_false_iff in Hh as [Hh _].
    apply not_true_iff_false in Hh. apply Hh, has_CHAPTER_iff.
    rewrite <- (pos_tag_tokens s). apply list_elem_of_fmap.
    by exists ("CHAPTER", PoS).
  - by vm_compute in Hn.
Qed.

(** X8.  With such a tagger, cleaning adds nothing: every sentence of the
    output is the cleaned form of a raw sentence that has at least as
    many tokens and is no chapter heading, and the output has at most as
    many sentences as the input. *)
Theorem clean_sents_shrinks (sentences : list (list string)) (M L : Z) :
  Forall (fun c => exists s, s ∈ sentences /\ c = clean_tagged (pos_tag s) /\
                             length c ≤ length s /\
                             chapter_heading s = false)
    (clean_sents pos_tag sentences M L) /\
  length (clean_sents pos_tag sentences M L) ≤ length sentences.
Proof.
  split.
  - apply Forall_forall.
    intros c (s & Hin & _ & Hh & -> & _)%elem_of_clean_sents.
    exists s. split_and!; [done..| apply length_clean_tagged | done].
  - rewrite clean_sents_pipeline.
    etrans; [apply length_filter|]. rewrite length_map.
    etrans; [apply length_filter|]. apply length_filter.
Qed.

(** X9.  A sentence none of whose tokens holds a letter or a digit is
    cleaned to the empty sentence; it is in the output, as the empty
    sentence, exactly when [M <= 0 <= L] and its raw length is between
    [M] and [L + 1]. *)
Theorem clean_sents_punctuation_only (sent : list string) (M L : Z) :
  Forall (fun w => Str.existsb Str.is_alnum w = false) sent ->
  clean_sents pos_tag [sent] M L
  = if decide ((M ≤ 0 ≤ L)%Z /\ (M ≤ Z.of_nat (length sent) ≤ L + 1)%Z)
    then [[]] else [].
Proof.
  intros Hsent.
  assert (Hclean : clean_tagged (pos_tag sent) = []).
  { rewrite clean_tagged_omap.
    rewrite <- (pos_tag_tokens sent) in Hsent.
    induction (pos_tag sent) as [|[w PoS] l IH]; [done|].
    rewrite fmap_cons in Hsent. apply Forall_cons in Hsent as [Hw Hl].
    cbn [omap list_omap]. simpl in Hw. unfold clean_word at 1.
    rewrite Hw. simpl. by apply IH. }
  assert (Hh : chapter_heading sent = false).
  { apply not_true_iff_false. intros [H|H]%chapter_heading_iff.
    - rewrite Forall_forall in Hsent. by specialize (Hsent _ H).
    - destruct H as (i & tok & _ & Htok & Hlow & _).
      apply list_elem_of_lookup_2 in Htok.
      rewrite Forall_forall in Hsent. specialize (Hsent _ Htok).
      rewrite <- existsb_is_alnum_lower, Hlow in Hsent. done. }
  rewrite clean_sents_pipeline.
  destruct (decide (M ≤ Z.of_nat (length sent) ≤ L + 1)%Z) as [Hpre|Hpre].
  - rewrite (filter_cons_True _ sent) by done. rewrite filter_nil.
    rewrite filter_cons_True by done. rewrite filter_nil.
    rewrite map_cons, Hclean. simpl map.
    destruct (decide (M ≤ 0 ≤ L)%Z) as [Hpost|Hpost].
    + rewrite decide_True by done. by rewrite filter_cons_True.
    + rewrite decide_False by tauto. by rewrite filter_cons_False.
  - rewrite (filter_cons_False _ sent) by done.
    by rewrite decide_False by tauto.
Qed.

End cleaner_more.

Section cleaner_more_examples.
Import Cleaning.

Lemma clean_sents_no_CHAPTER_witness :
  Forall (fun c => "CHAPTER" ∉ c)
    (clean_sents tag_NN [["CHAPTER"; "one"]; ["the"; "_CHAPTER_"; "ends"]] 1 5).
Proof. apply (clean_sents_no_CHAPTER tag_NN tag_NN_tokens). Defined.

Lemma clean_sents_shrinks_witness :
  Forall (fun c => exists s,
            s ∈ [["The"; "cat,"; "sat"; "."]; ["CHAPTER"; "one"]] /\
            c = clean_tagged (tag_NN s) /\ length c ≤ length s /\
            chapter_heading s = false)
    (clean_sents tag_NN [["The"; "cat,"; "sat"; "."]; ["CHAPTER"; "one"]] 1 3)
  /\
  length (clean_sents tag_NN
            [["The"; "cat,"; "sat"; "."]; ["CHAPTER"; "one"]] 1 3) ≤ 2.
Proof. apply (clean_sents_shrinks tag_NN tag_NN_tokens). Defined.

Lemma clean_sents_punctuation_only_witness :
  clean_sents tag_NN [["?"; "!"; "--"]] 0 3
  = if decide ((0 ≤ 0 ≤ 3)%Z /\ (0 ≤ Z.of_nat (length ["?"; "!"; "--"]) ≤ 3 + 1)%Z)
    then [[]] else [].
Proof.
  apply (clean_sents_punctuation_only tag_NN tag_NN_tokens). compute_done.
Defined.

End cleaner_more_examples.

(** ** Cleaning a cleaned corpus again: when it changes nothing *)

Section recleaning.
Import Cleaning.







Variable tag : string -> string.
Variable pos_tag : tagger.
Hypothesis pos_tag_tag :
  forall sent, pos_tag sent = map (fun w => (w, tag w)) sent.




End recleaning.

Section recleaning_examples.
Import Cleaning.


End recleaning_examples.

(** ** More on the vocabulary and its index *)

Section vocabulary_more.
Import OneHot Encoding.

(** X10.  The vocabulary depends on the tokens that occur in the corpus
    only, not on their order, their number, or the sentences they are
    in. *)
Theorem get_vocabulary_same_tokens (corpus1 corpus2 : list (list string)) :
  (forall w, w ∈ concat corpus1 <-> w ∈ concat corpus2) ->
  get_vocabulary corpus1 = get_vocabulary corpus2.
Proof.
  intros H. rewrite !get_vocabulary_eq. do 3 f_equal.
  apply set_eq. intros w. by rewrite !elem_of_list_to_set.
Qed.

Lemma get_vocabulary_same_tokens_witness :
  get_vocabulary [["b"; "a"]; ["a"]] = get_vocabulary [["a"; "b"]].
Proof.
  apply get_vocabulary_same_tokens. intros w. simpl.
  rewrite !elem_of_cons, !elem_of_nil. tauto.
Defined.

(** On a vocabulary without repetitions the index of a word is the only
    position of the word. *)
Lemma word2idx_NoDup (vocabulary : list string) (w : string) (k : nat) :
  NoDup vocabulary ->
  make_word2idx vocabulary !! w = Some k <-> vocabulary !! k = Some w.
Proof.
  intros Hnd. split; [apply word2idx_lookup|]. intros Hk.
  destruct (proj2 (word2idx_is_Some vocabulary w)) as [k' Hk'].
  { by apply list_elem_of_lookup_2 in Hk. }
  rewrite Hk'. f_equal. apply word2idx_lookup in Hk'.
  by eapply NoDup_lookup.
Qed.

Lemma NoDup_get_vocabulary (corpus : list (list string)) :
  NoDup (get_vocabulary corpus).
Proof.
  rewrite get_vocabulary_eq, merge_sort_Permutation. apply NoDup_elements.
Qed.

(** X11.  The index built from a vocabulary of [get_vocabulary] and the
    vocabulary are inverse to each other: a word has index [k] exactly
    when it is entry [k] of the vocabulary. *)
Theorem word2idx_get_vocabulary (corpus : list (list string)) (w : string)
    (k : nat) :
  make_word2idx (get_vocabulary corpus) !! w = Some k <->
  get_vocabulary corpus !! k = Some w.
Proof. apply word2idx_NoDup, NoDup_get_vocabulary. Qed.

(** A corpus is encoded with its own vocabulary when its sentences fit. *)
Lemma init_own_vocabulary (corpus : list (list string)) (L : Z) :
  (0 ≤ L)%Z -> Forall (fun s => (Z.of_nat (length s) ≤ L)%Z) corpus ->
  exists o, init corpus (get_vocabulary corpus) L = Ok o /\
            N o = length corpus /\ V o = length (get_vocabulary corpus) /\
            OneHot.L o = Z.to_nat L.
Proof.
  intros HL Hlen. eexists. split; [apply init_Ok; [done|] | done].
  apply Forall_forall. intros s Hs. apply encodable_iff. split_and!.
  - apply Forall_forall. intros w Hw. apply elem_of_get_vocabulary.
    right. by exists s.
  - rewrite Forall_forall in Hlen. specialize (Hlen s Hs). lia.
  - apply elem_of_get_vocabulary. by left.
Qed.

(** X12.  The cleaner, the vocabulary builder and the encoder fit
    together: encoding the cleaned corpus with the vocabulary built from
    it and the same maximum length raises no [KeyError] and no
    [IndexError], whatever the bounds, and a construction that returns
    has one row per cleaned sentence, the size of that vocabulary as [V]
    and the maximum length as [L]. *)
Theorem pipeline_encodes (pos_tag : tagger) (sentences : list (list string))
    (M L : Z) :
  (forall tok,
     init (clean_sents pos_tag sentences M L)
       (get_vocabulary (clean_sents pos_tag sentences M L)) L
     <> Raise (KeyError tok)) /\
  (forall axis index size,
     init (clean_sents pos_tag sentences M L)
       (get_vocabulary (clean_sents pos_tag sentences M L)) L
     <> Raise (IndexError axis index size)) /\
  (forall o,
     init (clean_sents pos_tag sentences M L)
       (get_vocabulary (clean_sents pos_tag sentences M L)) L = Ok o ->
     N o = length (clean_sents pos_tag sentences M L) /\
     V o = length (get_vocabulary (clean_sents pos_tag sentences M L)) /\
     OneHot.L o = Z.to_nat L).
Proof.
  destruct (decide (L < 0)%Z) as [HL|HL].
  - assert (H : init (clean_sents pos_tag sentences M L)
                  (get_vocabulary (clean_sents pos_tag sentences M L)) L
                = Raise ValueError)
      by (unfold init; by rewrite decide_True).
    rewrite H. by split_and!.
  - destruct (init_own_vocabulary (clean_sents pos_tag sentences M L) L)
      as (o & -> & HN & HV & HLo); [lia | |].
    { eapply Forall_impl; [apply clean_sents_bounded|]. simpl. lia. }
    split_and!; [done | done |]. by intros o' [= <-].
Qed.

End vocabulary_more.

(** ** More on the positional analyzer *)

Section analyzer_more.
Import OneHot Encoding Analyzer.

Lemma init_one_hot (sentences : list (list string)) (vocabulary : list string)
    (max_sentence_length : Z) (o : OneHot.t) :
  init sentences vocabulary max_sentence_length = Ok o ->
  one_hot o = map (encoded_row (make_word2idx vocabulary)
                     (Z.to_nat max_sentence_length) (length vocabulary))
                sentences /\
  onehot_flat o = reshape (one_hot o) /\
  word2idx o = make_word2idx vocabulary.
Proof.
  intros Hinit. destruct (init_Ok_inv _ _ _ _ Hinit) as [HL Henc].
  rewrite (init_Ok _ _ _ HL Henc) in Hinit. by injection Hinit as <-.
Qed.

(** X13.  The block of the flattened view at a position is the tensor at
    that position: after a construction that ended normally, for
    [0 <= j < L], [partition_by_position] returns [N] rows of length [V],
    and entry [k] of row [i] is [one_hot[i, j, k]]. *)
Theorem partition_by_position_cells (sentences : list (list string))
    (vocabulary : list string) (max_sentence_length : Z) (o : OneHot.t)
    (position : Z) :
  init sentences vocabulary max_sentence_length = Ok o ->
  (0 ≤ position < max_sentence_length)%Z ->
  exists partition,
    partition_by_position o position = Ok partition /\
    length partition = N o /\
    forall i, i < N o ->
      exists cell, partition !! i = Some cell /\ length cell = V o /\
        forall k, cell !! k = get3 (one_hot o) i (Z.to_nat position) k.
Proof.
  intros Hinit Hpos.
  destruct (init_fields _ _ _ _ Hinit) as (HL & Henc & HN & HLo & HV & Hflat).
  destruct (init_one_hot _ _ _ _ Hinit) as (Hone & _ & _).
  unfold partition_by_position. rewrite decide_True by lia.
  eexists. split; [done|]. rewrite Hflat, HN, HV. unfold reshape.
  rewrite !length_map. split; [done|]. intros i Hi.
  destruct (lookup_lt_is_Some_2 sentences i Hi) as [sent Hsent].
  rewrite Forall_lookup in Henc. destruct (Henc i sent Hsent) as (_ & Hlen & _).
  exists (hot (length vocabulary)
            (index_at (make_word2idx vocabulary) (Z.to_nat position) sent)).
  rewrite !map_fmap, !list_lookup_fmap, Hsent. simpl.
  rewrite slice_encoded_row by lia. split_and!; [done | apply length_hot |].
  intros k. unfold get3. rewrite Hone, map_fmap, list_lookup_fmap, Hsent.
  simpl. by rewrite encoded_row_lookup by lia.
Qed.

Lemma marginals_probability (vocabulary : list string) (l j : nat)
    (sentences : list (list string)) :
  0 < length sentences ->
  Forall (encodable (make_word2idx vocabulary) l) sentences ->
  let p := map (fun k =>
                  (IZR (Zsum (map (indicator k)
                                (map (index_at (make_word2idx vocabulary) j)
                                   sentences)))
                   / INR (length sentences))%R)
             (seq 0 (length vocabulary)) in
  length p = length vocabulary /\ Forall (fun x => (0 <= x)%R) p /\
  Rsum p = 1%R.
Proof.
  intros HN Henc p.
  assert (Hn : (0 < INR (length sentences))%R) by (by apply lt_0_INR).
  split_and!.
  - unfold p. by rewrite length_map, length_seq.
  - unfold p. apply Forall_forall. intros x Hx. rewrite map_fmap in Hx.
    apply list_elem_of_fmap in Hx as (k & -> & _).
    apply Rmult_le_pos; [|left; by apply Rinv_0_lt_compat].
    apply IZR_le, Zsum_indicator_nonneg.
  - unfold p. rewrite Rsum_counts, Zsum_counts.
    + rewrite length_map, <- INR_IZR_INZ. field. lra.
    + apply Forall_forall. intros k Hk. rewrite map_fmap in Hk.
      apply list_elem_of_fmap in Hk as (sent & -> & Hsent).
      rewrite Forall_forall in Henc. by eapply index_at_lt, Henc.
Qed.

(** X15.  The marginals at a valid position of a corpus that is not
    empty are a probability vector over the vocabulary: [V] numbers
    between 0 and 1 that sum to 1. *)
Theorem position_marginals_distribution (sentences : list (list string))
    (vocabulary : list string) (max_sentence_length : Z) (o : OneHot.t)
    (position : Z) :
  init sentences vocabulary max_sentence_length = Ok o ->
  0 < N o ->
  (0 ≤ position < max_sentence_length)%Z ->
  exists p,
    position_marginals o position = Ok p /\ length p = V o /\
    Forall (fun x => (0 <= x <= 1)%R) p /\ Rsum p = 1%R.
Proof.
  intros Hinit HN Hpos.
  destruct (init_fields _ _ _ _ Hinit) as (HL & Henc & HNo & HLo & HV & _).
  rewrite (position_marginals_init _ _ _ _ _ Hinit Hpos).
  rewrite HNo in HN.
  destruct (marginals_probability vocabulary _ (Z.to_nat position) sentences
              HN Henc) as (Hlen & Hpos' & Hsum).
  eexists. split_and!; [done | by rewrite HV | | done].
  pose proof (Rsum_bounds_terms _ Hpos') as Hle. rewrite Hsum in Hle.
  apply Forall_forall. intros x Hx. rewrite Forall_forall in Hpos', Hle.
  split; [by apply Hpos' | by apply Hle].
Qed.

Lemma Zsum_indicator_count {A} (f : A -> nat) (P : A -> Prop)
    `{!forall a, Decision (P a)} (k : nat) (l : list A) :
  Forall (fun a => f a = k <-> P a) l ->
  Zsum (map (indicator k) (map f l)) = Z.of_nat (length (filter P l)).
Proof.
  induction 1 as [|a l Ha _ IH]; [done|].
  rewrite !map_cons. cbn [Zsum foldr]. fold (Zsum (map (indicator k) (map f l))).
  rewrite IH, filter_cons. unfold indicator.
  destruct (decide (P a)) as [HP|HP].
  - rewrite decide_True by (symmetry; by apply Ha). simpl. lia.
  - rewrite decide_False; [lia|]. intros ->. by apply HP, Ha.
Qed.

(** X16.  With a vocabulary without repetitions and a corpus that is
    not empty, the marginal of entry [k] of the vocabulary at a position
    is, in exact arithmetic, the share of the sentences whose token at
    that position ([GAP] for a sentence that ends before it) is that
    entry. *)
Theorem position_marginals_share (sentences : list (list string))
    (vocabulary : list string) (max_sentence_length : Z) (o : OneHot.t)
    (position : Z) (k : nat) (w : string) :
  init sentences vocabulary max_sentence_length = Ok o ->
  0 < N o ->
  NoDup vocabulary ->
  (0 ≤ position < max_sentence_length)%Z ->
  vocabulary !! k = Some w ->
  exists p,
    position_marginals o position = Ok p /\
    p !! k
    = Some (INR (length (filter
                           (fun s => default "GAP" (s !! Z.to_nat position) = w)
                           sentences))
            / INR (N o))%R.
Proof.
  intros Hinit _ Hnd Hpos Hk.
  destruct (init_fields _ _ _ _ Hinit) as (HL & Henc & HNo & HLo & HV & _).
  rewrite (position_marginals_init _ _ _ _ _ Hinit Hpos).
  eexists. split; [done|].
  rewrite map_fmap, list_lookup_fmap, lookup_seq_lt
    by (by eapply lookup_lt_Some).
  simpl. rewrite HNo. do 3 f_equal.
  rewrite (Zsum_indicator_count _
             (fun s => default "GAP" (s !! Z.to_nat position) = w)).
  - by rewrite <- INR_IZR_INZ.
  - eapply Forall_impl; [exact Henc|]. intros s (Hws & _ & [g Hg]).
    unfold index_at, index_of.
    assert (Htok : is_Some (make_word2idx vocabulary
                              !! default "GAP" (s !! Z.to_nat position))).
    { destruct (s !! Z.to_nat position) as [tok|] eqn:Htok; [|by eexists].
      rewrite Forall_lookup in Hws. by apply (Hws _ _ Htok). }
    destruct Htok as [k' Hk']. rewrite Hk'. simpl.
    apply (word2idx_NoDup _ _ _ Hnd) in Hk'. split.
    + intros ->. congruence.
    + intros <-. by eapply NoDup_lookup.
Qed.

Lemma Rpower_2_log2 (x : R) : (0 < x)%R -> Rpower 2 (log2 x) = x.
Proof.
  intros Hx. unfold Rpower, log2. pose proof ln_2_pos.
  replace (ln x / ln 2 * ln 2)%R with (ln x) by (field; lra).
  by apply exp_ln.
Qed.

Lemma Rpower_2_opp_log2 (x : R) :
  (0 < x)%R -> Rpower 2 (- log2 x) = (/ x)%R.
Proof.
  intros Hx. unfold Rpower, log2. pose proof ln_2_pos.
  replace (- (ln x / ln 2) * ln 2)%R with (- ln x)%R by (field; lra).
  by rewrite exp_Ropp, exp_ln.
Qed.

(** X17.  The dimensionality at a valid position of a corpus that is not
    empty is at most the size [V] of the vocabulary, and at least
    [1 / (1 + 1e-5)], in exact arithmetic. *)
Theorem dimensionality_bounds (sentences : list (list string))
    (vocabulary : list string) (max_sentence_length : Z) (o : OneHot.t)
    (position : Z) :
  init sentences vocabulary max_sentence_length = Ok o ->
  0 < N o ->
  (0 ≤ position < max_sentence_length)%Z ->
  exists entropy dimensionality,
    position_dimensionality o position = Ok (entropy, dimensionality) /\
    (/ (1 + eps) <= dimensionality <= INR (V o))%R.
Proof.
  intros Hinit HN Hpos. unfold position_dimensionality.
  rewrite (position_marginals_init _ _ _ _ _ Hinit Hpos), bind_Ok.
  destruct (init_fields _ _ _ _ Hinit) as (HL & Henc & HNo & HLo & HV & _).
  rewrite HNo in HN.
  destruct (marginals_probability vocabulary _ (Z.to_nat position) sentences
              HN Henc) as (Hlen & Hp & Hsum).
  eexists _, _. split; [done|].
  assert (Hv : 0 < length vocabulary).
  { destruct sentences as [|sent ss]; [simpl in HN; lia|].
    apply Forall_cons in Henc as [(_ & _ & [g Hg]) _].
    apply word2idx_lt in Hg. lia. }
  destruct (entropy_of_bounds _ Hp Hsum) as [Hlo Hhi]; [by rewrite Hlen|].
  rewrite Hlen in Hhi. pose proof eps_pos.
  rewrite <- (Rpower_2_opp_log2 (1 + eps)) by lra.
  rewrite HV, <- (Rpower_2_log2 (INR (length vocabulary)))
    by (by apply lt_0_INR).
  split; apply Rle_Rpower; (lra || done).
Qed.

Lemma Rsum_single (g : nat) (c : R) : forall start len,
  Rsum (map (fun k => if decide (k = g) then c else 0%R) (seq start len))
  = if decide (start ≤ g < start + len) then c else 0%R.
Proof.
  intros start len. revert start.
  induction len as [|len IH]; intros start; simpl.
  - by rewrite decide_False by lia.
  - fold (Rsum (map (fun k => if decide (k = g) then c else 0%R)
                  (seq (S start) len))).
    rewrite IH. repeat case_decide; (lia || lra).
Qed.

Lemma Zsum_indicator_constant (k g : nat) (ks : list nat) :
  Forall (fun k' => k' = g) ks ->
  Zsum (map (indicator k) ks) = (Z.of_nat (length ks) * indicator k g)%Z.
Proof.
  induction 1 as [|k' ks -> _ IH]; [done|].
  cbn [map Zsum foldr length]. fold (Zsum (map (indicator k) ks)).
  rewrite IH. lia.
Qed.

(** X18.  At a valid position where every sentence of a corpus that is
    not empty has the same token (for instance a position after the end
    of every sentence, where all have [GAP]), the entropy is
    [- log2 (1 + 1e-5)] and the dimensionality is [1 / (1 + 1e-5)], in
    exact arithmetic. *)
Theorem constant_position (sentences : list (list string))
    (vocabulary : list string) (max_sentence_length : Z) (o : OneHot.t)
    (position : Z) (w : string) :
  init sentences vocabulary max_sentence_length = Ok o ->
  0 < N o ->
  (0 ≤ position < max_sentence_length)%Z ->
  Forall (fun s => default "GAP" (s !! Z.to_nat position) = w) sentences ->
  position_dimensionality o position
  = Ok ((- log2 (1 + eps))%R, (/ (1 + eps))%R).
Proof.
  intros Hinit HN Hpos Hw. unfold position_dimensionality.
  rewrite (position_marginals_init _ _ _ _ _ Hinit Hpos), bind_Ok.
  destruct (init_fields _ _ _ _ Hinit) as (HL & Henc & HNo & HLo & HV & _).
  rewrite HNo in HN.
  assert (Hn : (0 < INR (length sentences))%R) by (by apply lt_0_INR).
  set (g := index_of (make_word2idx vocabulary) w).
  assert (Hg : g < length vocabulary).
  { destruct sentences as [|s ss]; [simpl in HN; lia|].
    apply Forall_cons in Hw as [Hs _]. apply Forall_cons in Henc as [Hs' _].
    pose proof (index_at_lt _ _ (Z.to_nat position) _ Hs') as Hlt.
    unfold index_at in Hlt. by rewrite Hs in Hlt. }
  assert (Hentropy : entropy_of
            (map (fun k =>
                    (IZR (Zsum (map (indicator k)
                                  (map (index_at (make_word2idx vocabulary)
                                          (Z.to_nat position)) sentences)))
                     / INR (length sentences))%R)
               (seq 0 (length vocabulary)))
          = (- log2 (1 + eps))%R).
  { unfold entropy_of. f_equal. rewrite map_map.
    rewrite (map_ext_in _
               (fun k => if decide (k = g) then log2 (1 + eps) else 0%R)).
    - rewrite Rsum_single. by rewrite decide_True by lia.
    - intros k _. rewrite (Zsum_indicator_constant k g).
      + rewrite length_map, mult_IZR, <- INR_IZR_INZ. unfold indicator.
        case_decide.
        * replace (INR (length sentences) * 1 / INR (length sentences))%R
            with 1%R by (field; lra). lra.
        * replace (INR (length sentences) * 0 / INR (length sentences))%R
            with 0%R by (field; lra). lra.
      + apply Forall_forall. intros k' Hk'. rewrite map_fmap in Hk'.
        apply list_elem_of_fmap in Hk' as (s & -> & Hs).
        rewrite Forall_forall in Hw. unfold index_at. by rewrite (Hw s Hs). }
  rewrite Hentropy. do 2 f_equal. apply Rpower_2_opp_log2.
  pose proof eps_pos. lra.
Qed.

End analyzer_more.

Section analyzer_more_examples.
Import OneHot Encoding Analyzer.

Lemma partition_by_position_cells_witness :
  exists o partition,
    init [["the"; "cat"; "sat"]; ["dog"]]
      ["GAP"; "cat"; "dog"; "sat"; "the"] 3 = Ok o /\
    partition_by_position o 1 = Ok partition /\
    length partition = N o /\
    forall i, i < N o ->
      exists cell, partition !! i = Some cell /\ length cell = V o /\
        forall k, cell !! k = get3 (one_hot o) i (Z.to_nat 1) k.
Proof.
  destruct (init [["the"; "cat"; "sat"]; ["dog"]]
              ["GAP"; "cat"; "dog"; "sat"; "the"] 3) as [o|e] eqn:Hinit;
    [|by vm_compute in Hinit].
  destruct (partition_by_position_cells _ _ _ o 1 Hinit)
    as (partition & H); [lia|].
  by exists o, partition.
Defined.

Lemma position_marginals_distribution_witness :
  exists o p,
    init [["the"; "cat"; "sat"]; ["dog"]]
      ["GAP"; "cat"; "dog"; "sat"; "the"] 3 = Ok o /\
    position_marginals o 1 = Ok p /\ length p = V o /\
    Forall (fun x => (0 <= x <= 1)%R) p /\ Rsum p = 1%R.
Proof.
  destruct (init [["the"; "cat"; "sat"]; ["dog"]]
              ["GAP"; "cat"; "dog"; "sat"; "the"] 3) as [o|e] eqn:Hinit;
    [|by vm_compute in Hinit].
  destruct (init_fields _ _ _ _ Hinit) as (_ & _ & HN & _).
  destruct (position_marginals_distribution _ _ _ o 1 Hinit) as (p & H);
    [rewrite HN; simpl; lia | lia |].
  by exists o, p.
Defined.

Lemma position_marginals_share_witness :
  exists o p,
    init [["the"; "cat"; "sat"]; ["dog"]]
      ["GAP"; "cat"; "dog"; "sat"; "the"] 3 = Ok o /\
    position_marginals o 1 = Ok p /\
    (p !! 0
     = Some (INR (length (filter
                            (fun s => default "GAP" (s !! Z.to_nat 1) = "GAP")
                            [["the"; "cat"; "sat"]; ["dog"]]))
             / INR (N o))%R).
Proof.
  destruct (init [["the"; "cat"; "sat"]; ["dog"]]
              ["GAP"; "cat"; "dog"; "sat"; "the"] 3) as [o|e] eqn:Hinit;
    [|by vm_compute in Hinit].
  destruct (init_fields _ _ _ _ Hinit) as (_ & _ & HN & _).
  destruct (position_marginals_share _ _ _ o 1 0 "GAP" Hinit) as (p & H);
    [rewrite HN; simpl; lia | compute_done | lia | done |].
  by exists o, p.
Defined.

Lemma dimensionality_bounds_witness :
  exists o entropy dimensionality,
    init [["the"; "cat"; "sat"]; ["dog"]]
      ["GAP"; "cat"; "dog"; "sat"; "the"] 3 = Ok o /\
    position_dimensionality o 1 = Ok (entropy, dimensionality) /\
    (/ (1 + eps) <= dimensionality <= INR (V o))%R.
Proof.
  destruct (init [["the"; "cat"; "sat"]; ["dog"]]
              ["GAP"; "cat"; "dog"; "sat"; "the"] 3) as [o|e] eqn:Hinit;
    [|by vm_compute in Hinit].
  destruct (init_fields _ _ _ _ Hinit) as (_ & _ & HN & _).
  destruct (dimensionality_bounds _ _ _ o 1 Hinit) as (e' & d & H);
    [rewrite HN; simpl; lia | lia |].
  by exists o, e', d.
Defined.

Lemma constant_position_witness :
  exists o,
    init [["the"; "cat"]; ["dog"]] ["GAP"; "cat"; "dog"; "the"] 3 = Ok o /\
    position_dimensionality o 2
    = Ok ((- log2 (1 + eps))%R, (/ (1 + eps))%R).
Proof.
  destruct (init [["the"; "cat"]; ["dog"]] ["GAP"; "cat"; "dog"; "the"] 3)
    as [o|e] eqn:Hinit; [|by vm_compute in Hinit].
  destruct (init_fields _ _ _ _ Hinit) as (_ & _ & HN & _).
  exists o. split; [done|].
  apply (constant_position _ _ _ o 2 "GAP" Hinit);
    [rewrite HN; simpl; lia | lia | by repeat constructor].
Defined.

End analyzer_more_examples.

(** ** The summary of the sentence lengths *)

Section summary.
Import OneHot Summary.

Lemma digit_value_pretty_N_char (m : BinNums.N) :
  (m < 10)%N -> digit_value (pretty_N_char m) = N.to_nat m.
Proof.
  intros Hm. destruct m as [|p]; [done|].
  do 4 (destruct p as [p|p|]; try done); lia.
Qed.

Lemma int_from_pretty_N_go (x : BinNums.N) : forall s,
  int_from 0 (pretty_N_go x s) = int_from (N.to_nat x) s.
Proof.
  induction (N.lt_wf_0 x) as [x _ IH]. intros s.
  destruct (decide (x = 0%N)) as [->|Hx]; [by rewrite pretty_N_go_0|].
  rewrite pretty_N_go_step by lia.
  rewrite IH by (apply N.div_lt; lia). simpl int_from.
  rewrite digit_value_pretty_N_char by (apply N.mod_lt; lia). f_equal.
  pose proof (N.div_mod x 10). lia.
Qed.

(** [int(str(n)) = n] *)
Lemma int_pretty (n : nat) : int (pretty n) = n.
Proof.
  unfold int, pretty, pretty_nat, pretty, pretty_N.
  case_decide as Hn; [vm_compute; lia|].
  rewrite int_from_pretty_N_go. simpl. lia.
Qed.

Lemma sum_list_Permutation (l1 l2 : list nat) :
  l1 ≡ₚ l2 -> sum_list l1 = sum_list l2.
Proof. induction 1; simpl; lia. Qed.

(** The sum of the counts of a dictionary. *)
Lemma total_insert_fresh (d : gmap string nat) (key : string) (c : nat) :
  d !! key = None ->
  sum_list (map_to_list (<[key := c]> d)).*2 = c + sum_list (map_to_list d).*2.
Proof.
  intros Hd. by rewrite (sum_list_Permutation _ _
                           (fmap_Permutation snd _ _ (map_to_list_insert d key c Hd))).
Qed.

Lemma total_insert_present (d : gmap string nat) (key : string) (c c' : nat) :
  d !! key = Some c ->
  sum_list (map_to_list (<[key := c']> d)).*2 + c
  = c' + sum_list (map_to_list d).*2.
Proof.
  intros Hd. rewrite <- insert_delete_eq.
  rewrite total_insert_fresh by apply lookup_delete_eq.
  rewrite <- (sum_list_Permutation _ _
                (fmap_Permutation snd _ _ (map_to_list_delete d key c Hd))).
  rewrite fmap_cons. simpl. lia.
Qed.

Lemma count_lengths_snoc (sentences : list (list string)) (sent : list string) :
  count_lengths (sentences ++ [sent])
  = match count_lengths sentences !! pretty (length sent) with
    | Some c => <[pretty (length sent) := c + 1]> (count_lengths sentences)
    | None => <[pretty (length sent) := 1]> (count_lengths sentences)
    end.
Proof. unfold count_lengths. by rewrite foldl_app. Qed.

(** The count stored under a key is the number of sentences whose length
    is written that way; a key that no sentence has is absent. *)
Lemma count_lengths_lookup (sentences : list (list string)) (key : string) :
  count_lengths sentences !! key
  = let c := length (filter (fun s => pretty (length s) = key) sentences) in
    if decide (c = 0) then None else Some c.
Proof.
  induction sentences as [|sent sentences IH] using rev_ind; [done|].
  rewrite count_lengths_snoc, filter_app, length_app. simpl in IH |- *.
  rewrite filter_cons, filter_nil.
  destruct (decide (pretty (length sent) = key)) as [<-|Hne].
  - rewrite IH. simpl. case_decide as Hc.
    + rewrite Hc, lookup_insert_eq. by rewrite decide_False by lia.
    + rewrite lookup_insert_eq. by rewrite decide_False by lia.
  - simpl. rewrite Nat.add_0_r, <- IH.
    destruct (count_lengths sentences !! pretty (length sent));
      by rewrite lookup_insert_ne.
Qed.

Lemma count_lengths_total (sentences : list (list string)) :
  sum_list (map_to_list (count_lengths sentences)).*2 = length sentences.
Proof.
  induction sentences as [|sent sentences IH] using rev_ind; [done|].
  rewrite count_lengths_snoc, length_app. simpl.
  destruct (count_lengths sentences !! pretty (length sent)) as [c|] eqn:Hc.
  - pose proof (total_insert_present _ _ _ (c + 1) Hc). lia.
  - rewrite total_insert_fresh by done. lia.
Qed.

Lemma Sorted_strict {A} (f : A -> nat) (l : list A) :
  Sorted (fun a b => f a ≤ f b) l -> NoDup (f <$> l) ->
  Sorted (fun a b => f a < f b) l.
Proof.
  induction 1 as [|a l Hl IH Hhd]; intros Hnd; [constructor|].
  rewrite fmap_cons in Hnd. apply NoDup_cons in Hnd as [Ha Hnd].
  constructor; [by apply IH|].
  destruct Hhd as [|b l' Hab]; constructor.
  rewrite fmap_cons, not_elem_of_cons in Ha. lia.
Qed.

#[local] Instance by_int_key_total : Total by_int_key.
Proof. intros a b. unfold by_int_key. lia. Qed.

Lemma elem_of_sorted_dict (sentences : list (list string)) (key : string)
    (c : nat) :
  (key, c) ∈ sorted_dict sentences <->
  exists len, key = pretty len /\
              c = length (filter (fun s => length s = len) sentences) /\
              0 < c.
Proof.
  unfold sorted_dict.
  rewrite merge_sort_Permutation, elem_of_map_to_list, count_lengths_lookup.
  simpl. split.
  - case_decide as Hc; [done|]. intros [= <-].
    destruct (filter _ sentences) as [|s l] eqn:Hf; [done|].
    assert (Hs : s ∈ filter (fun s => pretty (length s) = key) sentences)
      by (rewrite Hf; left).
    apply list_elem_of_filter in Hs as [<- _]. exists (length s).
    split_and!; [done| |simpl; lia]. rewrite <- Hf. f_equal.
    apply list_filter_iff. intros s'. split; [|by intros ->].
    by intros ?%(inj pretty).
  - intros (len & -> & -> & Hc).
    rewrite (list_filter_iff _ (fun s => length s = len)).
    + by rewrite decide_False by lia.
    + intros s. split; [|by intros ->]. by intros ?%(inj pretty).
Qed.

(** X19.  The summary of a constructed encoder is [N], [V] and the list
    of the sentence lengths that occur, each once under its decimal
    string, in increasing order, each with the number of sentences of
    that length; the counts add up to [N]. *)
Theorem summarize_histogram (sentences : list (list string))
    (vocabulary : list string) (max_sentence_length : Z) (o : OneHot.t) :
  init sentences vocabulary max_sentence_length = Ok o ->
  exists h,
    summarize o = (length sentences, length vocabulary, h) /\
    (forall key c,
       (key, c) ∈ h <->
       exists len, key = pretty len /\
                   c = length (filter (fun s => length s = len) sentences) /\
                   0 < c) /\
    Sorted (fun a b => int a.1 < int b.1) h /\
    sum_list h.*2 = N o.
Proof.
  intros Hinit. destruct (init_Ok_inv _ _ _ _ Hinit) as [HL Henc].
  rewrite (init_Ok _ _ _ HL Henc) in Hinit. injection Hinit as <-.
  exists (sorted_dict sentences). unfold summarize. simpl.
  split_and!; [done | apply elem_of_sorted_dict | |].
  - apply (Sorted_strict (fun a => int a.1)).
    + apply (Sorted_merge_sort by_int_key).
    + apply NoDup_fmap_2_strong.
      * intros [k1 c1] [k2 c2] H1 H2 Hint.
        apply elem_of_sorted_dict in H1 as (len1 & -> & -> & _).
        apply elem_of_sorted_dict in H2 as (len2 & -> & -> & _).
        simpl in Hint. rewrite !int_pretty in Hint. by subst.
      * unfold sorted_dict. rewrite merge_sort_Permutation.
        apply NoDup_map_to_list.
  - unfold sorted_dict.
    rewrite (sum_list_Permutation _ _
               (fmap_Permutation snd _ _ (merge_sort_Permutation _ _))).
    apply count_lengths_total.
Qed.

End summary.

Section summary_examples.
Import OneHot Summary.

Lemma summarize_histogram_witness :
  exists o h,
    init [["the"; "cat"; "sat"]; ["dog"]; ["a"; "b"; "c"]]
      ["GAP"; "a"; "b"; "c"; "cat"; "dog"; "sat"; "the"] 3 = Ok o /\
    summarize o = (3, 8, h) /\
    (forall key c,
       (key, c) ∈ h <->
       exists len, key = pretty len /\
                   c = length (filter (fun s => length s = len)
                                 [["the"; "cat"; "sat"]; ["dog"];
                                  ["a"; "b"; "c"]]) /\
                   0 < c) /\
    Sorted (fun a b => int a.1 < int b.1) h /\
    sum_list h.*2 = N o.
Proof.
  destruct (init [["the"; "cat"; "sat"]; ["dog"]; ["a"; "b"; "c"]]
              ["GAP"; "a"; "b"; "c"; "cat"; "dog"; "sat"; "the"] 3)
    as [o|e] eqn:Hinit; [|by vm_compute in Hinit].
  destruct (summarize_histogram _ _ _ o Hinit) as (h & H).
  by exists o, h.
Defined.

Example sorted_dict_scenario :
  sorted_dict [["the"; "cat"; "sat"]; ["dog"]; ["a"; "b"; "c"]; []]
  = [("0", 1); ("1", 1); ("3", 2)].
Proof. by vm_compute. Qed.

End summary_examples.

(** ** The frequent words of a position *)

Section frequent.
Import OneHot Encoding Analyzer Frequent.
Local Open Scope R_scope.

Lemma filter_at_least_mass (threshold : R) (df : frame) :
  Forall (fun x => 0 <= x) df.*2 ->
  INR (length (filter (at_least threshold) df)) * threshold <= Rsum df.*2.
Proof.
  induction df as [|[w q] df IH]; intros Hpos.
  - simpl. lra.
  - rewrite fmap_cons in Hpos. apply Forall_cons in Hpos as [Hq Hpos].
    specialize (IH Hpos). rewrite filter_cons, fmap_cons.
    cbn [Rsum foldr]. fold (Rsum df.*2).
    destruct (decide (at_least threshold (w, q))) as [Hge|Hlt].
    + unfold at_least in Hge. rewrite length_cons, S_INR.
      cbn [snd] in *. lra.
    + cbn [snd] in *. lra.
Qed.

Lemma filter_all {A} (P : A -> Prop) `{!forall a, Decision (P a)} (l : list A) :
  Forall P l -> filter P l = l.
Proof.
  induction 1 as [|a l Ha _ IH]; [done|].
  by rewrite filter_cons_True, IH.
Qed.

Variable sort_values : sorter.
Hypothesis sort_values_Permutation : forall df, sort_values df ≡ₚ df.
Hypothesis sort_values_Sorted : forall df, Sorted descending (sort_values df).

(** X20.  At a valid position of a corpus that is not empty, the rows of
    the frame of frequent words are the vocabulary entries, each with
    its marginal, whose marginal is at least the threshold, in an order
    of decreasing probability. *)
Theorem position_frequent_words_rows (sentences : list (list string))
    (vocabulary : list string) (max_sentence_length : Z) (o : OneHot.t)
    (position : Z) (threshold : R) :
  init sentences vocabulary max_sentence_length = Ok o ->
  (0 < N o)%nat ->
  (0 ≤ position < max_sentence_length)%Z ->
  exists p df_hi,
    position_marginals o position = Ok p /\
    position_frequent_words sort_values o position threshold = Ok df_hi /\
    (forall w q, (w, q) ∈ df_hi <->
       (exists k, vocabulary !! k = Some w /\ p !! k = Some q) /\
       threshold <= q) /\
    Sorted descending df_hi.
Proof.
  intros Hinit _ Hpos.
  assert (Hvoc : OneHot.vocabulary o = vocabulary).
  { destruct (init_Ok_inv _ _ _ _ Hinit) as [HL Henc].
    rewrite (init_Ok _ _ _ HL Henc) in Hinit. by injection Hinit as <-. }
  pose proof (position_marginals_init _ _ _ _ _ Hinit Hpos) as Hp.
  unfold position_frequent_words. rewrite Hp, bind_Ok, Hvoc.
  eexists _, _. split_and!; [done | done | | apply sort_values_Sorted].
  intros w q. rewrite sort_values_Permutation, list_elem_of_filter.
  unfold at_least. simpl. rewrite elem_of_lookup_zip_with. split.
  - intros [Hq (k & w' & q' & [= -> ->] & Hw & Hq')]. split; [|done].
    by exists k.
  - intros [(k & Hw & Hq') Hq]. split; [done|]. by exists k, w, q.
Qed.

(** X21.  The frame of frequent words has at most [V] rows; it lists the
    whole vocabulary for a threshold that is not positive, at most
    [1 / threshold] words for a positive one, and nothing for a
    threshold above 1. *)
Theorem position_frequent_words_count (sentences : list (list string))
    (vocabulary : list string) (max_sentence_length : Z) (o : OneHot.t)
    (position : Z) (threshold : R) :
  init sentences vocabulary max_sentence_length = Ok o ->
  (0 < N o)%nat ->
  (0 ≤ position < max_sentence_length)%Z ->
  exists df_hi,
    position_frequent_words sort_values o position threshold = Ok df_hi /\
    (length df_hi ≤ V o)%nat /\
    (threshold <= 0 -> length df_hi = V o) /\
    (0 < threshold -> INR (length df_hi) <= 1 / threshold) /\
    (1 < threshold -> df_hi = []).
Proof.
  intros Hinit HN Hpos.
  assert (Hvoc : OneHot.vocabulary o = vocabulary).
  { destruct (init_Ok_inv _ _ _ _ Hinit) as [HL Henc].
    rewrite (init_Ok _ _ _ HL Henc) in Hinit. by injection Hinit as <-. }
  destruct (init_fields _ _ _ _ Hinit) as (HL & Henc & HNo & HLo & HV & _).
  pose proof (position_marginals_init _ _ _ _ _ Hinit Hpos) as Hp.
  rewrite HNo in HN.
  destruct (marginals_probability vocabulary _ (Z.to_nat position) sentences
              HN Henc) as (Hlen & Hnonneg & Hsum).
  unfold position_frequent_words. rewrite Hp, bind_Ok, Hvoc.
  set (p := map _ (seq 0 (length vocabulary))) in *.
  set (df := zip vocabulary p).
  assert (Hsnd : df.*2 = p) by (apply snd_zip; lia).
  assert (Hdf : length df = V o).
  { unfold df. rewrite length_zip_with_l_eq by done. by rewrite HV. }
  assert (Hrows : length (sort_values (filter (at_least threshold) df))
                  = length (filter (at_least threshold) df))
    by apply Permutation_length, sort_values_Permutation.
  pose proof (filter_at_least_mass threshold df) as Hmass.
  rewrite Hsnd, Hsum in Hmass. specialize (Hmass Hnonneg).
  rewrite <- Hrows in Hmass.
  eexists. split_and!; [done | | | |].
  - rewrite Hrows, <- Hdf. apply length_filter.
  - intros Ht. rewrite Hrows, <- Hdf. f_equal. apply filter_all.
    apply Forall_forall. intros [w q] Hwq. unfold at_least. simpl.
    assert (Hq : q ∈ df.*2) by (apply list_elem_of_fmap; by exists (w, q)).
    rewrite Hsnd in Hq. rewrite Forall_forall in Hnonneg.
    specialize (Hnonneg _ Hq). simpl in Hnonneg. lra.
  - intros Ht. unfold Rdiv. rewrite Rmult_1_l.
    apply (Rmult_le_reg_r threshold); [done|].
    rewrite Rinv_l by lra. done.
  - intros Ht.
    destruct (sort_values (filter (at_least threshold) df)) as [|row rows];
      [done|].
    rewrite length_cons, S_INR in Hmass.
    pose proof (pos_INR (length rows)). nra.
Qed.

End frequent.

Section frequent_examples.
Import OneHot Encoding Analyzer Frequent.
Local Open Scope R_scope.

Lemma sort_descending_Permutation (df : frame) : sort_descending df ≡ₚ df.
Proof. apply merge_sort_Permutation. Qed.

#[local] Instance descending_total : Total descending.
Proof.
  intros a b. unfold descending.
  destruct (Rle_or_lt a.2 b.2); [by right | left; lra].
Qed.

Lemma sort_descending_Sorted (df : frame) :
  Sorted descending (sort_descending df).
Proof. apply (Sorted_merge_sort descending). Qed.

Lemma position_frequent_words_rows_witness :
  exists o p df_hi,
    init [["a"]; ["b"]; ["a"]] ["GAP"; "a"; "b"] 1 = Ok o /\
    position_marginals o 0 = Ok p /\
    position_frequent_words sort_descending o 0 (1 / 2) = Ok df_hi /\
    (forall w q, (w, q) ∈ df_hi <->
       (exists k, ["GAP"; "a"; "b"] !! k = Some w /\ p !! k = Some q) /\
       1 / 2 <= q) /\
    Sorted descending df_hi.
Proof.
  destruct (init [["a"]; ["b"]; ["a"]] ["GAP"; "a"; "b"] 1)
    as [o|e'] eqn:Hinit; [|by vm_compute in Hinit].
  assert (HN : (0 < N o)%nat).
  { destruct (init_fields _ _ _ _ Hinit) as (_ & _ & -> & _). simpl. lia. }
  destruct (position_frequent_words_rows sort_descending
              sort_descending_Permutation sort_descending_Sorted
              _ _ _ o 0 (1 / 2) Hinit HN ltac:(lia)) as (p & df_hi & H).
  by exists o, p, df_hi.
Defined.

Lemma position_frequent_words_count_witness :
  exists o df_hi,
    init [["a"]; ["b"]; ["a"]] ["GAP"; "a"; "b"] 1 = Ok o /\
    position_frequent_words sort_descending o 0 (1 / 2) = Ok df_hi /\
    (length df_hi ≤ V o)%nat /\
    (1 / 2 <= 0 -> length df_hi = V o) /\
    (0 < 1 / 2 -> INR (length df_hi) <= 1 / (1 / 2)) /\
    (1 < 1 / 2 -> df_hi = []).
Proof.
  destruct (init [["a"]; ["b"]; ["a"]] ["GAP"; "a"; "b"] 1)
    as [o|e'] eqn:Hinit; [|by vm_compute in Hinit].
  assert (HN : (0 < N o)%nat).
  { destruct (init_fields _ _ _ _ Hinit) as (_ & _ & -> & _). simpl. lia. }
  destruct (position_frequent_words_count sort_descending
              sort_descending_Permutation
              _ _ _ o 0 (1 / 2) Hinit HN ltac:(lia)) as (df_hi & H).
  by exists o, df_hi.
Defined.

End frequent_examples.


(** ** The tokenizer of plain-text books and the merged corpus *)

Section tokenizer.
Import Books.

Lemma flush_token (cur : string) : cur <> "" -> flush cur = [cur].
Proof. by destruct cur. Qed.

Lemma tokenize_from_word (t : string) : forall cur text,
  Str.forallb is_word_char t = true ->
  tokenize_from cur (t +:+ text) = tokenize_from (cur +:+ t) text.
Proof.
  induction t as [|a t IH]; intros cur text Ht.
  - by rewrite str_app_nil_l, str_app_nil_r.
  - simpl in Ht. apply andb_prop in Ht as [Ha Ht].
    rewrite str_app_cons. cbn [tokenize_from]. rewrite Ha, IH by done.
    by rewrite str_app_assoc.
Qed.

Lemma tokenize_from_starts_gap (cur text : string) :
  starts_gap text -> tokenize_from cur text = flush cur ++ tokenize text.
Proof.
  destruct text as [|a text]; intros Hs.
  - simpl. by rewrite app_nil_r.
  - simpl in Hs. unfold tokenize. cbn [tokenize_from]. by rewrite Hs.
Qed.

(** The text before the first match is skipped. *)
Lemma tokenize_gap (g text : string) :
  is_gap g -> tokenize (g +:+ text) = tokenize text.
Proof.
  unfold is_gap, tokenize. induction g as [|a g IH]; intros Hg; [done|].
  simpl in Hg. apply andb_prop in Hg as [Ha Hg].
  rewrite str_app_cons. cbn [tokenize_from].
  apply negb_true_iff in Ha. rewrite Ha. simpl. by apply IH.
Qed.

(** A word that the text does not continue is one match. *)
Lemma tokenize_token (t text : string) :
  is_token t -> starts_gap text ->
  tokenize (t +:+ text) = t :: tokenize text.
Proof.
  intros [Hne Ht] Hs. unfold tokenize at 1.
  rewrite tokenize_from_word, str_app_nil_l by done.
  by rewrite tokenize_from_starts_gap, flush_token.
Qed.

Lemma is_gap_starts_gap (g text : string) :
  is_gap g -> starts_gap text -> starts_gap (g +:+ text).
Proof.
  destruct g as [|a g]; [done|]. unfold is_gap. simpl.
  intros [Ha _]%andb_prop _. by apply negb_true_iff.
Qed.

Lemma is_gap_starts_gap_ne (g text : string) :
  is_gap g -> g <> "" -> starts_gap (g +:+ text).
Proof.
  destruct g as [|a g]; [done|]. unfold is_gap. simpl.
  intros [Ha _]%andb_prop _. by apply negb_true_iff.
Qed.

Lemma tokenize_weave_gaps (tokens : list string) : forall g gaps,
  length gaps = length tokens ->
  Forall is_gap (g :: gaps) ->
  Forall is_token tokens ->
  (forall i g', S i < length tokens -> gaps !! i = Some g' -> g' <> "") ->
  tokenize (weave (g :: gaps) tokens) = tokens.
Proof.
  induction tokens as [|t tokens IH]; intros g gaps Hlen Hgaps Htok Hin.
  - destruct gaps; [|done]. simpl.
    apply Forall_cons in Hgaps as [Hg _].
    rewrite <- (str_app_nil_r g). by rewrite tokenize_gap.
  - destruct gaps as [|g1 gaps]; [done|].
    apply Forall_cons in Hgaps as [Hg Hgaps].
    apply Forall_cons in Htok as [Ht Htok].
    cbn [weave]. rewrite tokenize_gap by done.
    rewrite tokenize_token; [|done|].
    + f_equal. apply IH; [by injection Hlen | done | done |].
      intros i g' Hi Hg'. apply (Hin (S i)); [simpl; lia | done].
    + pose proof Hgaps as Hgaps'. apply Forall_cons in Hgaps' as [Hg1 _].
      destruct tokens as [|t' tokens].
      * destruct gaps; [|done]. simpl. rewrite <- (str_app_nil_r g1).
        by apply is_gap_starts_gap.
      * destruct gaps as [|g2 gaps]; [done|]. cbn [weave].
        apply is_gap_starts_gap_ne; [done|].
        apply (Hin 0); [simpl; lia | done].
Qed.

(** X22.  Tokenizing is the inverse of writing words with gaps between
    them: for words of word characters and gaps without word characters,
    none empty between two words, the tokens of
    [g0 t1 g1 ... tn gn] are [t1, ..., tn]. *)
Theorem tokenize_weave (gaps tokens : list string) :
  length gaps = S (length tokens) ->
  Forall is_gap gaps ->
  Forall is_token tokens ->
  (forall i g, 0 < i < length tokens -> gaps !! i = Some g -> g <> "") ->
  tokenize (weave gaps tokens) = tokens.
Proof.
  intros Hlen Hgaps Htok Hin. destruct gaps as [|g gaps]; [done|].
  apply tokenize_weave_gaps; [by injection Hlen | done | done |].
  intros i g' Hi Hg'. apply (Hin (S i)); [lia | done].
Qed.

Lemma split_gap (text : string) :
  exists g rest, text = g +:+ rest /\ is_gap g /\
    (rest = "" \/ exists a r, rest = String a r /\ is_word_char a = true).
Proof.
  induction text as [|a text (g & rest & -> & Hg & Hrest)].
  - exists "", "". split_and!; [done | done | by left].
  - destruct (is_word_char a) eqn:Ha.
    + exists "", (String a (g +:+ rest)). split_and!; [done | done |].
      right. by exists a, (g +:+ rest).
    + exists (String a g), rest. split_and!; [done | | done].
      unfold is_gap in *. simpl. by rewrite Ha, Hg.
Qed.

Lemma split_word (text : string) :
  exists t rest, text = t +:+ rest /\
    Str.forallb is_word_char t = true /\ starts_gap rest.
Proof.
  induction text as [|a text (t & rest & -> & Ht & Hrest)].
  - by exists "", "".
  - destruct (is_word_char a) eqn:Ha.
    + exists (String a t), rest. split_and!; [done | | done].
      simpl. by rewrite Ha, Ht.
    + by exists "", (String a (t +:+ rest)).
Qed.

Lemma is_token_starts_word (t text : string) :
  is_token t -> starts_gap (t +:+ text) -> False.
Proof.
  intros [Hne Ht]. destruct t as [|a t]; [done|]. simpl in *.
  apply andb_prop in Ht as [Ha _]. congruence.
Qed.

Lemma tokenize_gaps (n : nat) : forall text,
  String.length text ≤ n ->
  exists g gaps,
    text = weave (g :: gaps) (tokenize text) /\
    length gaps = length (tokenize text) /\
    Forall is_gap (g :: gaps) /\
    Forall is_token (tokenize text) /\
    (forall i g', S i < length (tokenize text) -> gaps !! i = Some g' ->
                  g' <> "").
Proof.
  induction n as [|n IH]; intros text Hn.
  - destruct text; [|simpl in Hn; lia]. exists "", [].
    split_and!; [done | done | by repeat constructor | constructor |].
    intros i g' Hi. simpl in Hi. lia.
  - destruct (split_gap text) as (g & rest & -> & Hg & Hrest).
    rewrite tokenize_gap by done. destruct Hrest as [->|(a & r & -> & Ha)].
    + exists g, []. rewrite str_app_nil_r.
      split_and!; [done | done | by repeat constructor | constructor |].
      intros i g' Hi. simpl in Hi. lia.
    + destruct (split_word (String a r)) as (t & rest & Heq & Ht & Hrest).
      assert (Htok : is_token t).
      { split; [|done]. intros ->. rewrite str_app_nil_l in Heq. subst rest.
        simpl in Hrest. congruence. }
      rewrite Heq, tokenize_token by done.
      destruct (IH rest) as (g1 & gaps & Hw & Hlen & Hgaps & Htoks & Hin).
      { rewrite Heq, !str_length_app in Hn.
        destruct Htok as [Hne _]. destruct t; [done|]. simpl in Hn. lia. }
      exists g, (g1 :: gaps). split_and!.
      * change (weave (g :: g1 :: gaps) (t :: tokenize rest))
          with (g +:+ t +:+ weave (g1 :: gaps) (tokenize rest)).
        by rewrite <- Hw.
      * simpl. by rewrite Hlen.
      * by constructor.
      * by constructor.
      * intros [|i] g' Hi Hg'; simpl in Hi, Hg'.
        -- injection Hg' as <-. intros ->.
           destruct (tokenize rest) as [|t' toks] eqn:Htoks'; [simpl in Hi; lia|].
           destruct gaps as [|g2 gaps]; [done|]. cbn [weave] in Hw.
           rewrite str_app_nil_l in Hw. rewrite Hw in Hrest.
           apply Forall_cons in Htoks as [Ht' _].
           by eapply is_token_starts_word.
        -- apply (Hin i); [lia | done].
Qed.

(** X23.  Every token of a text is a word: it is not empty and holds
    word characters only.  The text is its tokens in order, with a gap
    without word characters before, between and after them, and no gap
    between two tokens is empty. *)
Theorem tokenize_words (text : string) :
  Forall is_token (tokenize text) /\
  exists gaps,
    length gaps = S (length (tokenize text)) /\
    Forall is_gap gaps /\
    (forall i g, 0 < i < length (tokenize text) -> gaps !! i = Some g ->
                 g <> "") /\
    text = weave gaps (tokenize text).
Proof.
  destruct (tokenize_gaps (String.length text) text) as
    (g & gaps & Hw & Hlen & Hgaps & Htoks & Hin); [done|].
  split; [done|]. exists (g :: gaps). split_and!; [by simpl; f_equal | done | | done].
  intros [|i] g' Hi Hg'; [lia|]. apply (Hin i); [lia | done].
Qed.

Lemma tokenize_weave_witness :
  tokenize (weave [""; ", "; "!"] ["Hello"; "big_world"])
  = ["Hello"; "big_world"].
Proof.
  apply tokenize_weave.
  - reflexivity.
  - repeat constructor.
  - repeat constructor; discriminate.
  - intros [|[|[|i]]] g Hi Hg; simpl in Hi, Hg; try lia.
    injection Hg as <-. discriminate.
Defined.

Example tokenize_scenario :
  tokenize "It's a well-known fact, isn't it?  Yes_2."
  = ["It"; "s"; "a"; "well"; "known"; "fact"; "isn"; "t"; "it"; "Yes_2"].
Proof. by vm_compute. Qed.

End tokenizer.

Section merged.
Import Books.
Variable io : sources.

Lemma extend_all_Some (filenames : list (string * bool)) :
  forall all books,
    Forall2 (fun b sents => get_sents io b.1 b.2 = Some sents) filenames books ->
    extend_all io all filenames = Some (all ++ List.concat books).
Proof.
  induction filenames as [|b filenames IH]; intros all books Hbooks.
  - apply Forall2_nil_inv_l in Hbooks as ->. simpl. by rewrite app_nil_r.
  - apply Forall2_cons_inv_l in Hbooks as (sents & books' & Hb & Hbooks & ->).
    simpl. rewrite Hb. simpl. rewrite (IH _ _ Hbooks). by rewrite app_assoc.
Qed.

Lemma extend_all_inv (filenames : list (string * bool)) :
  forall all result,
    extend_all io all filenames = Some result ->
    exists books,
      Forall2 (fun b sents => get_sents io b.1 b.2 = Some sents)
        filenames books.
Proof.
  induction filenames as [|b filenames IH]; intros all result H.
  - exists []. constructor.
  - simpl in H. destruct (get_sents io b.1 b.2) as [sents|] eqn:Hb; [|done].
    simpl in H. destruct (IH _ _ H) as [books Hbooks].
    exists (sents :: books). by constructor.
Qed.

Lemma extend_all_None (filenames : list (string * bool)) :
  forall all,
    extend_all io all filenames = None <->
    Exists (fun b => get_sents io b.1 b.2 = None) filenames.
Proof.
  induction filenames as [|b filenames IH]; intros all.
  - simpl. rewrite Exists_nil. split; [done | tauto].
  - simpl. rewrite Exists_cons.
    destruct (get_sents io b.1 b.2) as [sents|] eqn:Hb; simpl.
    + rewrite IH. split; [by right | by intros [|]].
    + split; [by left | done].
Qed.

(** X24.  The merged corpus is the sentences of the books one after the
    other, in the order of the file names; the merge succeeds exactly
    when every book can be read and fails when one cannot. *)
Theorem merged_books_sents_concat (filenames : list (string * bool)) :
  (forall all,
     merged_books_sents io filenames = Some all <->
     exists books,
       Forall2 (fun b sents => get_sents io b.1 b.2 = Some sents)
         filenames books /\
       all = List.concat books) /\
  (merged_books_sents io filenames = None <->
   Exists (fun b => get_sents io b.1 b.2 = None) filenames).
Proof.
  unfold merged_books_sents. split; [|apply extend_all_None].
  intros all. split.
  - intros H. destruct (extend_all_inv _ _ _ H) as [books Hbooks].
    exists books. split; [done|].
    rewrite (extend_all_Some _ [] _ Hbooks) in H. by injection H as <-.
  - intros (books & Hbooks & ->). by rewrite (extend_all_Some _ [] _ Hbooks).
Qed.

Variable pos_tag : tagger.

Lemma clean_sents_concat (books : list (list (list string))) (M L : Z) :
  clean_sents pos_tag (List.concat books) M L
  = List.concat (map (fun sents => clean_sents pos_tag sents M L) books).
Proof.
  induction books as [|sents books IH]; [done|].
  cbn [List.concat map]. rewrite <- IH, !clean_sents_pipeline.
  by rewrite !filter_app, map_app, filter_app.
Qed.

(** X25.  Cleaning the merged corpus of books that can all be read gives
    the cleaned books one after the other: merging before cleaning and
    cleaning before merging agree. *)
Theorem clean_merged_books (filenames : list (string * bool))
    (books : list (list (list string))) (M L : Z) :
  Forall2 (fun b sents => get_sents io b.1 b.2 = Some sents) filenames books ->
  exists all,
    merged_books_sents io filenames = Some all /\
    clean_sents pos_tag all M L
    = List.concat (map (fun sents => clean_sents pos_tag sents M L) books).
Proof.
  intros Hbooks. exists (List.concat books). split.
  - unfold merged_books_sents. by rewrite (extend_all_Some _ [] _ Hbooks).
  - apply clean_sents_concat.
Qed.

End merged.

Section merged_examples.
Import Books.

Lemma clean_merged_books_witness :
  let io := {| gutenberg_sents :=
                 fun _ => Some [["["; "Emma"; "]"]; ["She"; "smiled"; "."]];
               read := fun _ => Some "Dogs bark. Cats purr.";
               sent_tokenize := fun _ => Some ["Dogs bark."; "Cats purr."] |} in
  exists all,
    merged_books_sents io [("austen-emma.txt", true); ("pets.txt", false)]
    = Some all /\
    clean_sents Cleaning.tag_NN all 1 5
    = List.concat
        (map (fun sents => clean_sents Cleaning.tag_NN sents 1 5)
           [[["["; "Emma"; "]"]; ["She"; "smiled"; "."]];
            [["Dogs"; "bark"]; ["Cats"; "purr"]]]).
Proof.
  intros io. apply (clean_merged_books io Cleaning.tag_NN).
  repeat (constructor; [by vm_compute|]). constructor.
Defined.

Example merged_books_sents_scenario :
  merged_books_sents
    {| gutenberg_sents := fun _ => Some [["Call"; "me"; "Ishmael"; "."]];
       read := fun filename =>
                 if bool_decide (filename = "pets.txt")
                 then Some "Dogs bark. Cats purr." else None;
       sent_tokenize := fun _ => Some ["Dogs bark."; "Cats purr."] |}
    [("melville-moby_dick.txt", true); ("pets.txt", false)]
  = Some [["Call"; "me"; "Ishmael"; "."]; ["Dogs"; "bark"]; ["Cats"; "purr"]].
Proof. by vm_compute. Qed.

End merged_examples.


(** ** The titles of the available books *)

Section pylist.
Context {A : Type}.

Lemma outcome_bind_Returns {B C} (a : B) (f : B -> outcome C) :
  Returns a ≫= f = f a.
Proof. reflexivity. Qed.

Lemma outcome_bind_Raises {B C} (e : list_error) (f : B -> outcome C) :
  Raises e ≫= f = Raises e.
Proof. reflexivity. Qed.

Lemma place_at (n k : nat) :
  k < n -> PyList.place n (Z.of_nat k) = Returns k.
Proof.
  intros Hk. unfold PyList.place. rewrite decide_True by lia.
  by rewrite Nat2Z.id.
Qed.

Lemma place_from_end (n k : nat) :
  0 < k ≤ n -> PyList.place n (- Z.of_nat k) = Returns (n - k).
Proof.
  intros Hk. unfold PyList.place.
  rewrite decide_False, decide_True by lia. f_equal. lia.
Qed.

Lemma place_beyond (n : nat) (i : Z) :
  (Z.of_nat n ≤ i)%Z -> PyList.place n i = Raises OutOfRange.
Proof.
  intros Hi. unfold PyList.place. by rewrite !decide_False by lia.
Qed.

Lemma getitem_middle (pre post : list A) (x : A) :
  PyList.getitem (pre ++ x :: post) (Z.of_nat (length pre)) = Returns x.
Proof.
  unfold PyList.getitem. rewrite place_at by (rewrite length_app; simpl; lia).
  rewrite outcome_bind_Returns. by rewrite list_lookup_middle.
Qed.

Lemma getitem_at (l : list A) (k : nat) (x : A) :
  l !! k = Some x -> PyList.getitem l (Z.of_nat k) = Returns x.
Proof.
  intros Hk. unfold PyList.getitem.
  rewrite place_at by (by eapply lookup_lt_Some).
  by rewrite outcome_bind_Returns, Hk.
Qed.

Lemma getitem_last (l : list A) (x : A) :
  PyList.getitem (l ++ [x]) (-1) = Returns x.
Proof.
  unfold PyList.getitem. rewrite (place_from_end _ 1)
    by (rewrite length_app; simpl; lia).
  rewrite outcome_bind_Returns, length_app. simpl.
  replace (length l + 1 - 1) with (length l) by lia.
  by rewrite list_lookup_middle.
Qed.

Lemma getitem_beyond (l : list A) (i : Z) :
  (Z.of_nat (length l) ≤ i)%Z -> PyList.getitem l i = Raises OutOfRange.
Proof. intros Hi. unfold PyList.getitem. by rewrite place_beyond. Qed.

Lemma delitem_head (x : A) (l : list A) :
  PyList.delitem (x :: l) 0 = Returns l.
Proof. reflexivity. Qed.

Lemma delitem_last (l : list A) (x : A) :
  PyList.delitem (l ++ [x]) (-1) = Returns l.
Proof.
  unfold PyList.delitem. rewrite (place_from_end _ 1)
    by (rewrite length_app; simpl; lia).
  rewrite outcome_bind_Returns, length_app. simpl.
  replace (length l + 1 - 1) with (length l) by lia.
  by rewrite delete_middle, app_nil_r.
Qed.

Lemma delitem_nil (i : Z) : PyList.delitem (@nil A) i = Raises OutOfRange.
Proof.
  unfold PyList.delitem, PyList.place. simpl.
  by rewrite !decide_False by lia.
Qed.

Lemma pop_middle (pre post : list A) (x : A) :
  PyList.pop (pre ++ x :: post) (Z.of_nat (length pre))
  = Returns (x, pre ++ post).
Proof.
  unfold PyList.pop. rewrite getitem_middle, outcome_bind_Returns.
  unfold PyList.delitem.
  rewrite place_at by (rewrite length_app; simpl; lia).
  by rewrite !outcome_bind_Returns, delete_middle.
Qed.

Lemma insert_middle (pre post : list A) (x : A) :
  PyList.insert (pre ++ post) (Z.of_nat (length pre)) x = pre ++ x :: post.
Proof.
  unfold PyList.insert. rewrite decide_False by lia.
  rewrite Z.min_r by (rewrite length_app; lia).
  by rewrite Nat2Z.id, take_app_length, drop_app_length.
Qed.

Lemma insert_before_last (l : list A) (x y : A) :
  PyList.insert (l ++ [x]) (-1) y = l ++ [y; x].
Proof.
  unfold PyList.insert. rewrite decide_True by lia.
  rewrite length_app. simpl length.
  replace (Z.to_nat (Z.max 0 (Z.of_nat (length l + 1) + -1)))
    with (length l) by lia.
  by rewrite take_app_length, drop_app_length.
Qed.

Context `{EqDecision A}.

Lemma index_first (pre post : list A) (x : A) :
  x ∉ pre -> PyList.index (pre ++ x :: post) x = Returns (length pre).
Proof.
  intros Hx. unfold PyList.index.
  assert (H : list_find (fun y => y = x) (pre ++ x :: post)
              = Some (length pre, x)).
  { apply list_find_Some. split_and!; [by rewrite list_lookup_middle | done |].
    intros j y Hj Hlt ->. rewrite lookup_app_l in Hj by done.
    by apply list_elem_of_lookup_2 in Hj. }
  by rewrite H.
Qed.

End pylist.

Section titles.
Import Available.

Lemma join_possessive (first last : string) :
  PyList.join "" [first; "'"; last] = first +:+ "'" +:+ last.
Proof. reflexivity. Qed.

Lemma merge_possessive_middle (first last : string) (pre post : list string) :
  "'" ∉ pre -> first <> "'" ->
  merge_possessive (pre ++ first :: "'" :: last :: post)
  = Returns (pre ++ (first +:+ "'" +:+ last) :: post).
Proof.
  intros Hpre Hfirst. unfold merge_possessive.
  set (single := PyList.join "" [first; "'"; last]).
  replace (pre ++ first :: "'" :: last :: post)
    with ((pre ++ [first]) ++ "'" :: last :: post) at 1
    by (by rewrite <- app_assoc).
  rewrite index_first, outcome_bind_Returns.
  2: { rewrite elem_of_app, list_elem_of_singleton. intros [?|?]; by auto. }
  rewrite length_app. simpl length.
  replace (Z.of_nat (length pre + 1) - 1)%Z with (Z.of_nat (length pre)) by lia.
  rewrite getitem_middle, outcome_bind_Returns.
  rewrite (getitem_at _ (length pre + 1) "'"), outcome_bind_Returns.
  2: { rewrite lookup_app_r by lia.
       by replace (length pre + 1 - length pre) with 1 by lia. }
  replace (Z.of_nat (length pre + 1) + 1)%Z
    with (Z.of_nat (length pre + 2)) by lia.
  rewrite (getitem_at _ (length pre + 2) last), outcome_bind_Returns.
  2: { rewrite lookup_app_r by lia.
       by replace (length pre + 2 - length pre) with 2 by lia. }
  fold single. rewrite insert_middle.
  replace (pre ++ single :: first :: "'" :: last :: post)
    with ((pre ++ [single]) ++ first :: "'" :: last :: post)
    by (by rewrite <- app_assoc).
  replace (length pre + 1) with (length (pre ++ [single]))
    by (by rewrite length_app).
  rewrite pop_middle, outcome_bind_Returns.
  rewrite pop_middle, outcome_bind_Returns.
  rewrite pop_middle, outcome_bind_Returns.
  by rewrite <- app_assoc.
Qed.

Lemma title_words_inner (opener closer : string) (inner : list string) :
  title_words (opener :: inner ++ [closer])
  = if bool_decide ("'" ∈ inner) then merge_possessive inner
    else Returns inner.
Proof.
  unfold title_words. rewrite delitem_head, outcome_bind_Returns.
  by rewrite delitem_last, outcome_bind_Returns.
Qed.

(** X26.  In a first sentence whose title holds an apostrophe token
    after its first word, the word before the first apostrophe, the
    apostrophe and the word after it become one token, and the brackets
    around the sentence are removed. *)
Theorem title_words_possessive (opener closer first last : string)
    (pre post : list string) :
  "'" ∉ pre -> first <> "'" ->
  title_words (opener :: pre ++ first :: "'" :: last :: post ++ [closer])
  = Returns (pre ++ (first +:+ "'" +:+ last) :: post).
Proof.
  intros Hpre Hfirst.
  replace (pre ++ first :: "'" :: last :: post ++ [closer])
    with ((pre ++ first :: "'" :: last :: post) ++ [closer])
    by (by rewrite <- app_assoc).
  rewrite title_words_inner, bool_decide_eq_true_2.
  - by apply merge_possessive_middle.
  - rewrite elem_of_app, !elem_of_cons. tauto.
Qed.

Lemma title_words_possessive_witness :
  title_words ["["; "Alice"; "'"; "s"; "Adventures"; "in"; "Wonderland";
               "by"; "Lewis"; "Carroll"; "1865"; "]"]
  = Returns ["Alice's"; "Adventures"; "in"; "Wonderland"; "by"; "Lewis";
             "Carroll"; "1865"].
Proof.
  apply (title_words_possessive "[" "]" "Alice" "s" []
           ["Adventures"; "in"; "Wonderland"; "by"; "Lewis"; "Carroll"; "1865"]).
  - apply not_elem_of_nil.
  - discriminate.
Defined.

Lemma pop_head {A} (x : A) (l : list A) : PyList.pop (x :: l) 0 = Returns (x, l).
Proof. apply (pop_middle [] l x). Qed.

Lemma merge_possessive_leading (body : list string) (z : string) :
  merge_possessive ("'" :: body ++ [z])
  = Returns (drop 2 (body ++ [z +:+ "'" +:+ hd z body; z])).
Proof.
  unfold merge_possessive.
  rewrite (index_first [] (body ++ [z]) "'"), outcome_bind_Returns
    by apply not_elem_of_nil.
  change (Z.of_nat (length (@nil string)) - 1)%Z with (-1)%Z.
  change (Z.of_nat (length (@nil string)) + 1)%Z with (Z.of_nat 1).
  change (Z.of_nat (length (@nil string))) with 0%Z.
  change ("'" :: body ++ [z]) with (("'" :: body) ++ [z]).
  rewrite getitem_last, outcome_bind_Returns.
  rewrite (getitem_at _ 0 "'"), outcome_bind_Returns by done.
  rewrite (getitem_at _ 1 (hd z body)), outcome_bind_Returns
    by (by destruct body).
  rewrite insert_before_last, join_possessive.
  change (("'" :: body) ++ [z +:+ "'" +:+ hd z body; z])
    with ("'" :: body ++ [z +:+ "'" +:+ hd z body; z]).
  rewrite pop_head, outcome_bind_Returns.
  destruct body as [|x [|y body]]; simpl app;
    by rewrite !pop_head, ?outcome_bind_Returns.
Qed.

Lemma merge_possessive_last (pre : list string) :
  "'" ∉ pre -> merge_possessive (pre ++ ["'"]) = Raises OutOfRange.
Proof.
  intros Hpre. unfold merge_possessive.
  rewrite index_first, outcome_bind_Returns by done.
  assert (Hfirst : exists first,
            PyList.getitem (pre ++ ["'"]) (Z.of_nat (length pre) - 1)
            = Returns first).
  { destruct pre as [|x pre _] using rev_ind.
    - exists "'". apply (getitem_last [] "'").
    - exists x. rewrite length_app. simpl length.
      replace (Z.of_nat (length pre + 1) - 1)%Z
        with (Z.of_nat (length pre)) by lia.
      rewrite <- app_assoc. apply getitem_middle. }
  destruct Hfirst as [first ->]. rewrite outcome_bind_Returns.
  rewrite getitem_middle, outcome_bind_Returns.
  rewrite getitem_beyond; [done|]. rewrite length_app. simpl. lia.
Qed.

(** X27.  When the apostrophe is the first token of the title, the
    token joined to it from the left is the last token of the title;
    the joined token is put before that last token, and the apostrophe
    and the two tokens after it are removed. *)
Theorem title_words_leading_apostrophe (opener closer z : string)
    (body : list string) :
  title_words (opener :: "'" :: body ++ [z; closer])
  = Returns (drop 2 (body ++ [z +:+ "'" +:+ hd z body; z])).
Proof.
  replace ("'" :: body ++ [z; closer])
    with (("'" :: body ++ [z]) ++ [closer])
    by (simpl; by rewrite <- app_assoc).
  rewrite title_words_inner, bool_decide_eq_true_2 by left.
  apply merge_possessive_leading.
Qed.

Lemma first_split_unique {A} (x : A) (l1 l2 r1 r2 : list A) :
  x ∉ l1 -> x ∉ l2 -> l1 ++ x :: r1 = l2 ++ x :: r2 -> l1 = l2 /\ r1 = r2.
Proof.
  revert l2. induction l1 as [|a l1 IH]; intros [|b l2] H1 H2 Heq.
  - by injection Heq.
  - injection Heq as -> _. exfalso. apply H2. left.
  - injection Heq as -> _. exfalso. apply H1. left.
  - injection Heq as -> Heq. apply not_elem_of_cons in H1 as [_ H1].
    apply not_elem_of_cons in H2 as [_ H2].
    destruct (IH l2 H1 H2 Heq) as [-> ->]. done.
Qed.

Lemma title_words_Raises (title_s : list string) (e : list_error) :
  title_words title_s = Raises e <-> e = OutOfRange /\ malformed title_s.
Proof.
  unfold malformed. destruct title_s as [|opener inner].
  { unfold title_words. rewrite delitem_nil. simpl. split.
    - intros [= <-]. split; [done|]. left. lia.
    - by intros [-> _]. }
  destruct inner as [|closer inner _] using rev_ind.
  { unfold title_words. rewrite delitem_head, outcome_bind_Returns.
    rewrite delitem_nil. simpl. split.
    - intros [= <-]. split; [done|]. left. lia.
    - by intros [-> _]. }
  rewrite title_words_inner.
  assert (Hshape : forall opener' pre' closer',
            opener :: inner ++ [closer] = opener' :: pre' ++ ["'"; closer'] ->
            inner = pre' ++ ["'"]).
  { intros opener' pre' closer' [= _ Heq].
    replace (pre' ++ ["'"; closer']) with ((pre' ++ ["'"]) ++ [closer'])
      in Heq by (by rewrite <- app_assoc).
    by apply app_inj_tail in Heq as [Heq _]. }
  assert (Hlen : ~ length (opener :: inner ++ [closer]) < 2).
  { rewrite length_cons, length_app. simpl. lia. }
  case_bool_decide as Hin.
  - apply list_elem_of_split_l in Hin as (pre & rest & -> & Hpre).
    destruct rest as [|last post].
    + rewrite merge_possessive_last by done. split.
      * intros [= <-]. split; [done|]. right. exists opener, pre, closer.
        by rewrite <- app_assoc.
      * by intros [-> _].
    + assert (Hret : exists words,
                merge_possessive (pre ++ "'" :: last :: post) = Returns words).
      { destruct pre as [|first pre _] using rev_ind.
        - destruct post as [|z body _] using rev_ind.
          + eexists. apply (merge_possessive_leading [] last).
          + eexists. apply (merge_possessive_leading (last :: body) z).
        - eexists. rewrite <- app_assoc. apply merge_possessive_middle.
          + intros H. apply Hpre. rewrite elem_of_app. by left.
          + intros ->. apply Hpre.
            rewrite elem_of_app, list_elem_of_singleton. by right. }
      destruct Hret as [words ->]. split; [done|].
      intros [_ [?|(opener' & pre' & closer' & Heq & Hpre')]]; [done|].
      apply Hshape in Heq.
      apply (first_split_unique "'" pre pre' (last :: post) []) in Heq
        as [_ [=]]; done.
  - split; [done|].
    intros [_ [?|(opener' & pre' & closer' & Heq & Hpre')]]; [done|].
    apply Hshape in Heq. exfalso. apply Hin.
    rewrite Heq, elem_of_app, list_elem_of_singleton. by right.
Qed.

Lemma index_elem_of {A} `{EqDecision A} (l : list A) (x : A) :
  x ∈ l -> exists i, PyList.index l x = Returns i.
Proof.
  intros Hx. unfold PyList.index.
  destruct (list_find_elem_of (fun y => y = x) l x Hx eq_refl) as [[i y] ->].
  by exists i.
Qed.

Section corpus.
Variable c : corpus.

Lemma book_title_of (title_file : list (string * string)) (b : string) :
  book c title_file b
  = title ← title_of c b; Returns (store title_file title b).
Proof.
  unfold book, title_of.
  destruct (PyList.getitem (sents c b) 0) as [title_s|e]; [|done].
  rewrite !outcome_bind_Returns.
  destruct (title_words title_s) as [words|e]; [|done].
  rewrite !outcome_bind_Returns. case_bool_decide; [|done].
  by destruct (PyList.index words "by").
Qed.

Lemma title_of_Raises (b : string) (e : list_error) :
  title_of c b = Raises e <-> e = OutOfRange /\ untitled c b.
Proof.
  unfold title_of, untitled. destruct (sents c b) as [|title_s rest].
  - rewrite getitem_beyond by (simpl; lia). simpl. split.
    + by intros [= <-].
    + by intros [-> _].
  - rewrite (getitem_at _ 0 title_s), outcome_bind_Returns by done.
    rewrite <- title_words_Raises.
    destruct (title_words title_s) as [words|e0];
      [|rewrite outcome_bind_Raises; split; by intros [= ->]].
    rewrite outcome_bind_Returns. split; [|done].
    case_bool_decide as Hby; [|done].
    by destruct (index_elem_of words "by" Hby) as [i ->].
Qed.

Lemma for_all_book_Raises (books : list string) (e : list_error) :
  forall title_file,
    for_all (book c) title_file books = Raises e <->
    e = OutOfRange /\ Exists (untitled c) books.
Proof.
  induction books as [|b books IH]; intros title_file.
  - simpl. rewrite Exists_nil. split; [done | tauto].
  - cbn [for_all]. rewrite book_title_of, Exists_cons.
    destruct (title_of c b) as [title|e0] eqn:Hb.
    + rewrite !outcome_bind_Returns, IH.
      assert (Hgood : ~ untitled c b).
      { intros Hbad.
        assert (H : title_of c b = Raises OutOfRange)
          by (by apply title_of_Raises).
        congruence. }
      tauto.
    + apply title_of_Raises in Hb as [-> Hbad]. simpl. split.
      * intros [= <-]. tauto.
      * by intros [-> _].
Qed.

(** X28.  Listing the books fails, with an [IndexError], exactly when
    the corpus has a book without a title: a book without sentences, or
    whose first sentence has fewer than two tokens, or whose first
    apostrophe is the last token of its title. *)
Theorem list_available_books_raises (e : list_error) :
  list_available_books c = Raises e <->
  e = OutOfRange /\ Exists (untitled c) (fileids c).
Proof. apply for_all_book_Raises. Qed.

Lemma for_all_app {B S} (body : S -> B -> outcome S) (s : S) (l1 l2 : list B) :
  for_all body s (l1 ++ l2) = s' ← for_all body s l1; for_all body s' l2.
Proof.
  revert s. induction l1 as [|a l1 IH]; intros s; [done|].
  simpl. destruct (body s a) as [s'|e]; [|done].
  rewrite !outcome_bind_Returns. apply IH.
Qed.

Lemma first_titled_elem_of (titles fileids : list string) (title : string) :
  length titles = length fileids ->
  title ∈ titles <-> exists b, first_titled titles fileids title b.
Proof.
  intros Hlen. split.
  - intros Ht.
    destruct (list_find_elem_of (fun y => y = title) titles title Ht eq_refl)
      as [[i y] Hfind].
    apply list_find_Some in Hfind as (Hi & -> & Hmin).
    destruct (lookup_lt_is_Some_2 fileids i) as [b Hb].
    { rewrite <- Hlen. by eapply lookup_lt_Some. }
    exists b, i. split_and!; [done | done |].
    intros j Hj Hjt. by apply (Hmin j title).
  - intros (b & i & Hi & _). by eapply list_elem_of_lookup_2.
Qed.

Lemma first_titled_snoc (titles fileids : list string) (t b title b' : string) :
  length titles = length fileids ->
  first_titled (titles ++ [t]) (fileids ++ [b]) title b' <->
  first_titled titles fileids title b' \/
  (title = t /\ b' = b /\ t ∉ titles).
Proof.
  intros Hlen. split.
  - intros (i & Hi & Hb & Hmin).
    destruct (decide (i < length titles)) as [Hlt|Hge].
    + left. exists i. rewrite lookup_app_l in Hi by done.
      rewrite lookup_app_l in Hb by lia. split_and!; [done | done |].
      intros j Hj. specialize (Hmin j Hj). by rewrite lookup_app_l in Hmin by lia.
    + right. assert (i = length titles) as ->.
      { apply lookup_lt_Some in Hi. rewrite length_app in Hi. simpl in Hi. lia. }
      rewrite list_lookup_middle in Hi by done.
      rewrite list_lookup_middle in Hb by done.
      injection Hi as <-. injection Hb as <-. split_and!; [done | done |].
      intros Ht. apply list_elem_of_lookup_1 in Ht as [j Hj].
      apply (Hmin j); [by eapply lookup_lt_Some|].
      rewrite lookup_app_l; [done | by eapply lookup_lt_Some].
  - intros [(i & Hi & Hb & Hmin)|(-> & -> & Ht)].
    + pose proof (lookup_lt_Some _ _ _ Hi) as Hlt. exists i.
      rewrite !lookup_app_l by lia. split_and!; [done | done |].
      intros j Hj. rewrite lookup_app_l by lia. by apply Hmin.
    + exists (length titles). split_and!.
      * by rewrite list_lookup_middle.
      * by rewrite list_lookup_middle.
      * intros j Hj. rewrite lookup_app_l by done. intros Hjt.
        by apply list_elem_of_lookup_2 in Hjt.
Qed.

Lemma for_all_book_first (books : list string) : forall titles,
  Forall2 (fun b title => title_of c b = Returns title) books titles ->
  exists title_file,
    for_all (book c) [] books = Returns title_file /\
    NoDup title_file.*1 /\
    (forall title b,
       (title, b) ∈ title_file <-> first_titled titles books title b) /\
    title_file `sublist_of` zip titles books.
Proof.
  induction books as [|b books IH] using rev_ind; intros titles Htitles.
  - apply Forall2_nil_inv_l in Htitles as ->. exists [].
    split_and!; [done | constructor | | constructor].
    intros title b. rewrite elem_of_nil. split; [done|].
    by intros (i & Hi & _).
  - apply Forall2_app_inv_l in Htitles
      as (titles' & last & Htitles & Hlast & ->).
    apply Forall2_cons_inv_l in Hlast as (t & nil' & Hb & Hnil & ->).
    apply Forall2_nil_inv_l in Hnil as ->.
    destruct (IH _ Htitles) as (title_file & Hrun & Hnd & Hfirst & Hsub).
    pose proof (Forall2_length _ _ _ Htitles) as Hlen. symmetry in Hlen.
    assert (Hkey : t ∈ title_file.*1 <-> t ∈ titles').
    { rewrite (first_titled_elem_of titles' books t Hlen).
      rewrite list_elem_of_fmap. split.
      - intros ([t' b'] & -> & Hin). exists b'. by apply Hfirst.
      - intros (b' & Hb'). exists (t, b'). split; [done|]. by apply Hfirst. }
    exists (store title_file t b).
    rewrite for_all_app, Hrun, outcome_bind_Returns. cbn [for_all].
    rewrite book_title_of, Hb, !outcome_bind_Returns.
    rewrite zip_with_app by done. unfold store.
    case_bool_decide as Hin; split_and!; try done.
    + intros title b'. rewrite first_titled_snoc, Hfirst by done.
      rewrite Hkey in Hin. split; [by left|]. intros [?|(_ & _ & ?)]; done.
    + by apply sublist_inserts_r.
    + rewrite fmap_app. change ([(t, b)].*1) with [t].
      apply NoDup_app. split_and!; [done | | ].
      * intros x Hx. rewrite list_elem_of_singleton. by intros ->.
      * apply NoDup_singleton.
    + intros title b'. rewrite first_titled_snoc, <- Hfirst by done.
      rewrite <- Hkey. rewrite elem_of_app, list_elem_of_singleton.
      split.
      * intros [?|[= -> ->]]; [by left | by right].
      * intros [?|(-> & -> & _)]; [by left | by right].
    + by apply sublist_app.
Qed.

(** X29.  When every book has a title, the dictionary of the available
    books holds each title once, with the first of the files that have
    this title, and its items are in the order of these files in the
    corpus. *)
Theorem list_available_books_first_wins (titles : list string) :
  Forall2 (fun b title => title_of c b = Returns title) (fileids c) titles ->
  exists title_file,
    list_available_books c = Returns title_file /\
    NoDup title_file.*1 /\
    (forall title b,
       (title, b) ∈ title_file <->
       first_titled titles (fileids c) title b) /\
    title_file `sublist_of` zip titles (fileids c).
Proof. apply for_all_book_first. Qed.

End corpus.

End titles.

Section titles_examples.
Import Available.

Lemma list_available_books_first_wins_witness :
  let c := {| fileids := ["austen-emma.txt"; "carroll-alice.txt"; "emma.txt"];
              sents := fun b =>
                if bool_decide (b = "carroll-alice.txt")
                then [["["; "Alice"; "'"; "s"; "Adventures"; "by"; "Lewis";
                       "Carroll"; "1865"; "]"]]
                else [["["; "Emma"; "by"; "Jane"; "Austen"; "1816"; "]"]] |} in
  exists title_file,
    list_available_books c = Returns title_file /\
    NoDup title_file.*1 /\
    (forall title b,
       (title, b) ∈ title_file <->
       first_titled ["Emma"; "Alice's Adventures"; "Emma"] (fileids c)
         title b) /\
    title_file `sublist_of`
      zip ["Emma"; "Alice's Adventures"; "Emma"] (fileids c).
Proof.
  intros c. apply (list_available_books_first_wins c).
  repeat (constructor; [by vm_compute|]). constructor.
Defined.

Example list_available_books_scenario :
  list_available_books
    {| fileids := ["austen-emma.txt"; "carroll-alice.txt"; "emma.txt"];
       sents := fun b =>
         if bool_decide (b = "carroll-alice.txt")
         then [["["; "Alice"; "'"; "s"; "Adventures"; "by"; "Lewis";
                "Carroll"; "1865"; "]"]]
         else [["["; "Emma"; "by"; "Jane"; "Austen"; "1816"; "]"]] |}
  = Returns [("Emma", "austen-emma.txt");
             ("Alice's Adventures", "carroll-alice.txt")].
Proof. by vm_compute. Qed.

Example title_words_leading_scenario :
  title_words ["["; "'"; "Twas"; "the"; "Night"; "by"; "Moore"; "]"]
  = Returns ["Night"; "by"; "Moore'Twas"; "Moore"].
Proof. by vm_compute. Qed.

End titles_examples.
